(** * verbaltest: the metadata registry, the suite's API-option resolution
      and the request engine [processApiRequest] of playwright-decorators.

    Shallow embedding of
    - [src/unnamed/part_009] ([MetadataStorage]),
    - [src/packages/playwright-decorators/src/decorators/expect-status.decorator.ts],
    - [src/packages/playwright-decorators/src/decorators/suite.decorator.ts]
      (the registration of a test method and the retrieval of its API
      options),
    - [src/packages/playwright-decorators/src/helpers/api-helper.ts],
    - the method decorators of [src/packages/playwright-decorators/src/decorators]:
      [api-endpoint], [path-params], [query-params], [headers],
      [request-body], [expect-body], [expect-schema], [test], [step] and
      [utility] ([skip], [only], [tag], [slow]), with [createHookDecorator]
      of [src/unnamed/part_006].

    JS strings are modelled as Stdlib [string]s: one [ascii] is one UTF-16
    code unit in 0..255.  JS numbers are modelled by [Z]; the model is meant
    for integral numbers of magnitude at most 2^53 (exactly representable).
    Where the JS semantics leaves the covered fragment, a computation
    returns [Outside] instead of guessing. *)

From Stdlib Require Import ZArith List String Ascii Bool Lia.
From Stdlib Require Import Numbers.DecimalString.
Import ListNotations.
Open Scope string_scope.
Set Warnings "-register-all".

Module Js.

(** Errors thrown by the modelled code. *)
Inductive js_error : Type :=
| TypeError (msg : string)
| SyntaxError (msg : string)
| Error (msg : string)            (* [new Error(msg)] *)
| AssertionError (msg : string).  (* a failed Playwright [expect] *)

(** Outcome of a JS computation: a value, a thrown error, or [Outside]
    when the behaviour lies outside the modelled fragment of JS. *)
Inductive res (A : Type) : Type :=
| Ok (a : A)
| Throw (e : js_error)
| Outside.
Arguments Ok {A} a.
Arguments Throw {A} e.
Arguments Outside {A}.

Definition bind {A B : Type} (m : res A) (k : A -> res B) : res B :=
  match m with
  | Ok a => k a
  | Throw e => Throw e
  | Outside => Outside
  end.

Notation "x <- m ;; k" := (bind m (fun x => k))
  (at level 61, m at next level, right associativity).

(** JS values.  [JFun] and [JProto] stand for the built-in functions and
    prototype objects that a property read can reach by inheritance. *)
Inductive jsval : Type :=
| JUndefined
| JNull
| JBool (b : bool)
| JNum (n : Z)
| JStr (s : string)
| JArr (xs : list jsval)
| JObj (ps : list (string * jsval))
| JFun (name : string)
| JProto (name : string).

(** JS truthiness. *)
Definition truthy (v : jsval) : bool :=
  match v with
  | JUndefined | JNull => false
  | JBool b => b
  | JNum n => negb (n =? 0)%Z
  | JStr s => negb (s =? "")
  | _ => true
  end.

(** ** Strings *)

Definition code (c : ascii) : nat := nat_of_ascii c.

(** [String.prototype.toLowerCase] on code units 0..255: A-Z and the
    Latin-1 capitals U+00C0..U+00DE except U+00D7 map to U+0020 above. *)
Definition lower_char (c : ascii) : ascii :=
  let n := code c in
  if (Nat.leb 65 n && Nat.leb n 90) || (Nat.leb 192 n && Nat.leb n 222 && negb (Nat.eqb n 215))
  then ascii_of_nat (n + 32) else c.

Fixpoint toLowerCase (s : string) : string :=
  match s with
  | EmptyString => EmptyString
  | String c r => String (lower_char c) (toLowerCase r)
  end.

(** [s.includes(sub)]. *)
Fixpoint includes (s sub : string) : bool :=
  String.prefix sub s ||
  match s with
  | EmptyString => false
  | String _ r => includes r sub
  end.

(** [s.split('.')]. *)
Fixpoint split_dot (s : string) : list string :=
  match s with
  | EmptyString => [""]
  | String c r =>
      let parts := split_dot r in
      if Ascii.eqb c "." then "" :: parts
      else match parts with
           | p :: ps => String c p :: ps
           | [] => [String c EmptyString]
           end
  end.

Definition is_digit (c : ascii) : bool := Nat.leb 48 (code c) && Nat.leb (code c) 57.

Fixpoint all_digits (s : string) : bool :=
  match s with
  | EmptyString => true
  | String c r => is_digit c && all_digits r
  end.

Fixpoint digits_value (s : string) (acc : Z) : Z :=
  match s with
  | EmptyString => acc
  | String c r => digits_value r (10 * acc + Z.of_nat (code c - 48))
  end.

(** A property key made of decimal digits only: [Some (Some n)] when it
    is the canonical form of [n], [Some None] when it has a leading zero.
    No prototype of the modelled values has a property with such a name. *)
Definition digit_key (k : string) : option (option Z) :=
  match k with
  | EmptyString => None
  | String c r =>
      if all_digits k then
        if Ascii.eqb c "0" && negb (r =? "") then Some None
        else Some (Some (digits_value k 0))
      else None
  end.

Definition decimal_of_Z (z : Z) : string := NilEmpty.string_of_int (Z.to_int z).

(** [Number::toString] on the integers the model covers. *)
Definition number_to_string (n : Z) : res string :=
  if (Z.abs n <=? 2 ^ 53)%Z then Ok (decimal_of_Z n) else Outside.

(** [String(v)]; [Array.prototype.join] turns [null]/[undefined] elements
    into the empty string.  Objects and functions are not covered. *)
Fixpoint js_to_string (v : jsval) : res string :=
  match v with
  | JUndefined => Ok "undefined"
  | JNull => Ok "null"
  | JBool b => Ok (if b then "true" else "false")
  | JNum n => number_to_string n
  | JStr s => Ok s
  | JArr xs =>
      let fix elts (xs : list jsval) : res (list string) :=
        match xs with
        | [] => Ok []
        | x :: r =>
            s <- match x with
                 | JUndefined | JNull => Ok ""
                 | _ => js_to_string x
                 end ;;
            ss <- elts r ;;
            Ok (s :: ss)
        end in
      ss <- elts xs ;; Ok (String.concat "," ss)
  | JObj _ | JFun _ | JProto _ => Outside
  end.

(** ** Property reads [v[k]] *)

Fixpoint assoc {A : Type} (k : string) (ps : list (string * A)) : option A :=
  match ps with
  | [] => None
  | (k', a) :: r => if k =? k' then Some a else assoc k r
  end.

(** The properties every plain object inherits from [Object.prototype]
    besides [constructor] and [__proto__]. *)
Definition object_prototype_methods : list string :=
  ["hasOwnProperty"; "isPrototypeOf"; "propertyIsEnumerable"; "toLocaleString";
   "toString"; "valueOf"; "__defineGetter__"; "__defineSetter__";
   "__lookupGetter__"; "__lookupSetter__"].

Definition poison_pill_msg : string :=
  "'caller', 'callee', and 'arguments' properties may not be accessed on strict mode functions or the arguments objects for calls to them".

(** [v[k]].  A read on [null]/[undefined] throws; a read of [caller] or
    [arguments] on a built-in function reaches the throwing accessors of
    [Function.prototype]; reads of inherited members of arrays, strings,
    numbers, booleans and built-ins are not covered. *)
Definition js_get (v : jsval) (k : string) : res jsval :=
  match v with
  | JUndefined => Throw (TypeError ("Cannot read properties of undefined (reading '" ++ k ++ "')"))
  | JNull => Throw (TypeError ("Cannot read properties of null (reading '" ++ k ++ "')"))
  | JObj ps =>
      match assoc k ps with
      | Some x => Ok x
      | None =>
          if k =? "__proto__" then Ok (JProto "Object.prototype")
          else if k =? "constructor" then Ok (JFun "Object")
          else if existsb (String.eqb k) object_prototype_methods
          then Ok (JFun ("Object.prototype." ++ k))
          else Ok JUndefined
      end
  | JArr xs =>
      match digit_key k with
      | Some (Some n) =>
          if (n <? Z.of_nat (List.length xs))%Z then Ok (nth (Z.to_nat n) xs JUndefined)
          else Ok JUndefined
      | Some None => Ok JUndefined
      | None => if k =? "length" then Ok (JNum (Z.of_nat (List.length xs))) else Outside
      end
  | JStr s =>
      match digit_key k with
      | Some (Some n) =>
          if (n <? Z.of_nat (String.length s))%Z
          then match String.get (Z.to_nat n) s with
               | Some c => Ok (JStr (String c EmptyString))
               | None => Ok JUndefined
               end
          else Ok JUndefined
      | Some None => Ok JUndefined
      | None => if k =? "length" then Ok (JNum (Z.of_nat (String.length s))) else Outside
      end
  | JBool _ | JNum _ =>
      match digit_key k with
      | Some _ => Ok JUndefined
      | None => Outside
      end
  | JFun _ =>
      if (k =? "caller") || (k =? "arguments") then Throw (TypeError poison_pill_msg)
      else Outside
  | JProto _ => Outside
  end.

End Js.
Import Js.

(** ** [JSON.stringify] and [JSON.parse] *)
Module Json.

Definition dq : ascii := "034"%char.
Definition bsl : ascii := "092"%char.

Definition hex_digit (n : nat) : ascii :=
  ascii_of_nat (if Nat.ltb n 10 then 48 + n else 87 + n).

(** QuoteJSONString, one code unit. *)
Definition quote_unit (c : ascii) : string :=
  let n := code c in
  if Nat.eqb n 8 then String bsl "b"
  else if Nat.eqb n 9 then String bsl "t"
  else if Nat.eqb n 10 then String bsl "n"
  else if Nat.eqb n 12 then String bsl "f"
  else if Nat.eqb n 13 then String bsl "r"
  else if Nat.eqb n 34 then String bsl (String dq EmptyString)
  else if Nat.eqb n 92 then String bsl (String bsl EmptyString)
  else if Nat.ltb n 32
  then String bsl ("u00" ++ String (hex_digit (n / 16)) (String (hex_digit (n mod 16)) EmptyString))
  else String c EmptyString.

Fixpoint quote_units (s : string) : string :=
  match s with
  | EmptyString => EmptyString
  | String c r => quote_unit c ++ quote_units r
  end.

Definition QuoteJSONString (s : string) : string :=
  String dq (quote_units s ++ String dq EmptyString).

(** SerializeJSONProperty; [None] is the [undefined] result. *)
Fixpoint serialize (v : jsval) : res (option string) :=
  match v with
  | JUndefined | JFun _ => Ok None
  | JNull => Ok (Some "null")
  | JBool b => Ok (Some (if b then "true" else "false"))
  | JNum n => s <- number_to_string n ;; Ok (Some s)
  | JStr s => Ok (Some (QuoteJSONString s))
  | JArr xs =>
      let fix elts (xs : list jsval) : res (list string) :=
        match xs with
        | [] => Ok []
        | x :: r =>
            o <- serialize x ;;
            ss <- elts r ;;
            Ok (match o with Some s => s | None => "null" end :: ss)
        end in
      ss <- elts xs ;; Ok (Some ("[" ++ String.concat "," ss ++ "]"))
  | JObj ps =>
      let fix mems (ps : list (string * jsval)) : res (list string) :=
        match ps with
        | [] => Ok []
        | (k, x) :: r =>
            o <- serialize x ;;
            ss <- mems r ;;
            Ok (match o with
                | Some s => (QuoteJSONString k ++ ":" ++ s) :: ss
                | None => ss
                end)
        end in
      match assoc "toJSON" ps with
      | Some (JFun _) => Outside
      | _ => ss <- mems ps ;; Ok (Some ("{" ++ String.concat "," ss ++ "}"))
      end
  | JProto _ => Outside
  end.

(** [JSON.stringify(v)]. *)
Definition stringify (v : jsval) : res (option string) := serialize v.

Definition syntax_err {A : Type} : res A := Throw (SyntaxError "Unexpected token in JSON").

Definition is_ws (c : ascii) : bool :=
  let n := code c in Nat.eqb n 32 || Nat.eqb n 9 || Nat.eqb n 10 || Nat.eqb n 13.

Fixpoint skip_ws (l : list ascii) : list ascii :=
  match l with
  | c :: r => if is_ws c then skip_ws r else l
  | [] => []
  end.

Definition hex_val (c : ascii) : option nat :=
  let n := code c in
  if Nat.leb 48 n && Nat.leb n 57 then Some (n - 48)
  else if Nat.leb 97 n && Nat.leb n 102 then Some (n - 87)
  else if Nat.leb 65 n && Nat.leb n 70 then Some (n - 55)
  else None.

Definition escape_unit (e : ascii) : option ascii :=
  let n := code e in
  if Nat.eqb n 34 || Nat.eqb n 92 || Nat.eqb n 47 then Some e
  else if Nat.eqb n 98 then Some (ascii_of_nat 8)
  else if Nat.eqb n 102 then Some (ascii_of_nat 12)
  else if Nat.eqb n 110 then Some (ascii_of_nat 10)
  else if Nat.eqb n 114 then Some (ascii_of_nat 13)
  else if Nat.eqb n 116 then Some (ascii_of_nat 9)
  else None.

(** The characters of a JSON string after its opening quote; a [\u]
    escape above U+00FF is not covered. *)
Fixpoint parse_chars (l : list ascii) : res (list ascii * list ascii) :=
  match l with
  | [] => syntax_err
  | c :: r =>
      if Nat.eqb (code c) 34 then Ok ([], r)
      else if Nat.ltb (code c) 32 then syntax_err
      else if Nat.eqb (code c) 92 then
        match r with
        | [] => syntax_err
        | e :: r1 =>
            if Nat.eqb (code e) 117 then
              match r1 with
              | h1 :: h2 :: h3 :: h4 :: r2 =>
                  match hex_val h1, hex_val h2, hex_val h3, hex_val h4 with
                  | Some a, Some b, Some c', Some d =>
                      let u := ((a * 16 + b) * 16 + c') * 16 + d in
                      if Nat.leb u 255
                      then p <- parse_chars r2 ;; Ok (ascii_of_nat u :: fst p, snd p)
                      else Outside
                  | _, _, _, _ => syntax_err
                  end
              | _ => syntax_err
              end
            else match escape_unit e with
                 | Some u => p <- parse_chars r1 ;; Ok (u :: fst p, snd p)
                 | None => syntax_err
                 end
        end
      else p <- parse_chars r ;; Ok (c :: fst p, snd p)
  end.

Fixpoint lex_digits (l : list ascii) : list ascii * list ascii :=
  match l with
  | c :: r => if is_digit c then let '(ds, rest) := lex_digits r in (c :: ds, rest) else ([], l)
  | [] => ([], [])
  end.

(** A JSON number.  Covered: integers of at most 15 digits other than
    [-0]; a fraction or an exponent is not covered. *)
Definition parse_number (l : list ascii) : res (jsval * list ascii) :=
  let '(neg, l1) :=
    match l with
    | c :: r => if Nat.eqb (code c) 45 then (true, r) else (false, l)
    | [] => (false, l)
    end in
  let '(ds, rest) := lex_digits l1 in
  match ds with
  | [] => syntax_err
  | d :: ds' =>
      if Nat.eqb (code d) 48 && negb (Nat.eqb (List.length ds') 0) then syntax_err
      else
        match rest with
        | c :: _ =>
            if Nat.eqb (code c) 46 || Nat.eqb (code c) 101 || Nat.eqb (code c) 69
            then Outside else
            let z := digits_value (string_of_list_ascii ds) 0 in
            if Nat.ltb 15 (List.length ds) || (neg && (z =? 0)%Z) then Outside
            else Ok (JNum (if neg then Z.opp z else z), rest)
        | [] =>
            let z := digits_value (string_of_list_ascii ds) 0 in
            if Nat.ltb 15 (List.length ds) || (neg && (z =? 0)%Z) then Outside
            else Ok (JNum (if neg then Z.opp z else z), rest)
        end
  end.

Fixpoint strip_prefix (p l : list ascii) : option (list ascii) :=
  match p, l with
  | [], _ => Some l
  | a :: p', b :: l' => if Ascii.eqb a b then strip_prefix p' l' else None
  | _ :: _, [] => None
  end.

(** CreateDataProperty on a parsed object: a repeated key keeps its first
    position and takes the later value. *)
Fixpoint define_prop (ps : list (string * jsval)) (k : string) (v : jsval)
  : list (string * jsval) :=
  match ps with
  | [] => [(k, v)]
  | (k', v') :: r => if k =? k' then (k, v) :: r else (k', v') :: define_prop r k v
  end.

(** The JSON value grammar.  An object with an array-index key (whose own
    property order differs from the text order) is not covered. *)
Fixpoint parse_value (fuel : nat) (l : list ascii) : res (jsval * list ascii) :=
  match fuel with
  | O => Outside
  | S f =>
      match skip_ws l with
      | [] => syntax_err
      | c :: r =>
          let n := code c in
          if Nat.eqb n 34 then
            p <- parse_chars r ;; Ok (JStr (string_of_list_ascii (fst p)), snd p)
          else if Nat.eqb n 91 then
            match skip_ws r with
            | c' :: r' => if Nat.eqb (code c') 93 then Ok (JArr [], r') else parse_elements f [] r
            | [] => syntax_err
            end
          else if Nat.eqb n 123 then
            match skip_ws r with
            | c' :: r' => if Nat.eqb (code c') 125 then Ok (JObj [], r') else parse_members f [] r
            | [] => syntax_err
            end
          else if Nat.eqb n 116 then
            match strip_prefix (list_ascii_of_string "rue") r with
            | Some r' => Ok (JBool true, r') | None => syntax_err end
          else if Nat.eqb n 102 then
            match strip_prefix (list_ascii_of_string "alse") r with
            | Some r' => Ok (JBool false, r') | None => syntax_err end
          else if Nat.eqb n 110 then
            match strip_prefix (list_ascii_of_string "ull") r with
            | Some r' => Ok (JNull, r') | None => syntax_err end
          else if Nat.eqb n 45 || is_digit c then parse_number (c :: r)
          else syntax_err
      end
  end
with parse_elements (fuel : nat) (acc : list jsval) (l : list ascii)
  : res (jsval * list ascii) :=
  match fuel with
  | O => Outside
  | S f =>
      p <- parse_value f l ;;
      match skip_ws (snd p) with
      | c :: r =>
          if Nat.eqb (code c) 44 then parse_elements f (acc ++ [fst p]) r
          else if Nat.eqb (code c) 93 then Ok (JArr (acc ++ [fst p]), r)
          else syntax_err
      | [] => syntax_err
      end
  end
with parse_members (fuel : nat) (acc : list (string * jsval)) (l : list ascii)
  : res (jsval * list ascii) :=
  match fuel with
  | O => Outside
  | S f =>
      match skip_ws l with
      | c :: r =>
          if Nat.eqb (code c) 34 then
            pk <- parse_chars r ;;
            let k := string_of_list_ascii (fst pk) in
            match skip_ws (snd pk) with
            | c1 :: r1 =>
                if Nat.eqb (code c1) 58 then
                  pv <- parse_value f r1 ;;
                  match digit_key k with
                  | Some (Some _) => Outside
                  | _ =>
                      let acc' := define_prop acc k (fst pv) in
                      match skip_ws (snd pv) with
                      | c2 :: r2 =>
                          if Nat.eqb (code c2) 44 then parse_members f acc' r2
                          else if Nat.eqb (code c2) 125 then Ok (JObj acc', r2)
                          else syntax_err
                      | [] => syntax_err
                      end
                  end
                else syntax_err
            | [] => syntax_err
            end
          else syntax_err
      | [] => syntax_err
      end
  end.

(** [JSON.parse(s)]. *)
Definition parse (s : string) : res jsval :=
  let l := list_ascii_of_string s in
  p <- parse_value (2 * List.length l + 2) l ;;
  match skip_ws (snd p) with
  | [] => Ok (fst p)
  | _ => syntax_err
  end.

End Json.

(** * [src/packages/playwright-decorators/src/helpers/api-helper.ts] *)
Module ApiHelper.

(** [ApiRequestOptions]; a JS object used as a record map is an association
    list in the object's property order. *)
Record body_assertion : Type := mkAssertion {
  assertion : string;
  value : jsval                     (* [value?: any]; absent is [JUndefined] *)
}.

Record expect_opts : Type := mkExpect {
  exp_status : option Z;
  exp_body : option (list (string * body_assertion));
  exp_schema : option jsval
}.

Record ApiRequestOptions : Type := mkOptions {
  method : string;
  path : string;
  pathParams : option (list (string * jsval));
  queryParams : option (list (string * jsval));
  headers : option (list (string * string));
  body : option jsval;
  expect : option expect_opts
}.

(** [Object.entries(m).forEach(f)] with an accumulator; a throw stops it. *)
Fixpoint fold_res {A B : Type} (f : A -> B -> res A) (acc : A) (l : list B) : res A :=
  match l with
  | [] => Ok acc
  | x :: r => acc' <- f acc x ;; fold_res f acc' r
  end.

(** ** [getValueByPath] *)

Fixpoint walk (current : jsval) (parts : list string) : res jsval :=
  match parts with
  | [] => Ok current
  | part :: rest =>
      match current with
      | JNull | JUndefined => Ok JUndefined
      | _ => next <- js_get current part ;; walk next rest
      end
  end.

Definition getValueByPath (obj : jsval) (path : string) : res jsval :=
  walk obj (split_dot path).

(** ** Path parameters *)

(** The atoms of a pattern with no quantifier, group or class. *)
Inductive re_atom : Type :=
| ALit (c : ascii)
| AAny.

Definition syntax_chars : list ascii := list_ascii_of_string "^$\.*+?()[]{}|".

Definition is_syntax_char (c : ascii) : bool := existsb (Ascii.eqb c) syntax_chars.

(** [new RegExp(`\\{${key}\\}`, 'g')]: the source is [\{], the key read as
    pattern text, then [\}].  Covered: keys whose characters are pattern
    characters or [.]; and keys with a [(] whose other characters are
    pattern characters, [.] or [(]: an unterminated group, V8's SyntaxError
    [Invalid regular expression: /\{key\}/g: Unterminated group].  Other
    keys are not covered. *)
Definition compile_key (key : string) : res (list re_atom) :=
  let cs := list_ascii_of_string key in
  if forallb (fun c => negb (is_syntax_char c) || Ascii.eqb c ".") cs then
    Ok ([ALit "{"] ++ map (fun c => if Ascii.eqb c "." then AAny else ALit c) cs ++ [ALit "}"])%list
  else if existsb (Ascii.eqb "(") cs &&
          forallb (fun c => negb (is_syntax_char c) || Ascii.eqb c "." || Ascii.eqb c "(") cs
  then Throw (SyntaxError ("Invalid regular expression: /" ++
                           String Json.bsl ("{" ++ key ++ String Json.bsl "}/g: Unterminated group")))
  else Outside.

(** [.] matches every code unit but the line terminators LF and CR. *)
Definition atom_matches (a : re_atom) (c : ascii) : bool :=
  match a with
  | ALit d => Ascii.eqb c d
  | AAny => negb (Nat.eqb (code c) 10 || Nat.eqb (code c) 13)
  end.

(** A match of the pattern at the head of [l]: (matched text, rest). *)
Fixpoint match_prefix (re : list re_atom) (l : list ascii) : option (list ascii * list ascii) :=
  match re, l with
  | [], _ => Some ([], l)
  | a :: re', c :: l' =>
      if atom_matches a c then
        match match_prefix re' l' with
        | Some (m, rest) => Some (c :: m, rest)
        | None => None
        end
      else None
  | _ :: _, [] => None
  end.

(** GetSubstitution for a pattern without capture groups: [$$], [$&],
    [$`] and [$'] are special, every other [$] is literal. *)
Fixpoint get_substitution (matched before after tpl : list ascii) : list ascii :=
  match tpl with
  | [] => []
  | c :: r =>
      if Ascii.eqb c "$" then
        match r with
        | d :: r' =>
            if Ascii.eqb d "$" then c :: get_substitution matched before after r'
            else if Ascii.eqb d "&" then (matched ++ get_substitution matched before after r')%list
            else if Ascii.eqb d "`" then (before ++ get_substitution matched before after r')%list
            else if Ascii.eqb d "'" then (after ++ get_substitution matched before after r')%list
            else c :: get_substitution matched before after r
        | [] => [c]
        end
      else c :: get_substitution matched before after r
  end.

(** [str.replace(regex, replacement)] for a global regex: [before] is the
    text of [str] in front of [l]. *)
Fixpoint replace_go (fuel : nat) (re : list re_atom) (tpl before l : list ascii) : list ascii :=
  match fuel with
  | O => l
  | S f =>
      match l with
      | [] => []
      | c :: l' =>
          match match_prefix re l with
          | Some (m, rest) =>
              (get_substitution m before rest tpl ++ replace_go f re tpl (before ++ m) rest)%list
          | None => c :: replace_go f re tpl (before ++ [c])%list l'
          end
      end
  end.

Definition replace_all (re : list re_atom) (str tpl : string) : string :=
  let l := list_ascii_of_string str in
  string_of_list_ascii (replace_go (S (List.length l)) re (list_ascii_of_string tpl) [] l).

(** One iteration of the [pathParams] loop. *)
Definition substitute_param (url : string) (kv : string * jsval) : res string :=
  let '(key, v) := kv in
  let placeholder := "{" ++ key ++ "}" in
  regex <- compile_key key ;;
  if includes url placeholder then
    s <- js_to_string v ;;
    Ok (replace_all regex url s)
  else Ok url.

Definition process_path (path : string) (pathParams : option (list (string * jsval)))
  : res string :=
  match pathParams with
  | Some ps => fold_res substitute_param path ps
  | None => Ok path
  end.

(** ** Query parameters *)

(** The application/x-www-form-urlencoded serializer on the UTF-8 bytes of
    a code unit. *)
Definition utf8_bytes (c : ascii) : list nat :=
  let n := code c in
  if Nat.ltb n 128 then [n] else [192 + n / 64; 128 + n mod 64].

Definition hex_upper (n : nat) : ascii :=
  ascii_of_nat (if Nat.ltb n 10 then 48 + n else 55 + n).

Definition form_encode_byte (b : nat) : string :=
  if Nat.eqb b 32 then "+"
  else if Nat.eqb b 42 || Nat.eqb b 45 || Nat.eqb b 46 || Nat.eqb b 95 ||
          (Nat.leb 48 b && Nat.leb b 57) || (Nat.leb 65 b && Nat.leb b 90) ||
          (Nat.leb 97 b && Nat.leb b 122)
  then String (ascii_of_nat b) EmptyString
  else String "%" (String (hex_upper (b / 16)) (String (hex_upper (b mod 16)) EmptyString)).

Fixpoint form_encode (s : string) : string :=
  match s with
  | EmptyString => EmptyString
  | String c r => String.concat "" (map form_encode_byte (utf8_bytes c)) ++ form_encode r
  end.

(** [searchParams.toString()]. *)
Definition search_params_to_string (sp : list (string * string)) : string :=
  String.concat "&" (map (fun '(k, v) => form_encode k ++ "=" ++ form_encode v) sp).

(** One iteration of the [queryParams] loop, [searchParams.append]. *)
Definition append_param (sp : list (string * string)) (kv : string * jsval)
  : res (list (string * string)) :=
  let '(key, v) := kv in
  match v with
  | JArr xs => fold_res (fun sp x => s <- js_to_string x ;; Ok (sp ++ [(key, s)])%list) sp xs
  | _ => s <- js_to_string v ;; Ok (sp ++ [(key, s)])%list
  end.

Definition add_query (url : string) (queryParams : option (list (string * jsval))) : res string :=
  match queryParams with
  | Some qp =>
      sp <- fold_res append_param [] qp ;;
      let queryString := search_params_to_string sp in
      if negb (queryString =? "")
      then Ok (url ++ (if includes url "?" then "&" else "?") ++ queryString)
      else Ok url
  | None => Ok url
  end.

(** ** Request options and body *)

Record request_options : Type := mkRequestOptions {
  ro_headers : list (string * string);
  ro_data : option jsval
}.

Definition header_truthy (hs : list (string * string)) (k : string) : bool :=
  match assoc k hs with
  | Some v => negb (v =? "")
  | None => false
  end.

(** [headers[k] = v]. *)
Fixpoint set_header (hs : list (string * string)) (k v : string) : list (string * string) :=
  match hs with
  | [] => [(k, v)]
  | (k', v') :: r => if k =? k' then (k, v) :: r else (k', v') :: set_header r k v
  end.

(** [requestOptions] after the headers and the body are added.  (In the
    source, [headers] is the caller's object, so the added Content-Type
    also lands in the caller's header map.) *)
Definition build_request_options (o : ApiRequestOptions) : res request_options :=
  let hs := match headers o with Some h => h | None => [] end in
  match body o with
  | Some b =>
      if truthy b then
        match b with
        | JStr s => Ok (mkRequestOptions hs (Some (JStr s)))
        | _ =>
            so <- Json.stringify b ;;
            let hs' :=
              if negb (header_truthy hs "content-type") && negb (header_truthy hs "Content-Type")
              then set_header hs "Content-Type" "application/json" else hs in
            Ok (mkRequestOptions hs' (option_map JStr so))
        end
      else Ok (mkRequestOptions hs None)
  | None => Ok (mkRequestOptions hs None)
  end.

Record playwright_options : Type := mkPlaywrightOptions {
  po_headers : list (string * string);
  po_data : option jsval
}.

(** [headers[k]?.includes('application/json')]. *)
Definition header_has_json (hs : list (string * string)) (k : string) : bool :=
  match assoc k hs with
  | Some v => includes v "application/json"
  | None => false
  end.

(** [playwrightOptions]: a string body under a JSON content type is parsed,
    and kept as it is when [JSON.parse] throws. *)
Definition to_playwright_options (ro : request_options) : res playwright_options :=
  let hs := ro_headers ro in
  match ro_data ro with
  | Some d =>
      if truthy d then
        if header_has_json hs "Content-Type" || header_has_json hs "content-type" then
          match d with
          | JStr s =>
              match Json.parse s with
              | Ok v => Ok (mkPlaywrightOptions hs (Some v))
              | Throw _ => Ok (mkPlaywrightOptions hs (Some d))
              | Outside => Outside
              end
          | _ => Ok (mkPlaywrightOptions hs (Some d))
          end
        else Ok (mkPlaywrightOptions hs (Some d))
      else Ok (mkPlaywrightOptions hs None)
  | None => Ok (mkPlaywrightOptions hs None)
  end.

End ApiHelper.

(** ** Dispatch and expectations *)
Module Engine.
Import ApiHelper.

(** [response.status()] and the outcome of [await response.json()]. *)
Record response : Type := mkResponse {
  r_status : Z;
  r_json : res jsval
}.

(** One call [request.<verb>(url, playwrightOptions)] made on the transport. *)
Record tcall : Type := mkCall {
  tc_verb : string;
  tc_url : string;
  tc_options : playwright_options
}.

(** The engine's effects: the log of transport calls, and the outcome. *)
Definition M (A : Type) : Type := list tcall -> res A * list tcall.

Definition ret {A : Type} (a : A) : M A := fun log => (Ok a, log).

Definition lift {A : Type} (r : res A) : M A := fun log => (r, log).

Definition mbind {A B : Type} (m : M A) (k : A -> M B) : M B :=
  fun log =>
    let (r, log') := m log in
    match r with
    | Ok a => k a log'
    | Throw e => (Throw e, log')
    | Outside => (Outside, log')
    end.

Notation "x <-- m ;; k" := (mbind m (fun x => k))
  (at level 61, m at next level, right associativity).

(** Jest's [equals] as [toEqual] uses it: [Object.is] on primitives,
    arrays element by element, objects by own keys whose value is not
    [undefined]. *)
Fixpoint jest_equals (a b : jsval) : res bool :=
  match a, b with
  | JFun _, _ | JProto _, _ | _, JFun _ | _, JProto _ => Outside
  | JUndefined, JUndefined | JNull, JNull => Ok true
  | JBool x, JBool y => Ok (Bool.eqb x y)
  | JNum x, JNum y => Ok (x =? y)%Z
  | JStr x, JStr y => Ok (x =? y)
  | JArr xs, JArr ys =>
      let fix elts (xs ys : list jsval) : res bool :=
        match xs, ys with
        | [], [] => Ok true
        | x :: xs', y :: ys' =>
            e <- jest_equals x y ;; if e then elts xs' ys' else Ok false
        | _, _ => Ok false
        end in
      elts xs ys
  | JObj ps, JObj qs =>
      let defined (kv : string * jsval) := match snd kv with JUndefined => false | _ => true end in
      let fix mems (ps : list (string * jsval)) : res bool :=
        match ps with
        | [] => Ok true
        | (k, x) :: r =>
            match x with
            | JUndefined => mems r
            | _ =>
                match assoc k qs with
                | Some y => e <- jest_equals x y ;; if e then mems r else Ok false
                | None => Ok false
                end
            end
        end in
      if Nat.eqb (List.length (filter defined ps)) (List.length (filter defined qs))
      then mems ps else Ok false
  | _, _ => Ok false
  end.

(** [===] between a parsed value and the declared one: parsed arrays and
    objects are fresh, so never identical to a declared object. *)
Definition strict_equals (x y : jsval) : res bool :=
  match x, y with
  | JFun _, _ | JProto _, _ | _, JFun _ | _, JProto _ => Outside
  | JArr _, _ | JObj _, _ => Ok false
  | _, _ => jest_equals x y
  end.

Fixpoint any_res (f : jsval -> res bool) (xs : list jsval) : res bool :=
  match xs with
  | [] => Ok false
  | x :: r => b <- f x ;; if b then Ok true else any_res f r
  end.

(** [expect(received).toContain(expected)]. *)
Definition to_contain (received expected : jsval) : res bool :=
  match received with
  | JUndefined | JNull => Throw (AssertionError "toContain: received value must not be null nor undefined")
  | JStr s =>
      match expected with
      | JStr t => Ok (includes s t)
      | _ => Throw (AssertionError "toContain: expected value must be a string if received value is a string")
      end
  | JArr xs => any_res (strict_equals expected) xs
  | _ => Outside
  end.

(** The body of the [Object.entries(options.expect.body).forEach] callback. *)
Definition check_body_assertion (responseBody : jsval) (pa : string * body_assertion) : res unit :=
  let '(p, a) := pa in
  v <- getValueByPath responseBody p ;;
  if assertion a =? "toBeDefined" then
    match v with
    | JUndefined => Throw (AssertionError "toBeDefined")
    | _ => Ok tt
    end
  else if assertion a =? "toEqual" then
    e <- jest_equals v (value a) ;;
    if e then Ok tt else Throw (AssertionError "toEqual")
  else if assertion a =? "toContain" then
    e <- to_contain v (value a) ;;
    if e then Ok tt else Throw (AssertionError "toContain")
  else Throw (Error ("Unsupported assertion: " ++ assertion a)).

(** The [if (options.expect)] block; the schema check is a placeholder. *)
Definition check_expectations (ex : expect_opts) (resp : response) : res unit :=
  _ <- match exp_status ex with
       | Some s =>
           if negb (s =? 0)%Z then
             if (r_status resp =? s)%Z then Ok tt else Throw (AssertionError "toBe")
           else Ok tt
       | None => Ok tt
       end ;;
  match exp_body ex with
  | Some bs =>
      responseBody <- r_json resp ;;
      fold_res (fun _ pa => check_body_assertion responseBody pa) tt bs
  | None => Ok tt
  end.

Definition supported_methods : list string :=
  ["get"; "post"; "put"; "delete"; "patch"; "head"].

Section Transport.

(** The Playwright request context: [request.<verb>(url, options)]. *)
Variable transport : string -> string -> playwright_options -> res response.

Definition call_transport (verb url : string) (po : playwright_options) : M response :=
  fun log => (transport verb url po, log ++ [mkCall verb url po])%list.

(** The [switch (method)]. *)
Definition dispatch (method original url : string) (po : playwright_options) : M response :=
  if method =? "get" then call_transport "get" url po
  else if method =? "post" then call_transport "post" url po
  else if method =? "put" then call_transport "put" url po
  else if method =? "delete" then call_transport "delete" url po
  else if method =? "patch" then call_transport "patch" url po
  else if method =? "head" then call_transport "head" url po
  else lift (Throw (Error ("Unsupported HTTP method: " ++ original))).

(** [processApiRequest(request, options)]; the [catch] block logs and
    rethrows, so it is the identity on outcomes. *)
Definition processApiRequest (options : ApiRequestOptions) : M response :=
  url <-- lift (process_path (path options) (pathParams options)) ;;
  url <-- lift (add_query url (queryParams options)) ;;
  ro <-- lift (build_request_options options) ;;
  let m := toLowerCase (method options) in
  po <-- lift (to_playwright_options ro) ;;
  resp <-- dispatch m (method options) url po ;;
  _ <-- lift match expect options with
             | Some ex => check_expectations ex resp
             | None => Ok tt
             end ;;
  ret resp.

(** A run from an empty call log. *)
Definition run (options : ApiRequestOptions) : res response * list tcall :=
  processApiRequest options [].

End Transport.

End Engine.

(** * [MetadataStorage] ([src/unnamed/part_009]), [ExpectStatus] and the
      retrieval of a test's API options in [suite] *)
Module Registry.
Import ApiHelper.

Inductive mtype : Type := MSuite | MTest | MHook.

(** Keys of the storage [Map]: functions (and classes) with their [name],
    string and symbol property keys, other objects with their [name]
    property when it is a string ([typeof key.name === 'string']). *)
Inductive token : Type :=
| TFun (id : nat) (fname : string)
| TStr (key : string)
| TSym (id : nat) (descr : string)
| TObj (id : nat) (oname : option string).

Definition token_eq_dec (a b : token) : {a = b} + {a <> b}.
Proof.
  decide equality;
    first [apply Nat.eq_dec | apply string_dec | decide equality; apply string_dec].
Defined.

Definition token_eqb (a b : token) : bool := if token_eq_dec a b then true else false.

(** [options.api] of a test: every field may be absent. *)
Record api_fragment : Type := mkFragment {
  api_method : option string;
  api_path : option string;
  api_pathParams : option (list (string * jsval));
  api_queryParams : option (list (string * jsval));
  api_headers : option (list (string * string));
  api_body : option jsval;
  api_expect : option expect_opts
}.

Record options : Type := mkMetaOptions {
  api : option api_fragment;
  only : option bool;
  skip : option bool;
  slow : option bool;
  tags : option (list string)
}.

(** [DecoratorMetadata]. *)
Record metadata : Type := mkMetadata {
  type : mtype;
  name : string;
  moptions : options
}.

(** The [Map<any, DecoratorMetadata>], in insertion order. *)
Definition storage : Type := list (token * metadata).

(** [store]: [Map.prototype.set]; a key already present keeps its place. *)
Fixpoint store (s : storage) (t : token) (m : metadata) : storage :=
  match s with
  | [] => [(t, m)]
  | (t', m') :: r => if token_eqb t t' then (t, m) :: r else (t', m') :: store r t m
  end.

Fixpoint get (s : storage) (t : token) : option metadata :=
  match s with
  | [] => None
  | (t', m) :: r => if token_eqb t t' then Some m else get r t
  end.

Definition has (s : storage) (t : token) : bool :=
  match get s t with Some _ => true | None => false end.

Definition getAll (s : storage) : list (token * metadata) := s.

Definition empty_options : options := mkMetaOptions None None None None None.

Definition empty_fragment : api_fragment := mkFragment None None None None None None None.

Definition empty_expect : expect_opts := mkExpect None None None.

(** [ExpectStatus(status)] applied with a descriptor: read the method's
    record (or a fresh test record), create [api] and [api.expect] if
    absent, set [api.expect.status], store it back under the method. *)
Definition ExpectStatus (status : Z) (s : storage) (originalMethod : token) (propertyKey : string)
  : storage :=
  let md := match get s originalMethod with
            | Some m => m
            | None => mkMetadata MTest propertyKey empty_options
            end in
  let o := moptions md in
  let a := match api o with Some a => a | None => empty_fragment end in
  let ex := match api_expect a with Some e => e | None => empty_expect end in
  let ex' := mkExpect (Some status) (exp_body ex) (exp_schema ex) in
  let a' := mkFragment (api_method a) (api_path a) (api_pathParams a) (api_queryParams a)
                       (api_headers a) (api_body a) (Some ex') in
  let o' := mkMetaOptions (Some a') (only o) (skip o) (slow o) (tags o) in
  store s originalMethod (mkMetadata (type md) (name md) o').

(** [String(key)] for a property-key token. *)
Definition key_string (t : token) : option string :=
  match t with
  | TStr k => Some k
  | TSym _ d => Some ("Symbol(" ++ d ++ ")")
  | _ => None
  end.

(** Strategy 3a: the first entry keyed by the property name with an [api]. *)
Fixpoint find_by_key (entries : list (token * metadata)) (methodName : string)
  : option api_fragment :=
  match entries with
  | [] => None
  | (t, m) :: r =>
      match key_string t, api (moptions m) with
      | Some k, Some a => if k =? methodName then Some a else find_by_key r methodName
      | _, _ => find_by_key r methodName
      end
  end.

(** Strategy 3b: the first entry keyed by a function, or by an object
    whose [name] is a string, of that name, with an [api]. *)
Fixpoint find_by_function_name (entries : list (token * metadata)) (methodName : string)
  : option api_fragment :=
  match entries with
  | [] => None
  | (t, m) :: r =>
      match t, api (moptions m) with
      | TFun _ n, Some a | TObj _ (Some n), Some a =>
          if n =? methodName then Some a else find_by_function_name r methodName
      | _, _ => find_by_function_name r methodName
      end
  end.

Definition api_of (s : storage) (t : token) : option api_fragment :=
  match get s t with
  | Some m => api (moptions m)
  | None => None
  end.


(** The retrieval of [apiOptions] for a regular test (suite.decorator.ts
    lines 207-266): the method function's record, the registered
    [testOptions], the property key, the function name, the prototype
    method ([target.prototype[methodName]], the same function). *)
Definition resolve_api (s : storage) (testOptions : options) (methodName : string)
  (methodFn : token) : option api_fragment :=
  match api_of s methodFn with
  | Some a => Some a
  | None =>
      match api testOptions with
      | Some a => Some a
      | None =>
          match find_by_key (getAll s) methodName with
          | Some a => Some a
          | None =>
              match find_by_function_name (getAll s) methodName with
              | Some a => Some a
              | None => api_of s methodFn
              end
          end
      end
  end.


(** [apiOptions && apiOptions.method && apiOptions.path]: the options
    passed to [processApiRequest]. *)
Definition api_request (a : api_fragment) : option ApiRequestOptions :=
  match api_method a, api_path a with
  | Some m, Some p =>
      if negb (m =? "") && negb (p =? "") then
        Some (mkOptions m p (api_pathParams a) (api_queryParams a) (api_headers a)
                        (api_body a) (api_expect a))
      else None
  | _, _ => None
  end.

End Registry.

(** * Statements: reference definitions and concrete inputs *)
Module Scenarios.
Import ApiHelper Engine Registry.

(** [store] calls replayed from an empty storage, in order. *)
Definition replay (ops : list (token * metadata)) : storage :=
  fold_left (fun s tm => store s (fst tm) (snd tm)) ops [].

(** Tokens in the order of their first [store]. *)
Definition insertion_order (ts : list token) : list token :=
  fold_left (fun acc t => if existsb (token_eqb t) acc then acc else (acc ++ [t])%list) ts [].

(** The record of the last [store] under [t], if any. *)
Definition last_stored (t : token) (ops : list (token * metadata)) : option metadata :=
  fold_left (fun acc tm => if token_eqb t (fst tm) then Some (snd tm) else acc) ops None.







(** A path whose key contains [.], and a placeholder with no key. *)
Definition c2_path : string := "/{a.}/{ab}".

Definition c2_params : list (string * jsval) := [("a.", JNum 7)].

(** A transport answering every call with status 200 and a JSON object. *)
Definition stub_transport (verb url : string) (po : playwright_options) : res response :=
  Ok (mkResponse 200 (Ok (JObj [("id", JNum 1); ("tags", JArr [JStr "x"; JStr "y"])]))).

Definition simple_options (m p : string) : ApiRequestOptions :=
  mkOptions m p None None None None None.

(** An unsupported verb with a path parameter whose key is [(]. *)
Definition c3_options : ApiRequestOptions :=
  mkOptions "TRACE" "/x" (Some [("(", JNum 1)]) None None None None.

(** A string body under a JSON content type. *)
Definition c4_options : ApiRequestOptions :=
  mkOptions "POST" "/x" None None (Some [("Content-Type", "application/json")])
            (Some (JStr "[1,2]")) None.

(** An object body with the content type spelled [CONTENT-TYPE]. *)
Definition c5_options : ApiRequestOptions :=
  mkOptions "POST" "/x" None None (Some [("CONTENT-TYPE", "text/plain")])
            (Some (JObj [("a", JNum 1)])) None.

(** The pairs [searchParams] receives: one per array element, in order,
    one per scalar value. *)
Fixpoint map_res {A B : Type} (f : A -> res B) (l : list A) : res (list B) :=
  match l with
  | [] => Ok []
  | x :: r => y <- f x ;; ys <- map_res f r ;; Ok (y :: ys)
  end.

Definition entry_pairs (kv : string * jsval) : res (list (string * string)) :=
  let '(k, v) := kv in
  match v with
  | JArr xs => map_res (fun x => s <- js_to_string x ;; Ok (k, s)) xs
  | _ => s <- js_to_string v ;; Ok [(k, s)]
  end.

Definition query_pairs (qp : list (string * jsval)) : res (list (string * string)) :=
  ps <- map_res entry_pairs qp ;; Ok (List.concat ps).

(** A body expectation whose extraction path reaches a poison-pill accessor. *)
Definition c8_options : ApiRequestOptions :=
  mkOptions "GET" "/x" None None None None
            (Some (mkExpect None (Some [("toString.caller", mkAssertion "bogus" JUndefined)]) None)).

(** A body expectation of an unknown kind after a passing one. *)
Definition c8_witness_options : ApiRequestOptions :=
  mkOptions "GET" "/x" None None None None
            (Some (mkExpect (Some 200%Z)
                     (Some [("id", mkAssertion "toBeDefined" JUndefined);
                            ("tags", mkAssertion "toMatch" (JStr "x"))]) None)).

Definition with_method (o : ApiRequestOptions) (m : string) : ApiRequestOptions :=
  mkOptions m (path o) (pathParams o) (queryParams o) (headers o) (body o) (expect o).

(** The stages of [processApiRequest] before the [switch]: the URL and
    the Playwright options. *)
Definition prepared (o : ApiRequestOptions) : res (string * playwright_options) :=
  u <- process_path (path o) (pathParams o) ;;
  url <- add_query u (queryParams o) ;;
  ro <- build_request_options o ;;
  po <- to_playwright_options ro ;;
  Ok (url, po).

Definition expectations_of (o : ApiRequestOptions) (resp : response) : res unit :=
  match expect o with
  | Some ex => check_expectations ex resp
  | None => Ok tt
  end.

(** [options.headers || {}]. *)
Definition header_map (o : ApiRequestOptions) : list (string * string) :=
  match headers o with Some h => h | None => [] end.

(** An array body with a lower-case content type given by the caller. *)
Definition c5_witness_options : ApiRequestOptions :=
  mkOptions "POST" "/x" None None (Some [("content-type", "text/plain")])
            (Some (JArr [JNum 1; JNum 2])) None.

End Scenarios.

(** * The decorators that write the registry, over a heap of shared objects

    The decorators keep a [DecoratorMetadata] object per key and mutate
    it, and the objects below it, in place; one object can be stored under
    several keys.  The heap holds these objects by shape; a [loc] is an
    object reference.  The [Map] maps keys to references to metadata
    objects. *)
Module Decorators.
Import Js ApiHelper Registry.

Definition loc : Type := nat.

(** A property key of a method: a string or a symbol. *)
Inductive pkey : Type :=
| PStr (k : string)
| PSym (id : nat) (descr : string).

Definition pkey_token (k : pkey) : token :=
  match k with PStr s => TStr s | PSym i d => TSym i d end.

(** [String(propertyKey)] (also [propertyKey.toString()]). *)
Definition pkey_string (k : pkey) : string :=
  match k with PStr s => s | PSym _ d => "Symbol(" ++ d ++ ")" end.

(** [if (propertyKey)]: the empty string is falsy, a symbol is truthy. *)
Definition pkey_truthy (k : pkey) : bool :=
  match k with PStr s => negb (s =? "") | PSym _ _ => true end.

(** [{type, name, options}]; [options] is a reference. *)
Record meta_obj : Type := mkMetaObj {
  m_type : mtype;
  m_name : string;
  m_options : loc
}.

(** An options object: the properties the decorators write and the
    suite reads ([undefined] and absent are both [None]). *)
Record opts_obj : Type := mkOptsObj {
  o_name : option string;
  o_api : option loc;
  o_only : option bool;
  o_skip : option bool;
  o_skipReason : option string;
  o_slow : option bool;
  o_slowReason : option string;
  o_tags : option (list string);
  o_hasApiTests : option bool
}.

(** [options.api]; [expect] is a reference. *)
Record api_obj : Type := mkApiObj {
  a_method : option string;
  a_path : option string;
  a_pathParams : option (list (string * jsval));
  a_queryParams : option (list (string * jsval));
  a_headers : option (list (string * string));
  a_body : option jsval;
  a_expect : option loc
}.

(** [options.api.expect]; [body] is a reference. *)
Record exp_obj : Type := mkExpObj {
  e_status : option Z;
  e_body : option loc;
  e_schema : option jsval
}.

Inductive obj : Type :=
| OMeta (m : meta_obj)
| OOpts (o : opts_obj)
| OApi (a : api_obj)
| OExp (e : exp_obj)
| OBody (b : list (string * body_assertion)).   (* [expect.body], in property order *)

Definition heap : Type := list obj.

(** The [Map<any, DecoratorMetadata>] in insertion order, and the heap. *)
Record st : Type := mkSt {
  entries : list (token * loc);
  hp : heap
}.

Definition empty_st : st := mkSt [] [].

Definition empty_opts : opts_obj := mkOptsObj None None None None None None None None None.

Definition empty_api : api_obj := mkApiObj None None None None None None None.

Definition empty_exp : exp_obj := mkExpObj None None None.

Definition opts_with_api (o : opts_obj) (a : option loc) : opts_obj :=
  mkOptsObj (o_name o) a (o_only o) (o_skip o) (o_skipReason o) (o_slow o)
            (o_slowReason o) (o_tags o) (o_hasApiTests o).

Definition api_with_method (a : api_obj) (v : option string) : api_obj :=
  mkApiObj v (a_path a) (a_pathParams a) (a_queryParams a) (a_headers a) (a_body a) (a_expect a).

Definition api_with_path (a : api_obj) (v : option string) : api_obj :=
  mkApiObj (a_method a) v (a_pathParams a) (a_queryParams a) (a_headers a) (a_body a) (a_expect a).

Definition api_with_pathParams (a : api_obj) (v : option (list (string * jsval))) : api_obj :=
  mkApiObj (a_method a) (a_path a) v (a_queryParams a) (a_headers a) (a_body a) (a_expect a).

Definition api_with_queryParams (a : api_obj) (v : option (list (string * jsval))) : api_obj :=
  mkApiObj (a_method a) (a_path a) (a_pathParams a) v (a_headers a) (a_body a) (a_expect a).

Definition api_with_headers (a : api_obj) (v : option (list (string * string))) : api_obj :=
  mkApiObj (a_method a) (a_path a) (a_pathParams a) (a_queryParams a) v (a_body a) (a_expect a).

Definition api_with_body (a : api_obj) (v : option jsval) : api_obj :=
  mkApiObj (a_method a) (a_path a) (a_pathParams a) (a_queryParams a) (a_headers a) v (a_expect a).

Definition api_with_expect (a : api_obj) (v : option loc) : api_obj :=
  mkApiObj (a_method a) (a_path a) (a_pathParams a) (a_queryParams a) (a_headers a) (a_body a) v.

(** [Map.prototype.set] and [get] on the references. *)
Fixpoint map_set (m : list (token * loc)) (t : token) (l : loc) : list (token * loc) :=
  match m with
  | [] => [(t, l)]
  | (t', l') :: r => if token_eqb t t' then (t, l) :: r else (t', l') :: map_set r t l
  end.

Fixpoint map_get (m : list (token * loc)) (t : token) : option loc :=
  match m with
  | [] => None
  | (t', l) :: r => if token_eqb t t' then Some l else map_get r t
  end.

Fixpoint upd (h : heap) (l : loc) (o : obj) : heap :=
  match h, l with
  | [], _ => []
  | _ :: r, O => o :: r
  | x :: r, S l' => x :: upd r l' o
  end.

(** Decoration steps; [None] marks a reference to a missing object or to
    an object of another shape, which no decorator creates. *)
Definition SM (A : Type) : Type := st -> option (A * st).

Definition sret {A : Type} (a : A) : SM A := fun s => Some (a, s).

Definition sbind {A B : Type} (m : SM A) (k : A -> SM B) : SM B :=
  fun s => match m s with Some (a, s') => k a s' | None => None end.

Notation "x <~ m ;; k" := (sbind m (fun x => k))
  (at level 61, m at next level, right associativity).

(** An object literal: a new object at the end of the heap. *)
Definition alloc (o : obj) : SM loc :=
  fun s => Some (List.length (hp s), mkSt (entries s) ((hp s ++ [o])%list)).

(** An assignment to a property: the object at [l] is replaced. *)
Definition write (l : loc) (o : obj) : SM unit :=
  fun s => match nth_error (hp s) l with
           | Some _ => Some (tt, mkSt (entries s) (upd (hp s) l o))
           | None => None
           end.

Definition read_meta (l : loc) : SM meta_obj :=
  fun s => match nth_error (hp s) l with Some (OMeta m) => Some (m, s) | _ => None end.

Definition read_opts (l : loc) : SM opts_obj :=
  fun s => match nth_error (hp s) l with Some (OOpts o) => Some (o, s) | _ => None end.

Definition read_api (l : loc) : SM api_obj :=
  fun s => match nth_error (hp s) l with Some (OApi a) => Some (a, s) | _ => None end.

Definition read_exp (l : loc) : SM exp_obj :=
  fun s => match nth_error (hp s) l with Some (OExp e) => Some (e, s) | _ => None end.

Definition read_body (l : loc) : SM (list (string * body_assertion)) :=
  fun s => match nth_error (hp s) l with Some (OBody b) => Some (b, s) | _ => None end.

(** [getMetadataStorage().get(t)] and [.store(t, metadata)]. *)
Definition mget (t : token) : SM (option loc) := fun s => Some (map_get (entries s) t, s).

Definition mstore (t : token) (l : loc) : SM unit :=
  fun s => Some (tt, mkSt (map_set (entries s) t l) (hp s)).

(** A method decorator applied in a class body under
    [experimentalDecorators]: [target] is the class prototype,
    [target.constructor] the class, [descriptor.value] the method function.
    While the class is decorated, [target.constructor.prototype[propertyKey]]
    is that same function (no decorator here replaces [descriptor.value]). *)
Record site : Type := mkSite {
  proto_id : nat;
  cls_id : nat;
  cls_name : string;
  key : pkey;
  fn_id : nat;
  fn_name : string
}.

(** The class prototype: an object with no string [name] (the class
    declares no [name] accessor). *)
Definition proto (x : site) : token := TObj (proto_id x) None.

Definition cls (x : site) : token := TFun (cls_id x) (cls_name x).

Definition fn (x : site) : token := TFun (fn_id x) (fn_name x).

(** [getMetadataStorage().get(originalMethod) || {type: 'test', name, options: {}}]. *)
Definition get_or_new (t : token) (nm : string) : SM loc :=
  r <~ mget t ;;
  match r with
  | Some l => sret l
  | None => lo <~ alloc (OOpts empty_opts) ;; alloc (OMeta (mkMetaObj MTest nm lo))
  end.

(** [if (!metadata.options.api) metadata.options.api = {};], then [metadata.options.api]. *)
Definition ensure_api (lm : loc) : SM loc :=
  m <~ read_meta lm ;;
  o <~ read_opts (m_options m) ;;
  match o_api o with
  | Some la => sret la
  | None =>
      la <~ alloc (OApi empty_api) ;;
      _ <~ write (m_options m) (OOpts (opts_with_api o (Some la))) ;;
      sret la
  end.

(** [if (!metadata.options.api.expect) metadata.options.api.expect = {};]. *)
Definition ensure_expect (la : loc) : SM loc :=
  a <~ read_api la ;;
  match a_expect a with
  | Some le => sret le
  | None =>
      le <~ alloc (OExp empty_exp) ;;
      _ <~ write la (OApi (api_with_expect a (Some le))) ;;
      sret le
  end.

(** [if (!metadata.options.api.expect.body) metadata.options.api.expect.body = {};]. *)
Definition ensure_body (le : loc) : SM loc :=
  e <~ read_exp le ;;
  match e_body e with
  | Some lb => sret lb
  | None =>
      lb <~ alloc (OBody []) ;;
      _ <~ write le (OExp (mkExpObj (e_status e) (Some lb) (e_schema e))) ;;
      sret lb
  end.

(** [metadata.options.api.<field> = v]. *)
Definition set_api (f : api_obj -> api_obj) (la : loc) : SM unit :=
  a <~ read_api la ;;
  write la (OApi (f a)).

(** An array index: the canonical decimal form of an integer below 2^32 - 1. *)
Definition array_index (k : string) : option Z :=
  match digit_key k with
  | Some (Some n) => if (n <? 4294967295)%Z then Some n else None
  | _ => None
  end.

Fixpoint insert_index (ps : list (string * body_assertion)) (k : string) (n : Z)
  (v : body_assertion) : list (string * body_assertion) :=
  match ps with
  | [] => [(k, v)]
  | (k', v') :: r =>
      match array_index k' with
      | Some n' => if (n <? n')%Z then (k, v) :: ps else (k', v') :: insert_index r k n v
      | None => (k, v) :: ps
      end
  end.

(** [o[k] = v] on a plain object, in own-property order: an existing key
    keeps its place; a new array index goes among the array indices, which
    come first in ascending order; any other new key goes last.  The key
    [__proto__] runs the [Object.prototype] setter and creates no own
    property. *)
Definition obj_set (ps : list (string * body_assertion)) (k : string) (v : body_assertion)
  : list (string * body_assertion) :=
  if k =? "__proto__" then ps
  else if existsb (fun kv => fst kv =? k) ps then
    map (fun kv => if fst kv =? k then (k, v) else kv) ps
  else match array_index k with
       | Some n => insert_index ps k n v
       | None => (ps ++ [(k, v)])%list
       end.

Definition when (b : bool) (m : SM unit) : SM unit := if b then m else sret tt.

(** [PathParams(params)] (path-params.decorator.ts), [descriptor] branch. *)
Definition PathParams (params : list (string * jsval)) (x : site) : SM unit :=
  lm <~ get_or_new (fn x) (pkey_string (key x)) ;;
  la <~ ensure_api lm ;;
  _ <~ set_api (fun a => api_with_pathParams a (Some params)) la ;;
  mstore (fn x) lm.

(** [QueryParams(params)] (query-params.decorator.ts), [descriptor] branch. *)
Definition QueryParams (params : list (string * jsval)) (x : site) : SM unit :=
  lm <~ get_or_new (fn x) (pkey_string (key x)) ;;
  la <~ ensure_api lm ;;
  _ <~ set_api (fun a => api_with_queryParams a (Some params)) la ;;
  mstore (fn x) lm.

(** [Headers(headers)] (headers.decorator.ts), [descriptor] branch: the
    same object is also stored under the property key. *)
Definition Headers (hs : list (string * string)) (x : site) : SM unit :=
  lm <~ get_or_new (fn x) (pkey_string (key x)) ;;
  la <~ ensure_api lm ;;
  _ <~ set_api (fun a => api_with_headers a (Some hs)) la ;;
  _ <~ mstore (fn x) lm ;;
  _ <~ mstore (fn x) lm ;;
  _ <~ when (pkey_truthy (key x)) (mstore (fn x) lm) ;;
  when (pkey_truthy (key x)) (mstore (pkey_token (key x)) lm).

(** [RequestBody(body)] (request-body.decorator.ts), [descriptor] branch. *)
Definition RequestBody (b : jsval) (x : site) : SM unit :=
  lm <~ get_or_new (fn x) (pkey_string (key x)) ;;
  la <~ ensure_api lm ;;
  _ <~ set_api (fun a => api_with_body a (Some b)) la ;;
  _ <~ mstore (fn x) lm ;;
  _ <~ mstore (fn x) lm ;;
  _ <~ when (pkey_truthy (key x)) (mstore (fn x) lm) ;;
  when (pkey_truthy (key x)) (mstore (pkey_token (key x)) lm).

(** [ApiEndpoint(method, path)], the first definition in
    api-endpoint.decorator.ts (lines 30-117), [descriptor] branch: under
    the property key a new record with only [method] and [path]; under the
    class a suite record. *)
Definition ApiEndpoint (method path : string) (x : site) : SM unit :=
  lm <~ get_or_new (fn x) (pkey_string (key x)) ;;
  la <~ ensure_api lm ;;
  _ <~ set_api (fun a => api_with_method a (Some method)) la ;;
  _ <~ set_api (fun a => api_with_path a (Some path)) la ;;
  _ <~ mstore (fn x) lm ;;
  _ <~ mstore (fn x) lm ;;
  _ <~ when (pkey_truthy (key x))
         (_ <~ mstore (fn x) lm ;;
          ka <~ alloc (OApi (api_with_path (api_with_method empty_api (Some method)) (Some path))) ;;
          ko <~ alloc (OOpts (opts_with_api empty_opts (Some ka))) ;;
          km <~ alloc (OMeta (mkMetaObj MTest (pkey_string (key x)) ko)) ;;
          mstore (pkey_token (key x)) km) ;;
  co <~ alloc (OOpts (mkOptsObj None None None None None None None None (Some true))) ;;
  cm <~ alloc (OMeta (mkMetaObj MSuite (cls_name x) co)) ;;
  mstore (cls x) cm.

(** [ApiEndpoint(method, path)], the second definition in
    api-endpoint.decorator.ts (lines 148-196), [descriptor] branch: nothing
    under the property key; a suite record under [target], the prototype. *)
Definition ApiEndpoint_2 (method path : string) (x : site) : SM unit :=
  lm <~ get_or_new (fn x) (pkey_string (key x)) ;;
  la <~ ensure_api lm ;;
  _ <~ set_api (fun a => api_with_method a (Some method)) la ;;
  _ <~ set_api (fun a => api_with_path a (Some path)) la ;;
  _ <~ mstore (fn x) lm ;;
  _ <~ when (pkey_truthy (key x)) (mstore (fn x) lm) ;;
  co <~ alloc (OOpts (mkOptsObj None None None None None None None None (Some true))) ;;
  cm <~ alloc (OMeta (mkMetaObj MSuite (cls_name x) co)) ;;
  mstore (proto x) cm.

(** [ExpectStatus(status)] (expect-status.decorator.ts), [descriptor] branch. *)
Definition ExpectStatus (status : Z) (x : site) : SM unit :=
  lm <~ get_or_new (fn x) (pkey_string (key x)) ;;
  la <~ ensure_api lm ;;
  le <~ ensure_expect la ;;
  e <~ read_exp le ;;
  _ <~ write le (OExp (mkExpObj (Some status) (e_body e) (e_schema e))) ;;
  mstore (fn x) lm.

(** [ExpectBody(path)] (expect-body.decorator.ts), [descriptor] branch of
    its three factories: [metadata.options.api.expect.body[path] = a]. *)
Definition ExpectBody_set (path : string) (ba : body_assertion) (x : site) : SM unit :=
  lm <~ get_or_new (fn x) (pkey_string (key x)) ;;
  la <~ ensure_api lm ;;
  le <~ ensure_expect la ;;
  lb <~ ensure_body le ;;
  b <~ read_body lb ;;
  _ <~ write lb (OBody (obj_set b path ba)) ;;
  mstore (fn x) lm.

(** [ExpectBody(path).toBeDefined()]: [{assertion: 'toBeDefined'}]. *)
Definition ExpectBody_toBeDefined (path : string) : site -> SM unit :=
  ExpectBody_set path (mkAssertion "toBeDefined" JUndefined).

(** [ExpectBody(path).toEqual(value)]: [{assertion: 'toEqual', value}]. *)
Definition ExpectBody_toEqual (path : string) (v : jsval) : site -> SM unit :=
  ExpectBody_set path (mkAssertion "toEqual" v).

(** [ExpectBody(path).toContain(value)]: [{assertion: 'toContain', value}]. *)
Definition ExpectBody_toContain (path : string) (v : jsval) : site -> SM unit :=
  ExpectBody_set path (mkAssertion "toContain" v).

(** [ExpectSchema(schema)] (expect-schema.decorator.ts): new [api] and
    [expect] objects, copies of the old ones ([...spread]) with [schema]. *)
Definition ExpectSchema (schema : jsval) (x : site) : SM unit :=
  lm <~ get_or_new (fn x) (pkey_string (key x)) ;;
  m <~ read_meta lm ;;
  o <~ read_opts (m_options m) ;;
  a <~ (match o_api o with Some la => read_api la | None => sret empty_api end) ;;
  e <~ (match a_expect a with Some le => read_exp le | None => sret empty_exp end) ;;
  le' <~ alloc (OExp (mkExpObj (e_status e) (e_body e) (Some schema))) ;;
  la' <~ alloc (OApi (api_with_expect a (Some le'))) ;;
  _ <~ write (m_options m) (OOpts (opts_with_api o (Some la'))) ;;
  mstore (fn x) lm.

(** [options.name || fallback]. *)
Definition name_or (n : option string) (fallback : string) : string :=
  match n with Some s => if s =? "" then fallback else s | None => fallback end.

(** [test(options)], the first definition in test.decorator.ts (lines
    17-36): a new record under the method, holding the [options] object. *)
Definition test (options : loc) (x : site) : SM unit :=
  o <~ read_opts options ;;
  lm <~ alloc (OMeta (mkMetaObj MTest (name_or (o_name o) (pkey_string (key x))) options)) ;;
  mstore (fn x) lm.

(** [test(options)], the second definition in test.decorator.ts (lines
    59-76): [options.name || propertyKey?.toString() || originalMethod.name]. *)
Definition test_2 (options : loc) (x : site) : SM unit :=
  o <~ read_opts options ;;
  lm <~ alloc (OMeta (mkMetaObj MTest
                        (name_or (o_name o) (name_or (Some (pkey_string (key x))) (fn_name x)))
                        options)) ;;
  mstore (fn x) lm.

(** [createHookDecorator(hookName, options)] ([src/unnamed/part_006]),
    behind [beforeAll], [beforeEach], [afterAll], [afterEach]. *)
Definition hook (hookName : string) (options : loc) (x : site) : SM unit :=
  lm <~ alloc (OMeta (mkMetaObj MHook hookName options)) ;;
  mstore (fn x) lm.

(** [skip(reason)] (utility.decorator.ts), method branch: a new record
    [{skip: true, skipReason: reason || ''}] replaces the method's. *)
Definition skip (reason : option string) (x : site) : SM unit :=
  lo <~ alloc (OOpts (mkOptsObj None None None (Some true) (Some (name_or reason ""))
                                None None None None)) ;;
  lm <~ alloc (OMeta (mkMetaObj MTest (pkey_string (key x)) lo)) ;;
  mstore (fn x) lm.

(** The method branch shared by [only], [tag] and [slow]:
    [metadata.options = {...metadata.options, <f>}] on the method's record,
    or a new test record whose options are [f {}]. *)
Definition spread_options (f : opts_obj -> opts_obj) (x : site) : SM unit :=
  r <~ mget (fn x) ;;
  match r with
  | Some lm =>
      m <~ read_meta lm ;;
      o <~ read_opts (m_options m) ;;
      lo <~ alloc (OOpts (f o)) ;;
      _ <~ write lm (OMeta (mkMetaObj (m_type m) (m_name m) lo)) ;;
      mstore (fn x) lm
  | None =>
      lo <~ alloc (OOpts (f empty_opts)) ;;
      lm <~ alloc (OMeta (mkMetaObj MTest (pkey_string (key x)) lo)) ;;
      mstore (fn x) lm
  end.

(** [only()]: [only: true]. *)
Definition only : site -> SM unit :=
  spread_options (fun o => mkOptsObj (o_name o) (o_api o) (Some true) (o_skip o) (o_skipReason o)
                                     (o_slow o) (o_slowReason o) (o_tags o) (o_hasApiTests o)).

(** [tag(tags)]: [tags]. *)
Definition tag (tags : list string) : site -> SM unit :=
  spread_options (fun o => mkOptsObj (o_name o) (o_api o) (o_only o) (o_skip o) (o_skipReason o)
                                     (o_slow o) (o_slowReason o) (Some tags) (o_hasApiTests o)).

(** [slow(reason)]: [slow: true, slowReason: reason]. *)
Definition slow (reason : option string) : site -> SM unit :=
  spread_options (fun o => mkOptsObj (o_name o) (o_api o) (o_only o) (o_skip o) (o_skipReason o)
                                     (Some true) reason (o_tags o) (o_hasApiTests o)).

(** What the suite reads of a record: [Registry.metadata], through the
    references. *)
Definition view_exp_obj (h : heap) (e : exp_obj) : option expect_opts :=
  match e_body e with
  | None => Some (mkExpect (e_status e) None (e_schema e))
  | Some lb =>
      match nth_error h lb with
      | Some (OBody b) => Some (mkExpect (e_status e) (Some b) (e_schema e))
      | _ => None
      end
  end.

Definition view_exp (h : heap) (le : loc) : option expect_opts :=
  match nth_error h le with Some (OExp e) => view_exp_obj h e | _ => None end.

Definition frag_of (a : api_obj) (ex : option expect_opts) : api_fragment :=
  mkFragment (a_method a) (a_path a) (a_pathParams a) (a_queryParams a) (a_headers a)
             (a_body a) ex.

Definition view_api_obj (h : heap) (a : api_obj) : option api_fragment :=
  match a_expect a with
  | None => Some (frag_of a None)
  | Some le => match view_exp h le with Some e => Some (frag_of a (Some e)) | None => None end
  end.

Definition view_api (h : heap) (la : loc) : option api_fragment :=
  match nth_error h la with Some (OApi a) => view_api_obj h a | _ => None end.

Definition options_of (o : opts_obj) (a : option api_fragment) : options :=
  mkMetaOptions a (o_only o) (o_skip o) (o_slow o) (o_tags o).

Definition view_opts_obj (h : heap) (o : opts_obj) : option options :=
  match o_api o with
  | None => Some (options_of o None)
  | Some la => match view_api h la with Some a => Some (options_of o (Some a)) | None => None end
  end.

Definition view_opts (h : heap) (lo : loc) : option options :=
  match nth_error h lo with Some (OOpts o) => view_opts_obj h o | _ => None end.

Definition view_meta_obj (h : heap) (m : meta_obj) : option metadata :=
  match view_opts h (m_options m) with
  | Some o => Some (mkMetadata (m_type m) (m_name m) o)
  | None => None
  end.

Definition view_meta (h : heap) (lm : loc) : option metadata :=
  match nth_error h lm with Some (OMeta m) => view_meta_obj h m | _ => None end.

Fixpoint view_entries (h : heap) (es : list (token * loc)) : option storage :=
  match es with
  | [] => Some []
  | (t, l) :: r =>
      match view_meta h l, view_entries h r with
      | Some m, Some vs => Some ((t, m) :: vs)
      | _, _ => None
      end
  end.

(** The registry as the suite reads it. *)
Definition view (s : st) : option storage := view_entries (hp s) (entries s).

(** The record stored under [t], as the suite reads it. *)
Definition rec_view (s : st) (t : token) : option metadata :=
  match map_get (entries s) t with Some l => view_meta (hp s) l | None => None end.

(** Well-formed states: every reference leads to an object of the shape
    its holder expects. *)
Definition at_meta (h : heap) (l : loc) : Prop :=
  match nth_error h l with Some (OMeta _) => True | _ => False end.

Definition at_opts (h : heap) (l : loc) : Prop :=
  match nth_error h l with Some (OOpts _) => True | _ => False end.

Definition at_api (h : heap) (l : loc) : Prop :=
  match nth_error h l with Some (OApi _) => True | _ => False end.

Definition at_exp (h : heap) (l : loc) : Prop :=
  match nth_error h l with Some (OExp _) => True | _ => False end.

Definition at_body (h : heap) (l : loc) : Prop :=
  match nth_error h l with Some (OBody _) => True | _ => False end.

Definition obj_wf (h : heap) (o : obj) : Prop :=
  match o with
  | OMeta m => at_opts h (m_options m)
  | OOpts o => match o_api o with Some la => at_api h la | None => True end
  | OApi a => match a_expect a with Some le => at_exp h le | None => True end
  | OExp e => match e_body e with Some lb => at_body h lb | None => True end
  | OBody _ => True
  end.

Definition wf (s : st) : Prop :=
  Forall (obj_wf (hp s)) (hp s) /\ Forall (fun tl => at_meta (hp s) (snd tl)) (entries s).

(** The API decorators of a method. *)
Inductive api_dec : Type :=
| DApiEndpoint (m p : string)
| DApiEndpoint_2 (m p : string)
| DPathParams (ps : list (string * jsval))
| DQueryParams (qs : list (string * jsval))
| DHeaders (hs : list (string * string))
| DRequestBody (b : jsval)
| DExpectStatus (z : Z)
| DExpectBody (path : string) (ba : body_assertion)
| DExpectSchema (sch : jsval).

Definition apply_dec (d : api_dec) : site -> SM unit :=
  match d with
  | DApiEndpoint m p => ApiEndpoint m p
  | DApiEndpoint_2 m p => ApiEndpoint_2 m p
  | DPathParams ps => PathParams ps
  | DQueryParams qs => QueryParams qs
  | DHeaders hs => Headers hs
  | DRequestBody b => RequestBody b
  | DExpectStatus z => ExpectStatus z
  | DExpectBody p ba => ExpectBody_set p ba
  | DExpectSchema sch => ExpectSchema sch
  end.

(** Decorators applied bottom-up: the first of the list is the one written
    closest to the method. *)
Fixpoint apply_decs (ds : list api_dec) (x : site) : SM unit :=
  match ds with
  | [] => sret tt
  | d :: r => _ <~ apply_dec d x ;; apply_decs r x
  end.

(** The field each API decorator is meant to set, on the api object. *)
Definition dec_effect (d : api_dec) (a : api_fragment) : api_fragment :=
  let ex := match api_expect a with Some e => e | None => empty_expect end in
  let with_expect e := mkFragment (api_method a) (api_path a) (api_pathParams a)
                         (api_queryParams a) (api_headers a) (api_body a) (Some e) in
  match d with
  | DApiEndpoint m p | DApiEndpoint_2 m p =>
      mkFragment (Some m) (Some p) (api_pathParams a) (api_queryParams a) (api_headers a)
                 (api_body a) (api_expect a)
  | DPathParams ps =>
      mkFragment (api_method a) (api_path a) (Some ps) (api_queryParams a) (api_headers a)
                 (api_body a) (api_expect a)
  | DQueryParams qs =>
      mkFragment (api_method a) (api_path a) (api_pathParams a) (Some qs) (api_headers a)
                 (api_body a) (api_expect a)
  | DHeaders hs =>
      mkFragment (api_method a) (api_path a) (api_pathParams a) (api_queryParams a) (Some hs)
                 (api_body a) (api_expect a)
  | DRequestBody b =>
      mkFragment (api_method a) (api_path a) (api_pathParams a) (api_queryParams a)
                 (api_headers a) (Some b) (api_expect a)
  | DExpectStatus z => with_expect (mkExpect (Some z) (exp_body ex) (exp_schema ex))
  | DExpectBody p ba =>
      with_expect (mkExpect (exp_status ex)
                     (Some (obj_set (match exp_body ex with Some b => b | None => [] end) p ba))
                     (exp_schema ex))
  | DExpectSchema sch => with_expect (mkExpect (exp_status ex) (exp_body ex) (Some sch))
  end.

(** The record a decorator starts from: the method's, or a new test record. *)
Definition base_record (s : st) (x : site) : metadata :=
  match rec_view s (fn x) with
  | Some r => r
  | None => mkMetadata MTest (pkey_string (key x)) empty_options
  end.

Definition with_effect (d : api_dec) (r : metadata) : metadata :=
  let o := moptions r in
  let a := match api o with Some a => a | None => empty_fragment end in
  mkMetadata (type r) (name r)
             (mkMetaOptions (Some (dec_effect d a)) (Registry.only o) (Registry.skip o) (Registry.slow o) (tags o)).

End Decorators.

(** * The suite's registration of a test method (suite.decorator.ts) and
      the [step] decorator (step.decorator.ts) *)
Module Suite.
Import ApiHelper Registry Decorators.

(** [@test()]: the first [test] with its default parameter, a new
    empty object [{}] as [options]. *)
Definition test_default (x : site) : SM unit :=
  lo <~ alloc (OOpts empty_opts) ;; test lo x.

(** The Playwright call that registers a test: [test.only], [test.skip]
    or [test]. *)
Inductive test_mode : Type := TestOnly | TestSkip | TestRegular.

(** [x === true]. *)
Definition strict_true (b : option bool) : bool :=
  match b with Some true => true | _ => false end.

(** [if (apiOptions && apiOptions.method && apiOptions.path) processApiRequest(...)]. *)
Definition api_call (a : option api_fragment) : option ApiRequestOptions :=
  match a with Some a => api_request a | None => None end.

(** A method of a suite class as the suite registers it: [None] if its
    record is not a test record; else the Playwright call ([test.only],
    [test.skip], [test]) and the request the test makes, if any.  The
    [only] and [skip] branches read [testOptions.api]; the regular branch
    runs the retrieval of [resolve_api]. *)
Definition register_test (s : storage) (methodName : string) (methodFn : token)
  : option (test_mode * option ApiRequestOptions) :=
  match get s methodFn with
  | Some md =>
      match type md with
      | MTest =>
          let testOptions := moptions md in
          if strict_true (Registry.only testOptions) then Some (TestOnly, api_call (api testOptions))
          else if strict_true (Registry.skip testOptions) then Some (TestSkip, api_call (api testOptions))
          else Some (TestRegular, api_call (resolve_api s testOptions methodName methodFn))
      | _ => None
      end
  | None => None
  end.

(** [step(name)] (step.decorator.ts), [descriptor] branch: the method
    becomes [descriptor.value = async function (...args) {...}], a new
    function [w] with the empty name (an assignment to a property names no
    function); the registry is untouched.  [step w x] is the method as the
    suite sees it when [step] is the topmost decorator: once decoration
    ends, [prototype[propertyKey]] is the wrapper.  (A decorator applied
    after [step] would get the wrapper as [descriptor.value] while
    [prototype[propertyKey]] is still the original; that case is not
    modelled.) *)
Definition step (w : nat) (x : site) : site :=
  mkSite (proto_id x) (cls_id x) (cls_name x) (key x) w "".

End Suite.

(** * Notions on the decorators' state used in the statements below *)
Module DecoratorSpecs.
Import ApiHelper Registry Decorators Suite.

(** The shape of a heap object. *)
Definition kind (o : obj) : nat :=
  match o with OMeta _ => 0 | OOpts _ => 1 | OApi _ => 2 | OExp _ => 3 | OBody _ => 4 end.

(** Replacing an object by one of the same shape below level [k]. *)
Definition same_kind_below (k : nat) (h : heap) (l : loc) (o : obj) : Prop :=
  exists o0, nth_error h l = Some o0 /\ kind o0 = kind o /\ kind o < k.

(** The shape of the object at a reference, and the heap growing with
    every object keeping its shape. *)
Definition kind_at (h : heap) (l : loc) : option nat := option_map kind (nth_error h l).

Definition kinds_mono (h h' : heap) : Prop :=
  forall l k, kind_at h l = Some k -> kind_at h' l = Some k.

(** A record with [options.api] replaced, and [options.api || {}]. *)
Definition meta_set_api (r : metadata) (a : option api_fragment) : metadata :=
  mkMetadata (type r) (name r)
    (mkMetaOptions a (Registry.only (moptions r)) (Registry.skip (moptions r))
                   (Registry.slow (moptions r)) (tags (moptions r))).

Definition api_or_empty (r : metadata) : api_fragment :=
  match api (moptions r) with Some a => a | None => empty_fragment end.

(** [lm]'s options object holds the api object [la]. *)
Definition api_loc (h : heap) (lm la : loc) : Prop :=
  exists m o, nth_error h lm = Some (OMeta m) /\ nth_error h (m_options m) = Some (OOpts o) /\
              o_api o = Some la.

(** The registry keys written: only [ts] may change or appear, and no
    key comes to be held twice. *)
Definition touches (es es' : list (token * loc)) (ts : list token) : Prop :=
  (forall t, ~ In t ts -> map_get es' t = map_get es t) /\
  (forall t l, In (t, l) es' -> (exists l', In (t, l') es) \/ In t ts) /\
  (NoDup (map fst es) -> NoDup (map fst es')).

(** [api.expect || {}], an api with [expect] replaced, and the expect
    object of [lm]'s api. *)
Definition expect_or_empty (a : api_fragment) : expect_opts :=
  match api_expect a with Some e => e | None => empty_expect end.

Definition frag_set_expect (a : api_fragment) (e : option expect_opts) : api_fragment :=
  mkFragment (api_method a) (api_path a) (api_pathParams a) (api_queryParams a) (api_headers a)
             (api_body a) e.

Definition exp_loc (h : heap) (lm le : loc) : Prop :=
  exists la a, api_loc h lm la /\ nth_error h la = Some (OApi a) /\ a_expect a = Some le.

(** [expect.body || {}], and the body object of [lm]'s expect. *)
Definition body_or_empty (e : expect_opts) : list (string * body_assertion) :=
  match exp_body e with Some b => b | None => [] end.

Definition body_loc (h : heap) (lm lb : loc) : Prop :=
  exists le eo, exp_loc h lm le /\ nth_error h le = Some (OExp eo) /\ e_body eo = Some lb.

(** The property key as a registry token, if it is truthy. *)
Definition truthy_key (x : site) : list token :=
  if pkey_truthy (key x) then [pkey_token (key x)] else [].

(** The registry keys a decorator may write: the method, and also the
    property key and the class ([ApiEndpoint]), the prototype
    ([ApiEndpoint_2]) or the property key ([Headers], [RequestBody]). *)
Definition stored_tokens (d : api_dec) (x : site) : list token :=
  match d with
  | DApiEndpoint _ _ => (fn x :: truthy_key x ++ [cls x])%list
  | DApiEndpoint_2 _ _ => [fn x; proto x]
  | DHeaders _ | DRequestBody _ => fn x :: truthy_key x
  | _ => [fn x]
  end.

(** The new record [ApiEndpoint] stores under the property key. *)
Definition endpoint_record (x : site) (m p : string) : metadata :=
  mkMetadata MTest (pkey_string (key x))
    (mkMetaOptions (Some (mkFragment (Some m) (Some p) None None None None None)) None None None None).

(** What a decorator leaves under the property key: [ApiEndpoint] a record
    of its own; [Headers] and [RequestBody] the method's record reference. *)
Definition key_post (d : api_dec) (x : site) (s' : st) : Prop :=
  match d with
  | DApiEndpoint m p =>
      pkey_truthy (key x) = true -> rec_view s' (pkey_token (key x)) = Some (endpoint_record x m p)
  | DHeaders _ | DRequestBody _ =>
      pkey_truthy (key x) = true -> map_get (entries s') (pkey_token (key x)) = map_get (entries s') (fn x)
  | _ => True
  end.

(** The state after one API decorator: well-formed; the method's record is
    the one it started from with the decorator's field set; only the keys of
    [stored_tokens] written; the method's reference kept; [key_post]. *)
Definition dec_post (d : api_dec) (x : site) (s s' : st) : Prop :=
  wf s' /\
  rec_view s' (fn x) = Some (with_effect d (base_record s x)) /\
  touches (entries s) (entries s') (stored_tokens d x) /\
  (forall l, map_get (entries s) (fn x) = Some l -> map_get (entries s') (fn x) = Some l) /\
  key_post d x s'.

(** The record after a stack of decorators, bottom-up. *)
Definition stack_record (ds : list api_dec) (r : metadata) : metadata :=
  fold_left (fun r d => with_effect d r) ds r.

(** The keys a stack of decorators may write. *)
Definition stack_tokens (ds : list api_dec) (x : site) : list token :=
  flat_map (fun d => stored_tokens d x) ds.

(** The record [@test()] stores: [{type: 'test', name: String(propertyKey), options: {}}]. *)
Definition test_record (x : site) : metadata := mkMetadata MTest (pkey_string (key x)) empty_options.

(** The decorators that store under the property key. *)
Definition writes_key (d : api_dec) : bool :=
  match d with DApiEndpoint _ _ | DHeaders _ | DRequestBody _ => true | _ => false end.

(** The property key and the method share one record reference. *)
Definition aliased (es : list (token * loc)) (x : site) : Prop :=
  exists l, map_get es (pkey_token (key x)) = Some l /\ map_get es (fn x) = Some l.

(** The options as [only], [tag] and [slow] leave them. *)
Definition options_set_only (o : options) : options :=
  mkMetaOptions (api o) (Some true) (Registry.skip o) (Registry.slow o) (tags o).

Definition options_set_tags (ts : list string) (o : options) : options :=
  mkMetaOptions (api o) (Registry.only o) (Registry.skip o) (Registry.slow o) (Some ts).

Definition options_set_slow (o : options) : options :=
  mkMetaOptions (api o) (Registry.only o) (Registry.skip o) (Some true) (tags o).

(** A record with its options mapped. *)
Definition meta_map_options (g : options -> options) (r : metadata) : metadata :=
  mkMetadata (type r) (name r) (g (moptions r)).

(** The field of [options.api] each API decorator sets. *)
Definition dec_field (d : api_dec) : nat :=
  match d with
  | DApiEndpoint _ _ | DApiEndpoint_2 _ _ => 0
  | DPathParams _ => 1
  | DQueryParams _ => 2
  | DHeaders _ => 3
  | DRequestBody _ => 4
  | DExpectStatus _ => 5
  | DExpectBody _ _ => 6
  | DExpectSchema _ => 7
  end.

(** A method [getUserTest] of a class [UserApiTests]. *)
Definition example_site : site := mkSite 0 1 "UserApiTests" (PStr "getUserTest") 2 "getUserTest".

End DecoratorSpecs.

(** * Proofs: the metadata storage and the retrieval of API options *)
Module RegistryFacts.
Import ApiHelper Registry Scenarios.

Lemma token_eqb_true a b : token_eqb a b = true <-> a = b.
Proof. unfold token_eqb; destruct (token_eq_dec a b); split; congruence. Qed.

Lemma token_eqb_refl t : token_eqb t t = true.
Proof. apply token_eqb_true; reflexivity. Qed.

Lemma token_eqb_false a b : a <> b -> token_eqb a b = false.
Proof. unfold token_eqb; destruct (token_eq_dec a b); congruence. Qed.

Lemma get_store_same s t m : get (store s t m) t = Some m.
Proof.
  induction s as [|[t' m'] r IH]; simpl.
  - rewrite token_eqb_refl; reflexivity.
  - destruct (token_eqb t t') eqn:E; simpl.
    + rewrite token_eqb_refl; reflexivity.
    + rewrite E; exact IH.
Qed.

Lemma get_store_other s t t' m : t' <> t -> get (store s t m) t' = get s t'.
Proof.
  intros Hne; induction s as [|[t0 m0] r IH]; simpl.
  - rewrite (token_eqb_false _ _ Hne); reflexivity.
  - destruct (token_eqb t t0) eqn:E; simpl.
    + apply token_eqb_true in E; subst t0.
      rewrite (token_eqb_false _ _ Hne); reflexivity.
    + destruct (token_eqb t' t0); [reflexivity | exact IH].
Qed.

Lemma keys_store s t m :
  map fst (store s t m) =
  if existsb (token_eqb t) (map fst s) then map fst s else (map fst s ++ [t])%list.
Proof.
  induction s as [|[t' m'] r IH]; simpl; [reflexivity|].
  destruct (token_eqb t t') eqn:E; simpl.
  - apply token_eqb_true in E; subst t'; reflexivity.
  - rewrite IH; destruct (existsb (token_eqb t) (map fst r)); reflexivity.
Qed.

Lemma replay_snoc ops tm : replay (ops ++ [tm]) = store (replay ops) (fst tm) (snd tm).
Proof. unfold replay; rewrite fold_left_app; reflexivity. Qed.

Lemma insertion_order_snoc ts t :
  insertion_order (ts ++ [t]) =
  let acc := insertion_order ts in
  if existsb (token_eqb t) acc then acc else (acc ++ [t])%list.
Proof. unfold insertion_order; rewrite fold_left_app; reflexivity. Qed.

Lemma last_stored_snoc t ops tm :
  last_stored t (ops ++ [tm]) = if token_eqb t (fst tm) then Some (snd tm) else last_stored t ops.
Proof. unfold last_stored; rewrite fold_left_app; reflexivity. Qed.

Lemma keys_replay ops : map fst (replay ops) = insertion_order (map fst ops).
Proof.
  induction ops as [|tm ops IH] using rev_ind; [reflexivity|].
  rewrite replay_snoc, map_app; change (map fst [tm]) with [fst tm].
  rewrite insertion_order_snoc, keys_store, IH; reflexivity.
Qed.

Lemma get_replay ops t : get (replay ops) t = last_stored t ops.
Proof.
  induction ops as [|tm ops IH] using rev_ind; [reflexivity|].
  rewrite replay_snoc, last_stored_snoc.
  destruct (token_eqb t (fst tm)) eqn:E.
  - apply token_eqb_true in E; subst t; apply get_store_same.
  - rewrite get_store_other; [exact IH|].
    intros Heq; subst; rewrite token_eqb_refl in E; discriminate.
Qed.

Lemma nodup_snoc (l : list token) t : NoDup l -> ~ In t l -> NoDup (l ++ [t]).
Proof.
  induction l as [|x l IH]; simpl; intros Hd Hn.
  - constructor; [intros []|constructor].
  - inversion Hd as [|? ? Hx Hl]; subst.
    constructor.
    + intros Hin; apply in_app_or in Hin as [Hin|[Heq|[]]]; [contradiction|].
      apply Hn; left; symmetry; exact Heq.
    + apply IH; [exact Hl|]; intros Hin; apply Hn; right; exact Hin.
Qed.

Lemma existsb_token_false t l : existsb (token_eqb t) l = false -> ~ In t l.
Proof.
  intros E Hin.
  assert (existsb (token_eqb t) l = true) as E'
    by (apply existsb_exists; exists t; split; [exact Hin | apply token_eqb_refl]).
  congruence.
Qed.

Lemma nodup_store s t m : NoDup (map fst s) -> NoDup (map fst (store s t m)).
Proof.
  intros Hd; rewrite keys_store.
  destruct (existsb (token_eqb t) (map fst s)) eqn:E; [exact Hd|].
  apply nodup_snoc; [exact Hd | apply existsb_token_false; exact E].
Qed.

Lemma nodup_replay ops : NoDup (map fst (replay ops)).
Proof.
  induction ops as [|tm ops IH] using rev_ind; [constructor|].
  rewrite replay_snoc; apply nodup_store; exact IH.
Qed.

Lemma in_get s t m : NoDup (map fst s) -> In (t, m) s -> get s t = Some m.
Proof.
  induction s as [|[t' m'] r IH]; simpl; intros Hd Hin; [destruct Hin|].
  inversion Hd as [|? ? Hx Hr]; subst.
  destruct Hin as [Heq|Hin].
  - inversion Heq; subst; rewrite token_eqb_refl; reflexivity.
  - destruct (token_eqb t t') eqn:E.
    + apply token_eqb_true in E; subst t'.
      exfalso; apply Hx; apply (in_map fst) in Hin; exact Hin.
    + apply IH; assumption.
Qed.

Lemma getAll_replay ops :
  map (fun p => (fst p, Some (snd p))) (getAll (replay ops)) =
  map (fun t => (t, last_stored t ops)) (insertion_order (map fst ops)).
Proof.
  unfold getAll; rewrite <- keys_replay, map_map.
  apply map_ext_in; intros [t m] Hin; simpl.
  rewrite <- get_replay, (in_get _ _ _ (nodup_replay ops) Hin); reflexivity.
Qed.

(** C9: [store] is [Map.prototype.set]: storing [r2] under a token that
    holds [r1] makes [get] return exactly [r2]; [store] accepts every
    record ([has] holds afterwards); and [getAll] lists each token once,
    in the order of its first [store], with the record of its last
    [store]. *)
Theorem metadata_storage_contract :
  (forall s t r1 r2,
      get (store (store s t r1) t r2) t = Some r2 /\ has (store s t r2) t = true) /\
  (forall ops,
      map (fun p => (fst p, Some (snd p))) (getAll (replay ops)) =
      map (fun t => (t, last_stored t ops)) (insertion_order (map fst ops))).
Proof.
  split.
  - intros s t r1 r2; unfold has; rewrite !get_store_same; split; reflexivity.
  - exact getAll_replay.
Qed.







End RegistryFacts.

(** * Proofs: [processApiRequest] *)
Module EngineFacts.
Import ApiHelper Engine Scenarios.

Lemma bind_assoc {A B C : Type} (m : res A) (f : A -> res B) (g : B -> res C) :
  bind (bind m f) g = bind m (fun x => bind (f x) g).
Proof. destruct m; reflexivity. Qed.

Lemma bind_ok_r {A : Type} (m : res A) : bind m (fun x => Ok x) = m.
Proof. destruct m; reflexivity. Qed.

Lemma supported_iff m : existsb (String.eqb m) supported_methods = true <-> In m supported_methods.
Proof.
  rewrite existsb_exists; split.
  - intros [x [Hx E]]; apply String.eqb_eq in E; subst; exact Hx.
  - intros H; exists m; split; [exact H | apply String.eqb_refl].
Qed.

Lemma dispatch_spec transport m original url po log :
  dispatch transport m original url po log =
  if existsb (String.eqb m) supported_methods
  then (transport m url po, (log ++ [mkCall m url po])%list)
  else (Throw (Error ("Unsupported HTTP method: " ++ original)), log).
Proof.
  unfold dispatch, supported_methods, call_transport, lift; simpl.
  destruct (m =? "get") eqn:E; [apply String.eqb_eq in E; subst; reflexivity|].
  destruct (m =? "post") eqn:E2; [apply String.eqb_eq in E2; subst; reflexivity|].
  destruct (m =? "put") eqn:E3; [apply String.eqb_eq in E3; subst; reflexivity|].
  destruct (m =? "delete") eqn:E4; [apply String.eqb_eq in E4; subst; reflexivity|].
  destruct (m =? "patch") eqn:E5; [apply String.eqb_eq in E5; subst; reflexivity|].
  destruct (m =? "head") eqn:E6; [apply String.eqb_eq in E6; subst; reflexivity|].
  reflexivity.
Qed.

(** The outcome and the call log of a run. *)
Lemma run_eq transport o :
  run transport o =
  match prepared o with
  | Ok (url, po) =>
      let m := toLowerCase (method o) in
      if existsb (String.eqb m) supported_methods
      then (resp <- transport m url po ;; _ <- expectations_of o resp ;; Ok resp,
            [mkCall m url po])
      else (Throw (Error ("Unsupported HTTP method: " ++ method o)), [])
  | Throw e => (Throw e, [])
  | Outside => (Outside, [])
  end.
Proof.
  unfold run, processApiRequest, prepared, expectations_of, mbind, lift, ret, bind.
  destruct (process_path (path o) (pathParams o)) as [u|e|]; cbv beta iota; try reflexivity.
  destruct (add_query u (queryParams o)) as [url|e|]; cbv beta iota; try reflexivity.
  destruct (build_request_options o) as [ro|e|]; cbv beta iota; try reflexivity.
  destruct (to_playwright_options ro) as [po|e|]; cbv beta iota; try reflexivity.
  rewrite dispatch_spec.
  destruct (existsb (String.eqb (toLowerCase (method o))) supported_methods); [|reflexivity].
  cbv beta iota; destruct (transport _ url po) as [resp|e|]; [|reflexivity|reflexivity].
  destruct (expect o); cbv beta iota; [|reflexivity].
  destruct (check_expectations e resp); reflexivity.
Qed.

(** Every call in the log is the single call the [switch] makes, with the
    lower-cased verb, after all earlier stages succeeded. *)
Lemma run_calls transport o c :
  In c (snd (run transport o)) ->
  exists url po,
    prepared o = Ok (url, po) /\
    In (toLowerCase (method o)) supported_methods /\
    c = mkCall (toLowerCase (method o)) url po /\
    snd (run transport o) = [c].
Proof.
  rewrite run_eq; intros Hin.
  destruct (prepared o) as [[url po]|e|]; [|simpl in Hin; contradiction..].
  cbv zeta in Hin |- *.
  destruct (existsb (String.eqb (toLowerCase (method o))) supported_methods) eqn:E;
    cbn [snd In] in Hin; [|contradiction].
  destruct Hin as [Hc|[]]; subst c.
  exists url, po; split; [reflexivity|]; split; [apply supported_iff; exact E|].
  split; reflexivity.
Qed.

(** After the call, the outcome is the outcome of the expectations. *)
Lemma run_after_call transport o c resp :
  In c (snd (run transport o)) ->
  transport (tc_verb c) (tc_url c) (tc_options c) = Ok resp ->
  fst (run transport o) = (_ <- expectations_of o resp ;; Ok resp).
Proof.
  intros Hin Ht.
  destruct (run_calls transport o c Hin) as [url [po [Hp [Hs [Hc _]]]]].
  subst c; simpl in Ht.
  rewrite run_eq, Hp; cbv beta iota zeta.
  apply supported_iff in Hs; rewrite Hs; cbn [fst]; rewrite Ht; reflexivity.
Qed.

(** A method whose lower-cased form is not supported never reaches the
    transport; once the earlier stages succeed, the outcome is the
    unsupported-method error. *)
Lemma unsupported_method_no_call transport o :
  ~ In (toLowerCase (method o)) supported_methods ->
  snd (run transport o) = [] /\
  (forall url po, prepared o = Ok (url, po) ->
     fst (run transport o) = Throw (Error ("Unsupported HTTP method: " ++ method o))).
Proof.
  intros Hn.
  assert (existsb (String.eqb (toLowerCase (method o))) supported_methods = false) as E.
  { destruct (existsb _ _) eqn:E; [apply supported_iff in E; contradiction | reflexivity]. }
  rewrite run_eq; split.
  - destruct (prepared o) as [[url po]|e|]; cbv beta iota zeta; [rewrite E|..]; reflexivity.
  - intros url po Hp; rewrite Hp; cbv beta iota zeta; rewrite E; reflexivity.
Qed.

Lemma prepared_with_method o m : prepared (with_method o m) = prepared o.
Proof. reflexivity. Qed.

Lemma prepared_inv o url po :
  prepared o = Ok (url, po) ->
  exists ro, build_request_options o = Ok ro /\ to_playwright_options ro = Ok po.
Proof.
  unfold prepared, bind.
  destruct (process_path (path o) (pathParams o)) as [u|e|]; try discriminate.
  destruct (add_query u (queryParams o)) as [url'|e|]; try discriminate.
  destruct (build_request_options o) as [ro|e|] eqn:Eb; try discriminate.
  destruct (to_playwright_options ro) as [po'|e|] eqn:Ep; try discriminate.
  intros H; injection H as <- <-; exists ro; split; [reflexivity | exact Ep].
Qed.

(** C10: the verb is compared in lower case only: two methods with the
    same lower-cased form, when it is supported, give the same run (same
    outcome, same transport calls); every transport call uses the
    lower-cased method, which is one of the supported verbs. *)
Theorem method_matching_case_insensitive :
  (forall transport o m',
      toLowerCase m' = toLowerCase (method o) ->
      In (toLowerCase (method o)) supported_methods ->
      run transport (with_method o m') = run transport o) /\
  (forall transport o c,
      In c (snd (run transport o)) ->
      tc_verb c = toLowerCase (method o) /\ In (tc_verb c) supported_methods).
Proof.
  split.
  - intros transport o m' Hl Hs.
    rewrite !run_eq, prepared_with_method.
    change (method (with_method o m')) with m'; rewrite Hl.
    apply supported_iff in Hs.
    destruct (prepared o) as [[url po]|e|]; [|reflexivity..].
    cbv zeta; rewrite Hs; reflexivity.
  - intros transport o c Hin.
    destruct (run_calls transport o c Hin) as [url [po [_ [Hs [Hc _]]]]].
    subst c; split; [reflexivity | exact Hs].
Qed.

(** "GeT" and "get" give the same run, and its one call uses "get". *)
Lemma method_matching_case_insensitive_witness :
  (toLowerCase "GeT" = toLowerCase (method (simple_options "get" "/users/1")) /\
   In (toLowerCase (method (simple_options "get" "/users/1"))) supported_methods /\
   run stub_transport (with_method (simple_options "get" "/users/1") "GeT") =
   run stub_transport (simple_options "get" "/users/1")) /\
  (In (mkCall "get" "/users/1" (mkPlaywrightOptions [] None))
      (snd (run stub_transport (simple_options "get" "/users/1"))) /\
   tc_verb (mkCall "get" "/users/1" (mkPlaywrightOptions [] None)) = "get").
Proof.
  destruct method_matching_case_insensitive as [H1 H2].
  split; [split; [reflexivity|split; [simpl; auto 7|]]|split].
  - apply H1; [reflexivity | simpl; auto 7].
  - simpl; left; reflexivity.
  - apply (H2 stub_transport (simple_options "get" "/users/1")); simpl; left; reflexivity.
Defined.

(** C3 (failing input): the verb TRACE is not supported, but the path
    parameter [(] makes [new RegExp] throw first: the request fails with a
    SyntaxError, not with the unsupported-method error. *)
Theorem unsupported_method_masked_by_regexp_error :
  forall transport,
    run transport c3_options =
    (Throw (SyntaxError "Invalid regular expression: /\{(\}/g: Unterminated group"), []).
Proof. intros transport; rewrite run_eq; reflexivity. Qed.

(** Scenario 3 of the spec: TRACE with no path parameters. *)
Lemma trace_rejected_before_transport :
  forall transport,
    run transport (simple_options "TRACE" "/x") =
    (Throw (Error "Unsupported HTTP method: TRACE"), []).
Proof. intros transport; rewrite run_eq; reflexivity. Qed.

Lemma fold_res_app {A B : Type} (f : A -> B -> res A) acc l1 l2 :
  fold_res f acc (l1 ++ l2) = (acc' <- fold_res f acc l1 ;; fold_res f acc' l2).
Proof.
  revert acc; induction l1 as [|x l1 IH]; intros acc; simpl; [reflexivity|].
  destruct (f acc x); simpl; [apply IH | reflexivity | reflexivity].
Qed.

Lemma unknown_kind_throws body p a v :
  getValueByPath body p = Ok v ->
  existsb (String.eqb (assertion a)) ["toBeDefined"; "toEqual"; "toContain"] = false ->
  check_body_assertion body (p, a) = Throw (Error ("Unsupported assertion: " ++ assertion a)).
Proof.
  intros Hv Hk; simpl in Hk.
  apply orb_false_elim in Hk as [E1 Hk]; apply orb_false_elim in Hk as [E2 Hk].
  apply orb_false_elim in Hk as [E3 _].
  unfold check_body_assertion; rewrite Hv; simpl bind.
  rewrite E1, E2, E3; reflexivity.
Qed.

(** C8 (counterexample): the value of a body expectation is extracted
    before its kind is examined; on the path [toString.caller] the
    extraction throws, so an unknown kind ("bogus") yields a TypeError
    instead of the unsupported-assertion error. *)
Lemma c8_extraction_throws_first :
  fst (run stub_transport c8_options) = Throw (TypeError poison_pill_msg).
Proof. reflexivity. Qed.

(** C8 (amended): when the run reaches a body expectation of unknown kind
    (the call returned, the status check and the earlier body
    expectations passed) and the value at its path is extracted, the run
    fails with [Error("Unsupported assertion: <kind>")]: the error is
    raised there and is the outcome of [processApiRequest]. *)
Theorem unsupported_assertion_propagates :
  forall transport o c resp ex responseBody pre p a post v,
    In c (snd (run transport o)) ->
    transport (tc_verb c) (tc_url c) (tc_options c) = Ok resp ->
    expect o = Some ex ->
    check_expectations (mkExpect (exp_status ex) None None) resp = Ok tt ->
    exp_body ex = Some (pre ++ (p, a) :: post)%list ->
    r_json resp = Ok responseBody ->
    fold_res (fun _ pa => check_body_assertion responseBody pa) tt pre = Ok tt ->
    getValueByPath responseBody p = Ok v ->
    existsb (String.eqb (assertion a)) ["toBeDefined"; "toEqual"; "toContain"] = false ->
    fst (run transport o) = Throw (Error ("Unsupported assertion: " ++ assertion a)).
Proof.
  intros transport o c resp ex responseBody pre p a post v Hin Ht He Hs Hb Hj Hpre Hv Hk.
  rewrite (run_after_call transport o c resp Hin Ht).
  unfold expectations_of, check_expectations; rewrite He.
  unfold check_expectations in Hs; cbn [exp_status exp_body] in Hs.
  destruct (match exp_status ex with
            | Some s => if negb (s =? 0)%Z then
                          if (r_status resp =? s)%Z then Ok tt else Throw (AssertionError "toBe")
                        else Ok tt
            | None => Ok tt
            end) as [[]|e|]; try discriminate.
  simpl bind; rewrite Hb, Hj; simpl bind.
  rewrite fold_res_app, Hpre; cbn [bind fold_res].
  rewrite (unknown_kind_throws responseBody p a v Hv Hk); reflexivity.
Qed.

(** An expectation "toMatch" after a passing "toBeDefined". *)
Lemma unsupported_assertion_propagates_witness :
  fst (run stub_transport c8_witness_options) = Throw (Error "Unsupported assertion: toMatch").
Proof.
  apply (unsupported_assertion_propagates stub_transport c8_witness_options
           (mkCall "get" "/x" (mkPlaywrightOptions [] None))
           (mkResponse 200 (Ok (JObj [("id", JNum 1); ("tags", JArr [JStr "x"; JStr "y"])])))
           (mkExpect (Some 200%Z)
              (Some [("id", mkAssertion "toBeDefined" JUndefined);
                     ("tags", mkAssertion "toMatch" (JStr "x"))]) None)
           (JObj [("id", JNum 1); ("tags", JArr [JStr "x"; JStr "y"])])
           [("id", mkAssertion "toBeDefined" JUndefined)] "tags" (mkAssertion "toMatch" (JStr "x"))
           [] (JArr [JStr "x"; JStr "y"])); try reflexivity.
  simpl; left; reflexivity.
Defined.

(** C4 (counterexample): under the header [Content-Type:
    application/json] the string body "[1,2]" reaches the transport as the
    parsed array, not as the string. *)
Lemma c4_string_body_parsed :
  snd (run stub_transport c4_options) =
  [mkCall "post" "/x" (mkPlaywrightOptions [("Content-Type", "application/json")]
                                           (Some (JArr [JNum 1; JNum 2])))].
Proof. reflexivity. Qed.

(** C4 (amended): for a string body [s], the transport receives the
    caller's headers and: no data when [s] is empty; [s] unchanged when
    neither the exact header [Content-Type] nor [content-type] has a value
    including "application/json"; otherwise [JSON.parse(s)] when it
    parses, and [s] unchanged when it throws. *)
Theorem string_body_handling :
  forall transport o s c,
    body o = Some (JStr s) ->
    In c (snd (run transport o)) ->
    po_headers (tc_options c) = header_map o /\
    (s = "" -> po_data (tc_options c) = None) /\
    (s <> "" ->
     (header_has_json (header_map o) "Content-Type" ||
      header_has_json (header_map o) "content-type") = false ->
     po_data (tc_options c) = Some (JStr s)) /\
    (s <> "" ->
     (header_has_json (header_map o) "Content-Type" ||
      header_has_json (header_map o) "content-type") = true ->
     (exists v, Json.parse s = Ok v /\ po_data (tc_options c) = Some v) \/
     (exists e, Json.parse s = Throw e /\ po_data (tc_options c) = Some (JStr s))).
Proof.
  intros transport o s c Hb Hin.
  destruct (run_calls transport o c Hin) as [url [po [Hp [_ [Hc _]]]]]; subst c; cbn [tc_options].
  destruct (prepared_inv o url po Hp) as [ro [Eb Ep]].
  unfold build_request_options in Eb; rewrite Hb in Eb; fold (header_map o) in Eb.
  cbn [truthy] in Eb.
  destruct (s =? "") eqn:Es; cbn [negb] in Eb; injection Eb as <-.
  - apply String.eqb_eq in Es; subst s.
    unfold to_playwright_options in Ep; cbn in Ep; injection Ep as <-.
    cbn; split; [reflexivity|]; split; [reflexivity|]; split; intros Hne; contradiction.
  - unfold to_playwright_options in Ep; cbn [ro_headers ro_data truthy] in Ep.
    rewrite Es in Ep; cbn [negb] in Ep.
    assert (s <> "") as Hne by (intros Heq; subst s; discriminate).
    destruct (header_has_json (header_map o) "Content-Type" ||
              header_has_json (header_map o) "content-type") eqn:Ej.
    + destruct (Json.parse s) as [v|e|] eqn:Epar; try discriminate; injection Ep as <-;
        (split; [reflexivity|]; split; [intros; contradiction|]; split; [discriminate|]).
      * intros _ _; left; exists v; split; reflexivity.
      * intros _ _; right; exists e; split; reflexivity.
    + injection Ep as <-.
      split; [reflexivity|]; split; [intros; contradiction|]; split; [reflexivity|discriminate].
Qed.

(** The hypotheses hold on the counterexample's request. *)
Lemma string_body_handling_witness :
  po_headers (mkPlaywrightOptions [("Content-Type", "application/json")]
                                  (Some (JArr [JNum 1; JNum 2]))) = [("Content-Type", "application/json")] /\
  ((exists v, Json.parse "[1,2]" = Ok v /\ Some (JArr [JNum 1; JNum 2]) = Some v) \/
   (exists e, Json.parse "[1,2]" = Throw e /\ Some (JArr [JNum 1; JNum 2]) = Some (JStr "[1,2]"))).
Proof.
  destruct (string_body_handling stub_transport c4_options "[1,2]"
              (mkCall "post" "/x" (mkPlaywrightOptions [("Content-Type", "application/json")]
                                                       (Some (JArr [JNum 1; JNum 2])))))
    as [Hh [_ [_ Hj]]].
  - reflexivity.
  - simpl; left; reflexivity.
  - split; [exact Hh|]; apply Hj; [discriminate | reflexivity].
Defined.

(** TRACE with no path parameters: no call, the unsupported-method error. *)
Lemma unsupported_method_no_call_witness :
  ~ In (toLowerCase (method (simple_options "TRACE" "/x"))) supported_methods /\
  snd (run stub_transport (simple_options "TRACE" "/x")) = [] /\
  prepared (simple_options "TRACE" "/x") = Ok ("/x", mkPlaywrightOptions [] None) /\
  fst (run stub_transport (simple_options "TRACE" "/x")) =
    Throw (Error "Unsupported HTTP method: TRACE").
Proof.
  assert (~ In (toLowerCase (method (simple_options "TRACE" "/x"))) supported_methods) as Hn
    by (simpl; intuition discriminate).
  destruct (unsupported_method_no_call stub_transport (simple_options "TRACE" "/x") Hn) as [H1 H2].
  split; [exact Hn|]; split; [exact H1|]; split; [reflexivity|].
  apply (H2 "/x" (mkPlaywrightOptions [] None)); reflexivity.
Defined.

End EngineFacts.

(** * Proofs: path substitution, query, body, extraction *)
Module HelperFacts.
Import ApiHelper Scenarios.

(** C2 (failing input): the key is pattern text in [new RegExp].  With
    the key [a.], [.] matches any character, so the placeholder [{ab}],
    which has no key, is replaced as well; and a [$&] in the value
    re-inserts the matched placeholder, so [{id}] is not replaced by the
    value. *)
Theorem path_substitution_key_is_pattern :
  process_path c2_path (Some c2_params) = Ok "/7/7" /\
  process_path "/a/{id}" (Some [("id", JStr "$&")]) = Ok "/a/{id}".
Proof. split; reflexivity. Qed.

(** The example of the spec: every occurrence is replaced. *)
Lemma path_substitution_repeated_placeholder :
  process_path "/a/{id}/b/{id}" (Some [("id", JNum 7)]) = Ok "/a/7/b/7".
Proof. reflexivity. Qed.

(** ** [getValueByPath] *)

Lemma js_get_throw v k e :
  js_get v k = Throw e ->
  v = JNull \/ v = JUndefined \/
  ((k = "caller" \/ k = "arguments") /\ e = TypeError poison_pill_msg).
Proof.
  intros H; destruct v; simpl in H; auto.
  - destruct (digit_key k) as [[z|]|]; discriminate.
  - destruct (digit_key k) as [[z|]|]; discriminate.
  - destruct (digit_key k) as [[z|]|]; [destruct (z <? _)%Z; [destruct (String.get _ _)|]|..];
      try discriminate; destruct (k =? "length"); discriminate.
  - destruct (digit_key k) as [[z|]|]; [destruct (z <? _)%Z|..]; try discriminate;
      destruct (k =? "length"); discriminate.
  - destruct (assoc k ps); [discriminate|].
    destruct (k =? "__proto__"); [discriminate|].
    destruct (k =? "constructor"); [discriminate|].
    destruct (_ || _); discriminate.
  - right; right.
    destruct ((k =? "caller") || (k =? "arguments")) eqn:E; [|discriminate].
    injection H as <-; split; [|reflexivity].
    apply orb_true_iff in E as [E|E]; apply String.eqb_eq in E; auto.
  - discriminate.
Qed.

Lemma walk_nullish v parts : v = JNull \/ v = JUndefined -> parts <> [] -> walk v parts = Ok JUndefined.
Proof. intros [-> | ->]; destruct parts; (contradiction || reflexivity). Qed.

Lemma walk_app v p q : walk v (p ++ q) = (w <- walk v p ;; walk w q).
Proof.
  revert v; induction p as [|x p IH]; intros v; simpl; [reflexivity|].
  destruct v; try (destruct q; reflexivity);
    (destruct (js_get _ x); simpl; [apply IH | reflexivity | reflexivity]).
Qed.

Lemma walk_throw v parts e :
  walk v parts = Throw e ->
  e = TypeError poison_pill_msg /\ exists seg, In seg parts /\ (seg = "caller" \/ seg = "arguments").
Proof.
  revert v; induction parts as [|x r IH]; intros v H; simpl in H; [discriminate|].
  assert (v = JNull \/ v = JUndefined \/ walk v (x :: r) = (n <- js_get v x ;; walk n r)) as Hv
    by (destruct v; auto).
  destruct Hv as [-> | [-> | Hv]]; [discriminate | discriminate |].
  simpl in Hv; rewrite Hv in H.
  destruct (js_get v x) as [n|e'|] eqn:Eg; simpl in H; try discriminate.
  - destruct (IH n H) as [He [seg [Hin Hs]]].
    split; [exact He|]; exists seg; split; [right; exact Hin | exact Hs].
  - injection H as <-.
    destruct (js_get_throw v x e' Eg) as [->|[->|[Hk He]]]; [discriminate | discriminate |].
    split; [exact He|]; exists x; split; [left; reflexivity | exact Hk].
Qed.

(** C6 (counterexample): [toString] of a parsed object is the built-in
    [Object.prototype.toString]; reading its [caller] reaches the throwing
    accessor of [Function.prototype], so extraction throws a TypeError. *)
Lemma c6_extraction_throws :
  getValueByPath (JObj [("id", JNum 1)]) "toString.caller" = Throw (TypeError poison_pill_msg).
Proof. reflexivity. Qed.

(** C6 (amended): traversal goes segment by segment and returns
    [undefined] as soon as a value reached before the last segment is
    [null] or [undefined]; reading [caller] or [arguments] from a built-in
    function reached along the path throws the poison-pill TypeError; and
    that TypeError is the only exception, thrown only on a path with a
    segment [caller] or [arguments]. *)
Theorem getValueByPath_short_circuit_and_throws :
  (forall obj path p1 rest v,
      split_dot path = (p1 ++ rest)%list -> rest <> [] ->
      walk obj p1 = Ok v -> (v = JNull \/ v = JUndefined) ->
      getValueByPath obj path = Ok JUndefined) /\
  (forall obj path p1 seg rest nm,
      split_dot path = (p1 ++ seg :: rest)%list ->
      walk obj p1 = Ok (JFun nm) -> (seg = "caller" \/ seg = "arguments") ->
      getValueByPath obj path = Throw (TypeError poison_pill_msg)) /\
  (forall obj path e,
      getValueByPath obj path = Throw e ->
      e = TypeError poison_pill_msg /\
      exists seg, In seg (split_dot path) /\ (seg = "caller" \/ seg = "arguments")).
Proof.
  split; [|split].
  - intros obj path p1 rest v Hs Hr Hw Hv.
    unfold getValueByPath; rewrite Hs, walk_app, Hw; simpl.
    apply walk_nullish; assumption.
  - intros obj path p1 seg rest nm Hs Hw Hseg.
    unfold getValueByPath; rewrite Hs, walk_app, Hw; simpl.
    destruct Hseg as [-> | ->]; reflexivity.
  - intros obj path e H; exact (walk_throw obj (split_dot path) e H).
Qed.

(** A missing intermediate segment, and the throwing path. *)
Lemma getValueByPath_short_circuit_and_throws_witness :
  getValueByPath (JObj [("a", JNull)]) "a.b.c" = Ok JUndefined /\
  getValueByPath (JObj [("a", JObj [])]) "a.toString.arguments" = Throw (TypeError poison_pill_msg) /\
  (TypeError poison_pill_msg = TypeError poison_pill_msg /\
   exists seg, In seg (split_dot "toString.caller") /\ (seg = "caller" \/ seg = "arguments")).
Proof.
  destruct getValueByPath_short_circuit_and_throws as [H1 [H3 H2]]; split; [|split].
  - apply (H1 (JObj [("a", JNull)]) "a.b.c" ["a"] ["b"; "c"] JNull);
      [reflexivity | discriminate | reflexivity | left; reflexivity].
  - apply (H3 (JObj [("a", JObj [])]) "a.toString.arguments" ["a"; "toString"] "arguments" []
             "Object.prototype.toString"); [reflexivity | reflexivity | right; reflexivity].
  - apply (H2 (JObj [("id", JNum 1)]) "toString.caller" (TypeError poison_pill_msg)); reflexivity.
Defined.

(** ** Query construction *)

Lemma fold_array (key : string) (acc : list (string * string)) (xs : list jsval) :
  fold_res (fun sp x => s <- js_to_string x ;; Ok (sp ++ [(key, s)])%list) acc xs =
  (ps <- map_res (fun x => s <- js_to_string x ;; Ok (key, s)) xs ;; Ok (acc ++ ps)%list).
Proof.
  revert acc; induction xs as [|x xs IH]; intros acc; simpl.
  - rewrite app_nil_r; reflexivity.
  - destruct (js_to_string x) as [s|e|]; simpl; [|reflexivity|reflexivity].
    rewrite IH.
    destruct (map_res _ xs); simpl; [|reflexivity..].
    rewrite <- app_assoc; reflexivity.
Qed.

Lemma append_param_pairs acc kv :
  append_param acc kv = (ps <- entry_pairs kv ;; Ok (acc ++ ps)%list).
Proof.
  destruct kv as [k v]; destruct v; try reflexivity;
    try (simpl; destruct (number_to_string _); reflexivity).
  apply fold_array.
Qed.

Lemma fold_append_param qp acc :
  fold_res append_param acc qp = (ps <- query_pairs qp ;; Ok (acc ++ ps)%list).
Proof.
  unfold query_pairs; revert acc; induction qp as [|kv qp IH]; intros acc; simpl.
  - rewrite app_nil_r; reflexivity.
  - rewrite append_param_pairs.
    destruct (entry_pairs kv) as [p|e|]; simpl; [|reflexivity..].
    rewrite IH.
    destruct (map_res entry_pairs qp); simpl; [|reflexivity..].
    rewrite app_assoc; reflexivity.
Qed.

(** C7: the query string is built from [query_pairs]: for each entry in
    order, one [key=value] pair per array element in array order, or one
    pair with the stringified scalar; pairs are form-encoded and joined
    with [&].  An absent or empty map adds no [?]. *)
Theorem query_construction :
  forall url qp,
    add_query url (Some qp) =
    (sp <- query_pairs qp ;;
     let queryString := search_params_to_string sp in
     if negb (queryString =? "")
     then Ok (url ++ (if includes url "?" then "&" else "?") ++ queryString)
     else Ok url) /\
    add_query url (Some []) = Ok url /\
    add_query url None = Ok url.
Proof.
  intros url qp; split; [|split; reflexivity].
  unfold add_query; rewrite fold_append_param.
  destruct (query_pairs qp); reflexivity.
Qed.

(** The example of the spec. *)
Lemma query_repeated_key_example :
  add_query "/items" (Some [("tag", JArr [JStr "x"; JStr "y"])]) = Ok "/items?tag=x&tag=y".
Proof. reflexivity. Qed.

(** ** Body and Content-Type *)

Lemma assoc_set_header_same hs k v : assoc k (set_header hs k v) = Some v.
Proof.
  induction hs as [|[k' v'] r IH]; simpl; [rewrite String.eqb_refl; reflexivity|].
  destruct (k =? k') eqn:E; simpl; [rewrite String.eqb_refl; reflexivity|].
  rewrite E; exact IH.
Qed.

Lemma assoc_set_header_other hs k k' v : k' <> k -> assoc k' (set_header hs k v) = assoc k' hs.
Proof.
  intros Hne; apply String.eqb_neq in Hne.
  induction hs as [|[k0 v0] r IH]; simpl; [rewrite Hne; reflexivity|].
  destruct (k =? k0) eqn:E; simpl.
  - apply String.eqb_eq in E; subst k0; rewrite Hne; reflexivity.
  - destruct (k' =? k0); [reflexivity | exact IH].
Qed.

(** C5 (counterexample): the caller's header [CONTENT-TYPE] is not seen;
    the request gets a second content type, [Content-Type:
    application/json]. *)
Lemma c5_other_spelling_not_seen :
  exists ro, build_request_options c5_options = Ok ro /\
             assoc "CONTENT-TYPE" (ro_headers ro) = Some "text/plain" /\
             assoc "Content-Type" (ro_headers ro) = Some "application/json".
Proof. eexists; split; [reflexivity | split; reflexivity]. Qed.

(** C5 (amended): an object or array body is sent as its JSON text; the
    header [Content-Type] becomes application/json unless the caller's
    exact header [content-type] or [Content-Type] has a non-empty value,
    in which case it is left as given; no other header changes. *)
Theorem structured_body_content_type :
  forall o b str,
    body o = Some b ->
    (exists ps, b = JObj ps) \/ (exists xs, b = JArr xs) ->
    Json.stringify b = Ok (Some str) ->
    exists ro,
      build_request_options o = Ok ro /\
      ro_data ro = Some (JStr str) /\
      assoc "Content-Type" (ro_headers ro) =
        (if header_truthy (header_map o) "content-type" || header_truthy (header_map o) "Content-Type"
         then assoc "Content-Type" (header_map o) else Some "application/json") /\
      (forall k, k <> "Content-Type" -> assoc k (ro_headers ro) = assoc k (header_map o)).
Proof.
  intros o b str Hb Hs Hj.
  unfold build_request_options; rewrite Hb; fold (header_map o).
  assert (truthy b = true /\ match b with JStr _ => False | _ => True end) as [Ht Hns]
    by (destruct Hs as [[ps ->]|[xs ->]]; split; reflexivity || exact I).
  rewrite Ht.
  destruct b as [| | | | s | | | |]; try (exfalso; exact Hns);
    rewrite Hj; cbn [bind option_map];
    (eexists; split; [reflexivity|]; cbn [ro_data ro_headers]; split; [reflexivity|]);
    (destruct (header_truthy (header_map o) "content-type") eqn:E1;
     destruct (header_truthy (header_map o) "Content-Type") eqn:E2; cbn [negb andb orb];
     (split; [try reflexivity; apply assoc_set_header_same|
              intros k Hk; try reflexivity; apply assoc_set_header_other; exact Hk])).
Qed.

(** An array body with the lower-case header set by the caller. *)
Lemma structured_body_content_type_witness :
  exists ro,
    build_request_options c5_witness_options = Ok ro /\
    ro_data ro = Some (JStr "[1,2]") /\
    assoc "Content-Type" (ro_headers ro) = None /\
    (forall k, k <> "Content-Type" ->
       assoc k (ro_headers ro) = assoc k [("content-type", "text/plain")]).
Proof.
  apply (structured_body_content_type c5_witness_options (JArr [JNum 1; JNum 2]) "[1,2]");
    [reflexivity | right; exists [JNum 1; JNum 2]; reflexivity | reflexivity].
Defined.

End HelperFacts.

(** * Properties of the decorators and of the suite's registration *)
Module DecoratorFacts.
Import ApiHelper Registry Decorators Suite DecoratorSpecs.

Lemma length_upd h l o : List.length (upd h l o) = List.length h.
Proof. revert l; induction h as [|x r IH]; intros [|l]; simpl; auto. Qed.

Lemma nth_error_upd h l o l' :
  nth_error (upd h l o) l' =
  if Nat.eqb l l' then (if Nat.ltb l (List.length h) then Some o else None) else nth_error h l'.
Proof.
  revert l l'; induction h as [|x r IH]; intros [|l] [|l']; cbn [upd nth_error List.length]; auto.
  all: try rewrite IH.
  all: try (destruct (Nat.eqb l l'); reflexivity).
  all: cbn.
  all: try reflexivity.
  all: try (destruct l'; reflexivity).
  all: try (destruct (Nat.eqb l l'); reflexivity).
Qed.

Lemma nth_error_snoc {A : Type} (h : list A) (o : A) l :
  nth_error (h ++ [o])%list l =
  if Nat.ltb l (List.length h) then nth_error h l
  else if Nat.eqb l (List.length h) then Some o else None.
Proof.
  destruct (Nat.ltb_spec l (List.length h)).
  - now apply nth_error_app1.
  - rewrite nth_error_app2 by lia.
    destruct (Nat.eqb_spec l (List.length h)).
    + subst. now rewrite Nat.sub_diag.
    + destruct (l - List.length h) eqn:E; [lia|]. simpl. now destruct n0.
Qed.

Lemma nth_error_some_lt {A} (h : list A) l a : nth_error h l = Some a -> l < List.length h.
Proof. intro H. apply nth_error_Some. congruence. Qed.

Lemma sbind_eq {A B} (m : SM A) (k : A -> SM B) s a s' :
  m s = Some (a, s') -> sbind m k s = k a s'.
Proof. intro H. unfold sbind. now rewrite H. Qed.

Ltac nth_rw :=
  repeat first [ rewrite nth_error_upd | rewrite nth_error_snoc | rewrite length_upd ].

Ltac cmp_cases :=
  repeat match goal with
  | |- context [Nat.eqb ?a ?b] => destruct (Nat.eqb_spec a b)
  | |- context [Nat.ltb ?a ?b] => destruct (Nat.ltb_spec a b)
  end.

Lemma upd_nth_cases k h l o l' :
  same_kind_below k h l o ->
  nth_error (upd h l o) l' = nth_error h l' \/
  (exists o0, nth_error h l' = Some o0 /\ kind o0 < k /\ nth_error (upd h l o) l' = Some o /\ kind o < k).
Proof.
  intros (o0 & E & K & L). rewrite nth_error_upd.
  destruct (Nat.eqb_spec l l'); [|now left].
  subst. right. exists o0. apply nth_error_some_lt in E as Hlt.
  destruct (Nat.ltb_spec l' (List.length h)); [|lia]. repeat split; auto; lia.
Qed.

Ltac upd_case k h l o l' Hs :=
  let E0 := fresh "E0" in let K0 := fresh "K0" in let E1 := fresh "E1" in let K1 := fresh "K1" in
  let o0 := fresh "o0" in
  destruct (upd_nth_cases k h l o l' Hs) as [-> | (o0 & E0 & K0 & E1 & K1)];
  [ | rewrite E0, E1; destruct o0; destruct o; simpl in K0, K1; try lia; reflexivity ].

Lemma same_kind_below_mono k k' h l o : same_kind_below k h l o -> k <= k' -> same_kind_below k' h l o.
Proof. intros (o0 & E & K & L) Hk. exists o0. repeat split; auto; lia. Qed.

(** [view_exp_obj] reads only [OBody] objects. *)
Lemma view_exp_obj_upd h l o e :
  same_kind_below 4 h l o -> view_exp_obj (upd h l o) e = view_exp_obj h e.
Proof.
  intro Hs. unfold view_exp_obj. destruct (e_body e) as [lb|]; [|reflexivity].
  upd_case 4 h l o lb Hs. reflexivity.
Qed.

Lemma view_exp_upd h l o le :
  same_kind_below 3 h l o -> view_exp (upd h l o) le = view_exp h le.
Proof.
  intro Hs. unfold view_exp.
  upd_case 3 h l o le Hs.
  destruct (nth_error h le) as [[]|]; try reflexivity.
  apply view_exp_obj_upd. eapply same_kind_below_mono; [exact Hs | lia].
Qed.

Lemma view_api_obj_upd h l o a :
  same_kind_below 3 h l o -> view_api_obj (upd h l o) a = view_api_obj h a.
Proof.
  intro Hs. unfold view_api_obj. destruct (a_expect a) as [le|]; [|reflexivity].
  now rewrite view_exp_upd.
Qed.

Lemma view_api_upd h l o la :
  same_kind_below 2 h l o -> view_api (upd h l o) la = view_api h la.
Proof.
  intro Hs. unfold view_api.
  upd_case 2 h l o la Hs.
  destruct (nth_error h la) as [[]|]; try reflexivity.
  apply view_api_obj_upd. eapply same_kind_below_mono; [exact Hs | lia].
Qed.

Lemma view_opts_obj_upd h l o x :
  same_kind_below 2 h l o -> view_opts_obj (upd h l o) x = view_opts_obj h x.
Proof.
  intro Hs. unfold view_opts_obj. destruct (o_api x) as [la|]; [|reflexivity].
  now rewrite view_api_upd.
Qed.

Lemma view_opts_upd h l o lo :
  same_kind_below 1 h l o -> view_opts (upd h l o) lo = view_opts h lo.
Proof.
  intro Hs. unfold view_opts.
  upd_case 1 h l o lo Hs.
  destruct (nth_error h lo) as [[]|]; try reflexivity.
  apply view_opts_obj_upd. eapply same_kind_below_mono; [exact Hs | lia].
Qed.

Lemma view_meta_obj_upd h l o m :
  same_kind_below 1 h l o -> view_meta_obj (upd h l o) m = view_meta_obj h m.
Proof. intro Hs. unfold view_meta_obj. now rewrite view_opts_upd. Qed.

(** An allocation leaves every defined view as it was. *)
Lemma nth_app_some {A} (h : list A) ext l a : nth_error h l = Some a -> nth_error (h ++ ext)%list l = Some a.
Proof. intro E. rewrite nth_error_app1; [exact E | eapply nth_error_some_lt; eauto]. Qed.

Lemma view_exp_obj_app h ext e v : view_exp_obj h e = Some v -> view_exp_obj (h ++ ext)%list e = Some v.
Proof.
  unfold view_exp_obj. destruct (e_body e) as [lb|]; [|auto].
  destruct (nth_error h lb) as [o1|] eqn:E; [|discriminate].
  rewrite (nth_app_some _ ext _ _ E). auto.
Qed.

Lemma view_exp_app h ext le v : view_exp h le = Some v -> view_exp (h ++ ext)%list le = Some v.
Proof.
  unfold view_exp. destruct (nth_error h le) as [o1|] eqn:E; [|discriminate].
  rewrite (nth_app_some _ ext _ _ E). destruct o1; try discriminate. apply view_exp_obj_app.
Qed.

Lemma view_api_obj_app h ext a v : view_api_obj h a = Some v -> view_api_obj (h ++ ext)%list a = Some v.
Proof.
  unfold view_api_obj. destruct (a_expect a) as [le|]; [|auto].
  destruct (view_exp h le) as [e|] eqn:E; [|discriminate].
  rewrite (view_exp_app _ ext _ _ E). auto.
Qed.

Lemma view_api_app h ext la v : view_api h la = Some v -> view_api (h ++ ext)%list la = Some v.
Proof.
  unfold view_api. destruct (nth_error h la) as [o1|] eqn:E; [|discriminate].
  rewrite (nth_app_some _ ext _ _ E). destruct o1; try discriminate. apply view_api_obj_app.
Qed.

Lemma view_opts_obj_app h ext x v : view_opts_obj h x = Some v -> view_opts_obj (h ++ ext)%list x = Some v.
Proof.
  unfold view_opts_obj. destruct (o_api x) as [la|]; [|auto].
  destruct (view_api h la) as [a|] eqn:E; [|discriminate].
  rewrite (view_api_app _ ext _ _ E). auto.
Qed.

Lemma view_opts_app h ext lo v : view_opts h lo = Some v -> view_opts (h ++ ext)%list lo = Some v.
Proof.
  unfold view_opts. destruct (nth_error h lo) as [o1|] eqn:E; [|discriminate].
  rewrite (nth_app_some _ ext _ _ E). destruct o1; try discriminate. apply view_opts_obj_app.
Qed.

Lemma view_meta_obj_app h ext m v : view_meta_obj h m = Some v -> view_meta_obj (h ++ ext)%list m = Some v.
Proof.
  unfold view_meta_obj. destruct (view_opts h (m_options m)) as [x|] eqn:E; [|discriminate].
  rewrite (view_opts_app _ ext _ _ E). auto.
Qed.

Lemma view_meta_app h ext lm v : view_meta h lm = Some v -> view_meta (h ++ ext)%list lm = Some v.
Proof.
  unfold view_meta. destruct (nth_error h lm) as [o1|] eqn:E; [|discriminate].
  rewrite (nth_app_some _ ext _ _ E). destruct o1; try discriminate. apply view_meta_obj_app.
Qed.

Lemma kind_at_some h l k : kind_at h l = Some k -> exists o, nth_error h l = Some o /\ kind o = k.
Proof. unfold kind_at. destruct (nth_error h l); simpl; intro E; inversion E; eauto. Qed.

Lemma at_meta_kind h l : at_meta h l <-> kind_at h l = Some 0.
Proof. unfold at_meta, kind_at. destruct (nth_error h l) as [[]|]; simpl; split; intro; try congruence; tauto. Qed.

Lemma at_opts_kind h l : at_opts h l <-> kind_at h l = Some 1.
Proof. unfold at_opts, kind_at. destruct (nth_error h l) as [[]|]; simpl; split; intro; try congruence; tauto. Qed.

Lemma at_api_kind h l : at_api h l <-> kind_at h l = Some 2.
Proof. unfold at_api, kind_at. destruct (nth_error h l) as [[]|]; simpl; split; intro; try congruence; tauto. Qed.

Lemma at_exp_kind h l : at_exp h l <-> kind_at h l = Some 3.
Proof. unfold at_exp, kind_at. destruct (nth_error h l) as [[]|]; simpl; split; intro; try congruence; tauto. Qed.

Lemma at_body_kind h l : at_body h l <-> kind_at h l = Some 4.
Proof. unfold at_body, kind_at. destruct (nth_error h l) as [[]|]; simpl; split; intro; try congruence; tauto. Qed.

Lemma obj_wf_mono h h' o : kinds_mono h h' -> obj_wf h o -> obj_wf h' o.
Proof.
  intros M. destruct o as [m|o|a|e|b]; simpl.
  - rewrite !at_opts_kind. apply M.
  - destruct (o_api o); [rewrite !at_api_kind; apply M | auto].
  - destruct (a_expect a); [rewrite !at_exp_kind; apply M | auto].
  - destruct (e_body e); [rewrite !at_body_kind; apply M | auto].
  - auto.
Qed.

Lemma at_meta_mono h h' l : kinds_mono h h' -> at_meta h l -> at_meta h' l.
Proof. intros M. rewrite !at_meta_kind. apply M. Qed.

Lemma kinds_mono_app h ext : kinds_mono h (h ++ ext)%list.
Proof.
  intros l k E. apply kind_at_some in E as (o & E & K).
  unfold kind_at. rewrite (nth_app_some _ ext _ _ E). simpl. congruence.
Qed.

Lemma kinds_mono_upd h l o o0 : nth_error h l = Some o0 -> kind o0 = kind o -> kinds_mono h (upd h l o).
Proof.
  intros E K l' k E'. unfold kind_at in *. rewrite nth_error_upd.
  destruct (Nat.eqb_spec l l'); [|exact E'].
  subst. apply nth_error_some_lt in E as Hlt. destruct (Nat.ltb_spec l' (List.length h)); [|lia].
  rewrite E in E'. simpl in *. congruence.
Qed.

Lemma Forall_upd (P : obj -> Prop) h l o : Forall P h -> P o -> Forall P (upd h l o).
Proof.
  revert l; induction h as [|x r IH]; intros [|l] F Po; simpl; auto; inversion F; subst; constructor; auto.
Qed.

Lemma heap_wf_mono h h' hs : kinds_mono h h' -> Forall (obj_wf h) hs -> Forall (obj_wf h') hs.
Proof. intros M F. eapply Forall_impl; [|exact F]. intros o. now apply obj_wf_mono. Qed.

Lemma wf_alloc es h o : wf (mkSt es h) -> obj_wf h o -> wf (mkSt es (h ++ [o])%list).
Proof.
  intros [Hh He] Ho. simpl in *. split; simpl.
  - apply Forall_app; split.
    + eapply heap_wf_mono; [apply kinds_mono_app | exact Hh].
    + constructor; [|constructor]. eapply obj_wf_mono; [apply kinds_mono_app | exact Ho].
  - eapply Forall_impl; [|exact He]. intros [t l]. apply at_meta_mono, kinds_mono_app.
Qed.

Lemma wf_write es h l o o0 :
  wf (mkSt es h) -> nth_error h l = Some o0 -> kind o0 = kind o -> obj_wf h o ->
  wf (mkSt es (upd h l o)).
Proof.
  intros [Hh He] E K Ho. simpl in *. pose proof (kinds_mono_upd _ _ _ _ E K) as M. split; simpl.
  - apply Forall_upd; [eapply heap_wf_mono; eauto | eapply obj_wf_mono; eauto].
  - eapply Forall_impl; [|exact He]. intros [t l']. apply at_meta_mono, M.
Qed.

Lemma map_get_set m t l t' :
  map_get (map_set m t l) t' = if token_eqb t' t then Some l else map_get m t'.
Proof.
  induction m as [|[t1 l1] r IH]; simpl.
  - destruct (token_eqb t' t); reflexivity.
  - destruct (token_eqb t t1) eqn:E1; simpl.
    + apply RegistryFacts.token_eqb_true in E1. subst t1.
      destruct (token_eqb t' t); reflexivity.
    + destruct (token_eqb t' t1) eqn:E2; [|exact IH].
      apply RegistryFacts.token_eqb_true in E2. subst t1.
      destruct (token_eqb t' t) eqn:E3; [|reflexivity].
      apply RegistryFacts.token_eqb_true in E3. subst. rewrite RegistryFacts.token_eqb_refl in E1. discriminate.
Qed.

Lemma in_map_set m t l p : In p (map_set m t l) -> p = (t, l) \/ In p m.
Proof.
  induction m as [|[t1 l1] r IH]; simpl; intros H.
  - destruct H as [H|[]]; auto.
  - destruct (token_eqb t t1).
    + destruct H as [H|H]; auto.
    + destruct H as [H|H]; auto. destruct (IH H); auto.
Qed.

Lemma wf_store es h t l : wf (mkSt es h) -> at_meta h l -> wf (mkSt (map_set es t l) h).
Proof.
  intros [Hh He] Hl. simpl in *. split; simpl; auto.
  apply Forall_forall. intros p Hp. apply in_map_set in Hp as [->|Hp]; auto.
  rewrite Forall_forall in He. now apply He.
Qed.

Lemma heap_wf_nth h l o : Forall (obj_wf h) h -> nth_error h l = Some o -> obj_wf h o.
Proof. intros F E. rewrite Forall_forall in F. apply F. eapply nth_error_In; eauto. Qed.

Lemma wf_view_exp h l : Forall (obj_wf h) h -> at_exp h l -> exists v, view_exp h l = Some v.
Proof.
  intros F A. unfold at_exp in A. unfold view_exp.
  destruct (nth_error h l) as [[| | |e|]|] eqn:E; try contradiction.
  pose proof (heap_wf_nth _ _ _ F E) as W; simpl in W. unfold view_exp_obj.
  destruct (e_body e) as [lb|]; [|eauto]. unfold at_body in W.
  destruct (nth_error h lb) as [[]|]; try contradiction; eauto.
Qed.

Lemma wf_view_api h l : Forall (obj_wf h) h -> at_api h l -> exists v, view_api h l = Some v.
Proof.
  intros F A. unfold at_api in A. unfold view_api.
  destruct (nth_error h l) as [[|?|a|?|]|] eqn:E; try contradiction.
  pose proof (heap_wf_nth _ _ _ F E) as W; simpl in W. unfold view_api_obj.
  destruct (a_expect a) as [le|]; [|eauto].
  destruct (wf_view_exp h le F W) as [v ->]. eauto.
Qed.

Lemma wf_view_opts h l : Forall (obj_wf h) h -> at_opts h l -> exists v, view_opts h l = Some v.
Proof.
  intros F A. unfold at_opts in A. unfold view_opts.
  destruct (nth_error h l) as [[|o| | |]|] eqn:E; try contradiction.
  pose proof (heap_wf_nth _ _ _ F E) as W; simpl in W. unfold view_opts_obj.
  destruct (o_api o) as [la|]; [|eauto].
  destruct (wf_view_api h la F W) as [v ->]. eauto.
Qed.

Lemma wf_view_meta h l : Forall (obj_wf h) h -> at_meta h l -> exists v, view_meta h l = Some v.
Proof.
  intros F A. unfold at_meta in A. unfold view_meta.
  destruct (nth_error h l) as [[m| | | |]|] eqn:E; try contradiction.
  pose proof (heap_wf_nth _ _ _ F E) as W; simpl in W. unfold view_meta_obj.
  destruct (wf_view_opts h _ F W) as [v ->]. eauto.
Qed.

Lemma map_get_in m t l : map_get m t = Some l -> In (t, l) m.
Proof.
  induction m as [|[t1 l1] r IH]; simpl; [discriminate|].
  destruct (token_eqb t t1) eqn:E.
  - apply RegistryFacts.token_eqb_true in E. subst. intro H; inversion H; auto.
  - intro H; right; auto.
Qed.

Lemma wf_entry s t l : wf s -> map_get (entries s) t = Some l -> at_meta (hp s) l.
Proof.
  intros [_ He] E. rewrite Forall_forall in He. apply (He (t, l)). now apply map_get_in.
Qed.

Lemma view_meta_at h l r : view_meta h l = Some r -> at_meta h l.
Proof. unfold view_meta, at_meta. destruct (nth_error h l) as [[]|]; congruence || auto. Qed.

Lemma nth_error_last {A} (h : list A) (o : A) : nth_error (h ++ [o])%list (List.length h) = Some o.
Proof. rewrite nth_error_app2 by lia. now rewrite Nat.sub_diag. Qed.

Lemma get_or_new_spec s t nm :
  wf s ->
  exists lm s1, get_or_new t nm s = Some (lm, s1) /\ entries s1 = entries s /\ wf s1 /\
    view_meta (hp s1) lm =
      Some (match rec_view s t with Some r => r | None => mkMetadata MTest nm empty_options end) /\
    (exists ext, hp s1 = (hp s ++ ext)%list) /\
    match map_get (entries s) t with Some l => lm = l | None => True end.
Proof.
  intros W. destruct s as [es h]. unfold get_or_new, sbind, mget, rec_view. simpl.
  destruct (map_get es t) as [l|] eqn:E.
  - pose proof (wf_entry _ _ _ W E) as A. destruct W as [Hh He].
    destruct (wf_view_meta _ _ Hh A) as [r Hr]. simpl in Hr, A, Hh, He.
    exists l, (mkSt es h). cbn [hp entries]. rewrite Hr. split; [reflexivity|]. split; [reflexivity|]. split; [split; auto|].
    split; [reflexivity|]. split; [|reflexivity]. exists []. now rewrite app_nil_r.
  - unfold alloc, sret. simpl. eexists _, _. split; [reflexivity|]. simpl.
    split; [reflexivity|]. split; [|split; [|split; [|exact I]]].
    + apply wf_alloc; [apply wf_alloc; [exact W | exact I] | ].
      simpl. unfold at_opts. now rewrite nth_error_last.
    + unfold view_meta. rewrite nth_error_last. unfold view_meta_obj; simpl.
      unfold view_opts. rewrite (nth_app_some _ _ _ _ (nth_error_last _ _)). reflexivity.
    + eexists. now rewrite <- app_assoc.
Qed.

Lemma nth_upd_other h l o l' : l <> l' -> nth_error (upd h l o) l' = nth_error h l'.
Proof. intro N. rewrite nth_error_upd. destruct (Nat.eqb_spec l l'); [contradiction | reflexivity]. Qed.

Lemma nth_upd_same h l o o0 : nth_error h l = Some o0 -> nth_error (upd h l o) l = Some o.
Proof.
  intro E. apply nth_error_some_lt in E. rewrite nth_error_upd, Nat.eqb_refl.
  destruct (Nat.ltb_spec l (List.length h)); [reflexivity | lia].
Qed.

Lemma view_meta_inv h lm r :
  view_meta h lm = Some r ->
  exists m o v, nth_error h lm = Some (OMeta m) /\ nth_error h (m_options m) = Some (OOpts o) /\
    view_opts_obj h o = Some v /\ r = mkMetadata (m_type m) (m_name m) v.
Proof.
  unfold view_meta. destruct (nth_error h lm) as [[m| | | |]|] eqn:E1; try discriminate.
  unfold view_meta_obj, view_opts. destruct (nth_error h (m_options m)) as [[|o| | |]|] eqn:E2; try discriminate.
  destruct (view_opts_obj h o) as [v|] eqn:E; [|discriminate].
  intro H; inversion H; subst. exists m, o, v. auto.
Qed.

Lemma view_opts_obj_inv h o v :
  view_opts_obj h o = Some v ->
  (o_api o = None /\ v = options_of o None) \/
  (exists la a, o_api o = Some la /\ view_api h la = Some a /\ v = options_of o (Some a)).
Proof.
  unfold view_opts_obj. destruct (o_api o) as [la|].
  - destruct (view_api h la) as [a|] eqn:E; [|discriminate]. intro H; inversion H; subst. right; eauto.
  - intro H; inversion H; subst. left; auto.
Qed.

Lemma view_api_inv h la f :
  view_api h la = Some f -> exists a, nth_error h la = Some (OApi a) /\ view_api_obj h a = Some f.
Proof. unfold view_api. destruct (nth_error h la) as [[| |a| |]|] eqn:E; try discriminate. eauto. Qed.

Lemma view_api_obj_inv h a f :
  view_api_obj h a = Some f ->
  (a_expect a = None /\ f = frag_of a None) \/
  (exists le e, a_expect a = Some le /\ view_exp h le = Some e /\ f = frag_of a (Some e)).
Proof.
  unfold view_api_obj. destruct (a_expect a) as [le|].
  - destruct (view_exp h le) as [e|] eqn:E; [|discriminate]. intro H; inversion H; subst. right; eauto.
  - intro H; inversion H; subst. left; auto.
Qed.

Lemma view_exp_inv h le e :
  view_exp h le = Some e -> exists eo, nth_error h le = Some (OExp eo) /\ view_exp_obj h eo = Some e.
Proof. unfold view_exp. destruct (nth_error h le) as [[| | |eo|]|] eqn:E; try discriminate. eauto. Qed.

Lemma view_exp_obj_inv h eo e :
  view_exp_obj h eo = Some e ->
  (e_body eo = None /\ e = mkExpect (e_status eo) None (e_schema eo)) \/
  (exists lb b, e_body eo = Some lb /\ nth_error h lb = Some (OBody b) /\
                e = mkExpect (e_status eo) (Some b) (e_schema eo)).
Proof.
  unfold view_exp_obj. destruct (e_body eo) as [lb|].
  - destruct (nth_error h lb) as [[| | | |b]|] eqn:E; try discriminate.
    intro H; inversion H; subst. right; eauto.
  - intro H; inversion H; subst. left; auto.
Qed.

Ltac neq_kind := let H := fresh in intro H; subst; congruence.

Lemma ensure_api_spec s lm r :
  wf s -> view_meta (hp s) lm = Some r ->
  exists la s1, ensure_api lm s = Some (la, s1) /\ entries s1 = entries s /\ wf s1 /\
    api_loc (hp s1) lm la /\ view_meta (hp s1) lm = Some (meta_set_api r (Some (api_or_empty r))).
Proof.
  destruct s as [es h]; simpl. intros W V.
  destruct (view_meta_inv _ _ _ V) as (m & o & v & Em & Eo & Vo & ->).
  unfold ensure_api, sbind, read_meta, read_opts. cbn [hp entries]. rewrite Em. simpl. rewrite Eo. simpl.
  destruct (view_opts_obj_inv _ _ _ Vo) as [[Ea ->] | (la & a & Ea & Va & ->)]; rewrite Ea.
  - unfold alloc, write, sret; cbn [hp entries].
    assert (Eo' : nth_error (h ++ [OApi empty_api])%list (m_options m) = Some (OOpts o))
      by now apply nth_app_some.
    rewrite Eo'. eexists _, _. split; [reflexivity|]. simpl.
    assert (Hlt : m_options m < List.length h) by (eapply nth_error_some_lt; eauto).
    assert (Nm : m_options m <> lm) by neq_kind.
    assert (Na : m_options m <> List.length h) by lia.
    split; [reflexivity|]. split; [|split].
    + eapply wf_write; [apply wf_alloc; [exact W | exact I] | exact Eo' | reflexivity |].
      simpl. unfold at_api. now rewrite nth_error_last.
    + exists m, (opts_with_api o (Some (List.length h))).
      rewrite nth_upd_other by auto. rewrite (nth_app_some _ _ _ _ Em).
      split; [reflexivity|]. split; [eapply nth_upd_same; eauto | reflexivity].
    + unfold view_meta. rewrite nth_upd_other by auto. rewrite (nth_app_some _ _ _ _ Em).
      unfold view_meta_obj, view_opts. rewrite (nth_upd_same _ _ _ _ Eo').
      unfold view_opts_obj, view_api. simpl. rewrite nth_upd_other by auto. rewrite nth_error_last.
      reflexivity.
  - unfold sret. eexists _, _. split; [reflexivity|]. simpl.
    split; [reflexivity|]. split; [exact W|]. split; [exists m, o; auto|].
    unfold view_meta. rewrite Em. unfold view_meta_obj, view_opts. rewrite Eo.
    unfold view_opts_obj. rewrite Ea, Va. reflexivity.
Qed.

Lemma set_api_spec s lm la f g r :
  wf s -> api_loc (hp s) lm la -> view_meta (hp s) lm = Some r ->
  (forall a, a_expect (f a) = a_expect a) ->
  (forall a ex, frag_of (f a) ex = g (frag_of a ex)) ->
  exists s1, set_api f la s = Some (tt, s1) /\ entries s1 = entries s /\ wf s1 /\
    api_loc (hp s1) lm la /\ view_meta (hp s1) lm = Some (meta_set_api r (option_map g (api (moptions r)))).
Proof.
  destruct s as [es h]; simpl. intros W (m & o & Em & Eo & Ea) V Hf Hg.
  destruct (view_meta_inv _ _ _ V) as (m' & o' & v & Em' & Eo' & Vo & ->).
  rewrite Em in Em'. inversion Em'; subst m'. rewrite Eo in Eo'. inversion Eo'; subst o'.
  unfold view_opts_obj in Vo. rewrite Ea in Vo.
  destruct (view_api h la) as [fa|] eqn:Va; [|discriminate]. inversion Vo; subst v. clear Vo.
  destruct (view_api_inv _ _ _ Va) as (a & Eaa & Vaa).
  unfold set_api, sbind, read_api, write. cbn [hp entries]. rewrite Eaa. cbn [hp entries]. rewrite Eaa.
  eexists. split; [reflexivity|]. cbn [hp entries].
  assert (N1 : la <> lm) by neq_kind. assert (N2 : la <> m_options m) by neq_kind.
  assert (Sk : same_kind_below 3 h la (OApi (f a))) by (exists (OApi a); repeat split; auto).
  split; [reflexivity|]. split; [|split].
  - eapply wf_write; [exact W | exact Eaa | reflexivity |]. simpl. rewrite Hf.
    destruct W as [Hh _]. exact (heap_wf_nth _ _ _ Hh Eaa).
  - exists m, o. rewrite !nth_upd_other by auto. auto.
  - unfold view_meta. rewrite nth_upd_other by auto. rewrite Em.
    unfold view_meta_obj, view_opts. rewrite nth_upd_other by auto. rewrite Eo.
    unfold view_opts_obj. rewrite Ea. unfold view_api. rewrite (nth_upd_same _ _ _ _ Eaa).
    rewrite view_api_obj_upd by exact Sk.
    unfold view_api_obj in *. rewrite Hf.
    destruct (a_expect a) as [le|].
    + destruct (view_exp h le) as [e|]; [|discriminate]. inversion Vaa; subst fa.
      simpl. now rewrite Hg.
    + inversion Vaa; subst fa. simpl. now rewrite Hg.
Qed.

Lemma mstore_eq t l s : mstore t l s = Some (tt, mkSt (map_set (entries s) t l) (hp s)).
Proof. reflexivity. Qed.

Lemma rec_view_store es h t l t' :
  rec_view (mkSt (map_set es t l) h) t' =
  if token_eqb t' t then view_meta h l else rec_view (mkSt es h) t'.
Proof. unfold rec_view. simpl. rewrite map_get_set. destruct (token_eqb t' t); reflexivity. Qed.

Lemma keys_map_set m t l k : In k (map fst (map_set m t l)) -> k = t \/ In k (map fst m).
Proof.
  intro H. apply in_map_iff in H as ([k' l'] & <- & H). apply in_map_set in H as [H|H].
  - inversion H; auto.
  - right. apply in_map_iff. exists (k', l'). auto.
Qed.

Lemma map_set_nodup m t l : NoDup (map fst m) -> NoDup (map fst (map_set m t l)).
Proof.
  induction m as [|[t' l'] r IH]; intro N; simpl.
  - constructor; [simpl; tauto | constructor].
  - inversion N; subst. destruct (token_eqb t t') eqn:E.
    + apply RegistryFacts.token_eqb_true in E. subst. simpl. constructor; auto.
    + simpl. constructor; [|auto]. intro Hin. apply keys_map_set in Hin as [Hin|Hin]; [|tauto].
      subst. rewrite RegistryFacts.token_eqb_refl in E. discriminate.
Qed.

Lemma touches_refl es ts : touches es es ts.
Proof. split; [|split]; eauto. Qed.

Lemma touches_set es t l ts : In t ts -> touches es (map_set es t l) ts.
Proof.
  intro Ht. split; [|split].
  - intros t' N. rewrite map_get_set. destruct (token_eqb t' t) eqn:E; auto.
    apply RegistryFacts.token_eqb_true in E. subst. contradiction.
  - intros t' l' H. apply in_map_set in H as [H|H]; [inversion H; subst; auto | eauto].
  - apply map_set_nodup.
Qed.

Lemma touches_trans es1 es2 es3 ts : touches es1 es2 ts -> touches es2 es3 ts -> touches es1 es3 ts.
Proof.
  intros (A1 & B1 & C1) (A2 & B2 & C2). split; [|split].
  - intros t N. rewrite A2, A1; auto.
  - intros t l H. destruct (B2 t l H) as [(l' & H')|H']; [exact (B1 t l' H') | auto].
  - auto.
Qed.

Lemma fn_not_key x : fn x <> pkey_token (key x).
Proof. unfold fn; destruct (key x); simpl; discriminate. Qed.

Lemma fn_not_proto x : fn x <> proto x.
Proof. unfold fn, proto; discriminate. Qed.

Lemma key_not_cls x : pkey_token (key x) <> cls x.
Proof. unfold cls; destruct (key x); simpl; discriminate. Qed.

Lemma token_eqb_neq a b : a <> b -> token_eqb a b = false.
Proof. apply RegistryFacts.token_eqb_false. Qed.

Lemma with_effect_set_api d r :
  with_effect d r = meta_set_api r (Some (dec_effect d (api_or_empty r))).
Proof. reflexivity. Qed.

Lemma meta_set_api_twice r a b : meta_set_api (meta_set_api r a) b = meta_set_api r b.
Proof. reflexivity. Qed.

Lemma PathParams_spec ps x s :
  wf s ->
  exists lm s', PathParams ps x s = Some (tt, s') /\ wf s' /\
    rec_view s' (fn x) = Some (with_effect (DPathParams ps) (base_record s x)) /\
    entries s' = map_set (entries s) (fn x) lm /\
    match map_get (entries s) (fn x) with Some l => lm = l | None => True end.
Proof.
  intros W.
  destruct (get_or_new_spec s (fn x) (pkey_string (key x)) W) as (lm & s1 & E1 & Ent1 & W1 & V1 & _ & Hl1).
  destruct (ensure_api_spec s1 lm _ W1 V1) as (la & s2 & E2 & Ent2 & W2 & L2 & V2).
  destruct (set_api_spec s2 lm la (fun a => api_with_pathParams a (Some ps))
              (dec_effect (DPathParams ps)) _ W2 L2 V2 (fun a => eq_refl) (fun a ex => eq_refl))
    as (s3 & E3 & Ent3 & W3 & L3 & V3).
  unfold PathParams. rewrite (sbind_eq _ _ _ _ _ E1), (sbind_eq _ _ _ _ _ E2), (sbind_eq _ _ _ _ _ E3).
  rewrite mstore_eq. exists lm. eexists. split; [reflexivity|]. split; [|split; [|split]].
  - destruct s3 as [es3 h3]. apply wf_store; auto. eapply view_meta_at; eauto.
  - destruct s3 as [es3 h3]. rewrite rec_view_store, RegistryFacts.token_eqb_refl. simpl in V3 |- *.
    rewrite V3. reflexivity.
  - simpl. congruence.
  - exact Hl1.
Qed.

Lemma api_loc_view h lm la r :
  api_loc h lm la -> view_meta h lm = Some r ->
  exists m o a fa, nth_error h lm = Some (OMeta m) /\ nth_error h (m_options m) = Some (OOpts o) /\
    o_api o = Some la /\ nth_error h la = Some (OApi a) /\ view_api_obj h a = Some fa /\
    r = mkMetadata (m_type m) (m_name m) (options_of o (Some fa)).
Proof.
  intros (m & o & Em & Eo & Ea) V.
  destruct (view_meta_inv _ _ _ V) as (m' & o' & v & Em' & Eo' & Vo & ->).
  rewrite Em in Em'. inversion Em'; subst m'. rewrite Eo in Eo'. inversion Eo'; subst o'.
  unfold view_opts_obj in Vo. rewrite Ea in Vo.
  destruct (view_api h la) as [fa|] eqn:Va; [|discriminate]. inversion Vo; subst v.
  destruct (view_api_inv _ _ _ Va) as (a & Eaa & Vaa). exists m, o, a, fa. auto 7.
Qed.

Lemma ensure_expect_spec s lm la r :
  wf s -> api_loc (hp s) lm la -> view_meta (hp s) lm = Some r ->
  exists le s1, ensure_expect la s = Some (le, s1) /\ entries s1 = entries s /\ wf s1 /\
    exp_loc (hp s1) lm le /\
    view_meta (hp s1) lm =
      Some (meta_set_api r (option_map (fun a => frag_set_expect a (Some (expect_or_empty a)))
                                       (api (moptions r)))).
Proof.
  destruct s as [es h]; simpl. intros W L V.
  destruct (api_loc_view _ _ _ _ L V) as (m & o & a & fa & Em & Eo & Ea & Eaa & Vaa & ->).
  unfold ensure_expect, sbind, read_api. cbn [hp entries]. rewrite Eaa. simpl.
  assert (Nm : la <> lm) by neq_kind. assert (No : la <> m_options m) by neq_kind.
  destruct (view_api_obj_inv _ _ _ Vaa) as [[Ee ->] | (le & e & Ee & Ve & ->)]; rewrite Ee.
  - unfold alloc, write, sret; cbn [hp entries].
    assert (Ea' : nth_error (h ++ [OExp empty_exp])%list la = Some (OApi a)) by now apply nth_app_some.
    rewrite Ea'. eexists _, _. split; [reflexivity|]. cbn [hp entries].
    assert (Hlt : la < List.length h) by (eapply nth_error_some_lt; eauto).
    assert (Nl : la <> List.length h) by lia.
    split; [reflexivity|]. split; [|split].
    + eapply wf_write; [apply wf_alloc; [exact W | exact I] | exact Ea' | reflexivity |].
      simpl. unfold at_exp. now rewrite nth_error_last.
    + exists la, (api_with_expect a (Some (List.length h))). split; [|split; [eapply nth_upd_same; eauto | reflexivity]].
      exists m, o. rewrite !nth_upd_other by auto. rewrite !(nth_app_some _ _ _ _ Em), !(nth_app_some _ _ _ _ Eo). auto.
    + unfold view_meta. rewrite nth_upd_other by auto. rewrite (nth_app_some _ _ _ _ Em).
      unfold view_meta_obj, view_opts. rewrite nth_upd_other by auto. rewrite (nth_app_some _ _ _ _ Eo).
      unfold view_opts_obj. rewrite Ea. unfold view_api. rewrite (nth_upd_same _ _ _ _ Ea').
      unfold view_api_obj, view_exp. simpl. rewrite nth_upd_other by auto. rewrite nth_error_last.
      reflexivity.
  - unfold sret. eexists _, _. split; [reflexivity|]. cbn [hp entries].
    split; [reflexivity|]. split; [exact W|]. split; [exists la, a; split; [exists m, o|]; auto|].
    unfold view_meta. rewrite Em. unfold view_meta_obj, view_opts. rewrite Eo.
    unfold view_opts_obj. rewrite Ea. unfold view_api. rewrite Eaa. unfold view_api_obj. rewrite Ee, Ve.
    reflexivity.
Qed.

Lemma exp_loc_view h lm le r :
  exp_loc h lm le -> view_meta h lm = Some r ->
  exists m o la a eo e, nth_error h lm = Some (OMeta m) /\ nth_error h (m_options m) = Some (OOpts o) /\
    o_api o = Some la /\ nth_error h la = Some (OApi a) /\ a_expect a = Some le /\
    nth_error h le = Some (OExp eo) /\ view_exp_obj h eo = Some e /\
    r = mkMetadata (m_type m) (m_name m) (options_of o (Some (frag_of a (Some e)))).
Proof.
  intros (la & a & L & Eaa & Ee) V.
  destruct (api_loc_view _ _ _ _ L V) as (m & o & a' & fa & Em & Eo & Ea & Eaa' & Vaa & ->).
  rewrite Eaa in Eaa'. inversion Eaa'; subst a'.
  unfold view_api_obj in Vaa. rewrite Ee in Vaa.
  destruct (view_exp h le) as [e|] eqn:Ve; [|discriminate]. inversion Vaa; subst fa.
  destruct (view_exp_inv _ _ _ Ve) as (eo & Eeo & Veo). exists m, o, la, a, eo, e. auto 10.
Qed.

Lemma exp_write_spec {B : Type} s lm le r (F : exp_obj -> exp_obj) (G : expect_opts -> expect_opts)
  (K : SM B) :
  wf s -> exp_loc (hp s) lm le -> view_meta (hp s) lm = Some r ->
  (forall e, e_body (F e) = e_body e) ->
  (forall e bo, mkExpect (e_status (F e)) bo (e_schema (F e)) = G (mkExpect (e_status e) bo (e_schema e))) ->
  exists s1, (e <~ read_exp le ;; _ <~ write le (OExp (F e)) ;; K) s = K s1 /\
    entries s1 = entries s /\ wf s1 /\ exp_loc (hp s1) lm le /\
    view_meta (hp s1) lm =
      Some (meta_set_api r (option_map (fun a => frag_set_expect a (option_map G (api_expect a)))
                                       (api (moptions r)))).
Proof.
  destruct s as [es h]; simpl. intros W L V HF HG.
  pose proof L as L0.
  destruct (exp_loc_view _ _ _ _ L V) as (m & o & la & a & eo & e & Em & Eo & Ea & Eaa & Ee & Eeo & Veo & ->).
  unfold sbind, read_exp, write. cbn [hp entries]. rewrite Eeo. cbn [hp entries]. rewrite Eeo.
  eexists. split; [reflexivity|]. cbn [hp entries].
  assert (N1 : le <> lm) by neq_kind. assert (N2 : le <> m_options m) by neq_kind.
  assert (N3 : le <> la) by neq_kind.
  split; [reflexivity|]. split; [|split].
  - eapply wf_write; [exact W | exact Eeo | reflexivity |]. simpl. rewrite HF.
    destruct W as [Hh _]. exact (heap_wf_nth _ _ _ Hh Eeo).
  - exists la, a. rewrite nth_upd_other by auto. split; [|auto].
    exists m, o. rewrite !nth_upd_other by auto. auto.
  - unfold view_meta. rewrite nth_upd_other by auto. rewrite Em.
    unfold view_meta_obj, view_opts. rewrite nth_upd_other by auto. rewrite Eo.
    unfold view_opts_obj. rewrite Ea. unfold view_api. rewrite nth_upd_other by auto. rewrite Eaa.
    unfold view_api_obj. rewrite Ee. unfold view_exp. rewrite (nth_upd_same _ _ _ _ Eeo).
    rewrite view_exp_obj_upd by (exists (OExp eo); repeat split; auto).
    unfold view_exp_obj in *. rewrite HF.
    destruct (e_body eo) as [lb|].
    + destruct (nth_error h lb) as [[| | | |b]|]; try discriminate. inversion Veo; subst e.
      simpl. now rewrite HG.
    + inversion Veo; subst e. simpl. now rewrite HG.
Qed.

Lemma ensure_body_spec s lm le r :
  wf s -> exp_loc (hp s) lm le -> view_meta (hp s) lm = Some r ->
  exists lb s1, ensure_body le s = Some (lb, s1) /\ entries s1 = entries s /\ wf s1 /\
    body_loc (hp s1) lm lb /\
    view_meta (hp s1) lm =
      Some (meta_set_api r (option_map (fun a => frag_set_expect a
              (option_map (fun e => mkExpect (exp_status e) (Some (body_or_empty e)) (exp_schema e))
                          (api_expect a))) (api (moptions r)))).
Proof.
  destruct s as [es h]; simpl. intros W L V.
  pose proof L as L0.
  destruct (exp_loc_view _ _ _ _ L V) as (m & o & la & a & eo & e & Em & Eo & Ea & Eaa & Ee & Eeo & Veo & ->).
  unfold ensure_body, sbind, read_exp. cbn [hp entries]. rewrite Eeo. simpl.
  assert (N1 : le <> lm) by neq_kind. assert (N2 : le <> m_options m) by neq_kind.
  assert (N3 : le <> la) by neq_kind.
  destruct (view_exp_obj_inv _ _ _ Veo) as [[Eb ->] | (lb & b & Eb & Ebb & ->)]; rewrite Eb.
  - unfold alloc, write, sret; cbn [hp entries].
    assert (Eeo' : nth_error (h ++ [OBody []])%list le = Some (OExp eo)) by now apply nth_app_some.
    rewrite Eeo'. eexists _, _. split; [reflexivity|]. cbn [hp entries].
    assert (Hlt : le < List.length h) by (eapply nth_error_some_lt; eauto).
    assert (Nl : le <> List.length h) by lia.
    assert (Nm : List.length h <> lm) by (apply nth_error_some_lt in Em; lia).
    assert (No : List.length h <> m_options m) by (apply nth_error_some_lt in Eo; lia).
    assert (Na : List.length h <> la) by (apply nth_error_some_lt in Eaa; lia).
    split; [reflexivity|]. split; [|split].
    + eapply wf_write; [apply wf_alloc; [exact W | exact I] | exact Eeo' | reflexivity |].
      simpl. unfold at_body. now rewrite nth_error_last.
    + exists le, (mkExpObj (e_status eo) (Some (List.length h)) (e_schema eo)).
      split; [|split; [eapply nth_upd_same; eauto | reflexivity]].
      exists la, a. rewrite nth_upd_other by auto. rewrite (nth_app_some _ _ _ _ Eaa).
      split; [|auto]. exists m, o. rewrite !nth_upd_other by auto.
      rewrite !(nth_app_some _ _ _ _ Em), !(nth_app_some _ _ _ _ Eo). auto.
    + unfold view_meta. rewrite nth_upd_other by auto. rewrite (nth_app_some _ _ _ _ Em).
      unfold view_meta_obj, view_opts. rewrite nth_upd_other by auto. rewrite (nth_app_some _ _ _ _ Eo).
      unfold view_opts_obj. rewrite Ea. unfold view_api. rewrite nth_upd_other by auto.
      rewrite (nth_app_some _ _ _ _ Eaa).
      unfold view_api_obj. rewrite Ee. unfold view_exp. rewrite (nth_upd_same _ _ _ _ Eeo').
      unfold view_exp_obj. simpl. rewrite nth_upd_other by auto. rewrite nth_error_last.
      reflexivity.
  - unfold sret. eexists _, _. split; [reflexivity|]. cbn [hp entries].
    split; [reflexivity|]. split; [exact W|].
    split; [exists le, eo; split; [exists la, a; split; [exists m, o|]|]; auto|].
    unfold view_meta. rewrite Em. unfold view_meta_obj, view_opts. rewrite Eo.
    unfold view_opts_obj. rewrite Ea. unfold view_api. rewrite Eaa. unfold view_api_obj. rewrite Ee.
    unfold view_exp. rewrite Eeo. unfold view_exp_obj. rewrite Eb, Ebb. reflexivity.
Qed.

Lemma body_write_spec {B : Type} s lm lb r (F : list (string * body_assertion) -> list (string * body_assertion))
  (K : SM B) :
  wf s -> body_loc (hp s) lm lb -> view_meta (hp s) lm = Some r ->
  exists s1, (b <~ read_body lb ;; _ <~ write lb (OBody (F b)) ;; K) s = K s1 /\
    entries s1 = entries s /\ wf s1 /\ body_loc (hp s1) lm lb /\
    view_meta (hp s1) lm =
      Some (meta_set_api r (option_map (fun a => frag_set_expect a
              (option_map (fun e => mkExpect (exp_status e) (option_map F (exp_body e)) (exp_schema e))
                          (api_expect a))) (api (moptions r)))).
Proof.
  destruct s as [es h]; simpl. intros W (le & eo & L & Eeo0 & Eb) V.
  destruct (exp_loc_view _ _ _ _ L V) as (m & o & la & a & eo' & e & Em & Eo & Ea & Eaa & Ee & Eeo & Veo & ->).
  rewrite Eeo in Eeo0. inversion Eeo0; subst eo'. clear Eeo0.
  unfold view_exp_obj in Veo. rewrite Eb in Veo.
  destruct (nth_error h lb) as [[| | | |b]|] eqn:Ebb; try discriminate. inversion Veo; subst e. clear Veo.
  unfold sbind, read_body, write. cbn [hp entries]. rewrite Ebb. cbn [hp entries]. rewrite Ebb.
  eexists. split; [reflexivity|]. cbn [hp entries].
  assert (N1 : lb <> lm) by neq_kind. assert (N2 : lb <> m_options m) by neq_kind.
  assert (N3 : lb <> la) by neq_kind. assert (N4 : lb <> le) by neq_kind.
  split; [reflexivity|]. split; [|split].
  - eapply wf_write; [exact W | exact Ebb | reflexivity | exact I].
  - exists le, eo. rewrite nth_upd_other by auto. split; [|auto].
    exists la, a. rewrite nth_upd_other by auto. split; [|auto].
    exists m, o. rewrite !nth_upd_other by auto. auto.
  - unfold view_meta. rewrite nth_upd_other by auto. rewrite Em.
    unfold view_meta_obj, view_opts. rewrite nth_upd_other by auto. rewrite Eo.
    unfold view_opts_obj. rewrite Ea. unfold view_api. rewrite nth_upd_other by auto. rewrite Eaa.
    unfold view_api_obj. rewrite Ee. unfold view_exp. rewrite nth_upd_other by auto. rewrite Eeo.
    unfold view_exp_obj. rewrite Eb. rewrite (nth_upd_same _ _ _ _ Ebb). reflexivity.
Qed.

Ltac prefix W t nm :=
  let lm := fresh "lm" in let s1 := fresh "s1" in let E1 := fresh "E1" in let Ent1 := fresh "Ent1" in
  let W1 := fresh "W1" in let V1 := fresh "V1" in let Hl1 := fresh "Hl1" in
  let la := fresh "la" in let s2 := fresh "s2" in let E2 := fresh "E2" in let Ent2 := fresh "Ent2" in
  let W2 := fresh "W2" in let L2 := fresh "L2" in let V2 := fresh "V2" in
  destruct (get_or_new_spec _ t nm W) as (lm & s1 & E1 & Ent1 & W1 & V1 & _ & Hl1);
  destruct (ensure_api_spec s1 lm _ W1 V1) as (la & s2 & E2 & Ent2 & W2 & L2 & V2);
  rewrite (sbind_eq _ _ _ _ _ E1), (sbind_eq _ _ _ _ _ E2).

Lemma fn_kept es es' x lm :
  (match map_get es (fn x) with Some l => lm = l | None => True end) ->
  map_get es' (fn x) = Some lm ->
  forall l, map_get es (fn x) = Some l -> map_get es' (fn x) = Some l.
Proof. intros H1 H2 l H3. rewrite H3 in H1. congruence. Qed.

Lemma PathParams_post ps x s :
  wf s -> exists s', PathParams ps x s = Some (tt, s') /\ dec_post (DPathParams ps) x s s'.
Proof.
  intros W. unfold PathParams. prefix W (fn x) (pkey_string (key x)).
  destruct (set_api_spec s2 lm la (fun a => api_with_pathParams a (Some ps))
              (dec_effect (DPathParams ps)) _ W2 L2 V2 (fun a => eq_refl) (fun a ex => eq_refl))
    as (s3 & E3 & Ent3 & W3 & L3 & V3).
  rewrite (sbind_eq _ _ _ _ _ E3). rewrite mstore_eq. eexists. split; [reflexivity|].
  destruct s3 as [es3 h3]; simpl in *. subst es3.
  split; [|split; [|split; [|split]]].
  - apply wf_store; auto. eapply view_meta_at; eauto.
  - rewrite rec_view_store, RegistryFacts.token_eqb_refl. rewrite V3. reflexivity.
  - rewrite Ent2, Ent1. apply touches_set. simpl; auto.
  - rewrite Ent2, Ent1 in *. eapply fn_kept; [exact Hl1|]. simpl. rewrite map_get_set, RegistryFacts.token_eqb_refl. reflexivity.
  - exact I.
Qed.

Lemma touches_set_r es es' t l ts : touches es es' ts -> In t ts -> touches es (map_set es' t l) ts.
Proof. intros T H. eapply touches_trans; [exact T | apply touches_set; exact H]. Qed.

Ltac rewrite_truthy := match goal with H : pkey_truthy _ = _ |- _ => rewrite H end.

Ltac solve_touches :=
  repeat (apply touches_set_r; [|unfold truthy_key; simpl; try rewrite_truthy; simpl; tauto]);
  apply touches_refl.

Ltac tokeqs :=
  repeat match goal with
  | |- context [token_eqb ?a ?a] => rewrite (RegistryFacts.token_eqb_refl a)
  | |- context [token_eqb ?a ?b] =>
      rewrite (token_eqb_neq a b)
        by first [ apply fn_not_key | apply not_eq_sym, fn_not_key | apply key_not_cls
                 | apply not_eq_sym, key_not_cls | apply fn_not_proto | apply not_eq_sym, fn_not_proto
                 | assumption | apply not_eq_sym; assumption
                 | unfold proto, cls; destruct (key _); simpl; discriminate ]
  end.

Lemma Headers_post hs x s :
  wf s -> exists s', Headers hs x s = Some (tt, s') /\ dec_post (DHeaders hs) x s s'.
Proof.
  intros W. unfold Headers. prefix W (fn x) (pkey_string (key x)).
  destruct (set_api_spec s2 lm la (fun a => api_with_headers a (Some hs))
              (dec_effect (DHeaders hs)) _ W2 L2 V2 (fun a => eq_refl) (fun a ex => eq_refl))
    as (s3 & E3 & Ent3 & W3 & L3 & V3).
  rewrite (sbind_eq _ _ _ _ _ E3).
  destruct s3 as [es3 h3]; simpl in *. subst es3.
  assert (Am : at_meta h3 lm) by (eapply view_meta_at; eauto).
  unfold sbind, when, mstore, sret; cbn [entries hp].
  destruct (pkey_truthy (key x)) eqn:T; (eexists; split; [reflexivity|]);
    (split; [|split; [|split; [|split]]]).
  all: try (repeat apply wf_store; auto; fail).
  all: try (unfold rec_view; simpl; rewrite !map_get_set; tokeqs; rewrite V3; reflexivity).
  all: try (rewrite Ent2, Ent1; unfold stored_tokens; solve_touches).
  all: try (rewrite Ent2, Ent1 in *; eapply fn_kept; [exact Hl1|]; simpl; rewrite !map_get_set; tokeqs; reflexivity).
  all: simpl; intros; rewrite !map_get_set; tokeqs; try reflexivity; congruence.
Qed.

Lemma nth_error_app_plus {A} (h l : list A) i : nth_error (h ++ l)%list (List.length h + i) = nth_error l i.
Proof. rewrite nth_error_app2 by lia. f_equal. lia. Qed.

Lemma sbind_mstore {B : Type} t l (K : unit -> SM B) s :
  sbind (mstore t l) K s = K tt (mkSt (map_set (entries s) t l) (hp s)).
Proof. reflexivity. Qed.

Lemma view_opts_obj_none h o : o_api o = None -> view_opts_obj h o = Some (options_of o None).
Proof. unfold view_opts_obj. intros ->. reflexivity. Qed.

(** A new record [{type, name, options: o0}] stored under [t]. *)
Lemma fresh_record_spec o0 ty nm t s :
  wf s -> o_api o0 = None ->
  exists lm s', (lo <~ alloc (OOpts o0) ;; lm <~ alloc (OMeta (mkMetaObj ty nm lo)) ;; mstore t lm) s
                = Some (tt, s') /\
    wf s' /\ entries s' = map_set (entries s) t lm /\ (exists ext, hp s' = (hp s ++ ext)%list) /\
    view_meta (hp s') lm = Some (mkMetadata ty nm (options_of o0 None)).
Proof.
  destruct s as [es h]. intros W Ho. unfold sbind, alloc, mstore; cbn [hp entries].
  eexists _, _. split; [reflexivity|]. cbn [hp entries].
  assert (W' : wf (mkSt es ((h ++ [OOpts o0]) ++ [OMeta (mkMetaObj ty nm (List.length h))])%list)).
  { apply wf_alloc; [apply wf_alloc; [exact W | simpl; rewrite Ho; exact I] |].
    simpl. unfold at_opts. now rewrite nth_error_last. }
  split; [|split; [reflexivity|split]].
  - apply wf_store; [exact W'|]. unfold at_meta. now rewrite nth_error_last.
  - eexists. now rewrite <- app_assoc.
  - unfold view_meta. rewrite nth_error_last. unfold view_meta_obj, view_opts. simpl.
    rewrite (nth_app_some _ _ _ _ (nth_error_last _ _)). now rewrite view_opts_obj_none.
Qed.

(** A new record whose options hold a new api object [a0]. *)
Lemma fresh_api_record_spec a0 o0 ty nm t s :
  wf s -> a_expect a0 = None ->
  exists lm s', (ka <~ alloc (OApi a0) ;; ko <~ alloc (OOpts (opts_with_api o0 (Some ka))) ;;
                 km <~ alloc (OMeta (mkMetaObj ty nm ko)) ;; mstore t km) s = Some (tt, s') /\
    wf s' /\ entries s' = map_set (entries s) t lm /\ (exists ext, hp s' = (hp s ++ ext)%list) /\
    view_meta (hp s') lm =
      Some (mkMetadata ty nm (options_of (opts_with_api o0 (Some 0)) (Some (frag_of a0 None)))).
Proof.
  destruct s as [es h]. intros W Ha. unfold sbind, alloc, mstore; cbn [hp entries].
  eexists _, _. split; [reflexivity|]. cbn [hp entries].
  set (h1 := (h ++ [OApi a0])%list).
  set (h2 := (h1 ++ [OOpts (opts_with_api o0 (Some (List.length h)))])%list).
  assert (E1 : nth_error h1 (List.length h) = Some (OApi a0)) by apply nth_error_last.
  assert (E2 : nth_error h2 (List.length h1) = Some (OOpts (opts_with_api o0 (Some (List.length h)))))
    by apply nth_error_last.
  assert (W' : wf (mkSt es (h2 ++ [OMeta (mkMetaObj ty nm (List.length h1))])%list)).
  { apply wf_alloc; [apply wf_alloc; [apply wf_alloc; [exact W | simpl; rewrite Ha; exact I] |] |].
    - simpl. unfold at_api. fold h1. now rewrite E1.
    - simpl. unfold at_opts. fold h1. fold h2. now rewrite E2. }
  split; [|split; [reflexivity|split]].
  - apply wf_store; [exact W'|]. unfold at_meta. now rewrite nth_error_last.
  - eexists. unfold h2, h1. now rewrite <- !app_assoc.
  - unfold view_meta. rewrite nth_error_last. unfold view_meta_obj, view_opts. simpl.
    rewrite (nth_app_some _ _ _ _ E2). unfold view_opts_obj. simpl. unfold view_api.
    unfold h2. rewrite (nth_app_some _ _ _ _ (nth_app_some _ _ _ _ E1)).
    unfold view_api_obj. rewrite Ha. reflexivity.
Qed.

Lemma ApiEndpoint_post m p x s :
  wf s -> fn x <> cls x -> exists s', ApiEndpoint m p x s = Some (tt, s') /\ dec_post (DApiEndpoint m p) x s s'.
Proof.
  intros W Nfc. unfold ApiEndpoint. prefix W (fn x) (pkey_string (key x)).
  fold (base_record s x) in V1, V2.
  destruct (set_api_spec s2 lm la (fun a => api_with_method a (Some m))
              (fun a => mkFragment (Some m) (api_path a) (api_pathParams a) (api_queryParams a)
                          (api_headers a) (api_body a) (api_expect a)) _ W2 L2 V2 (fun a => eq_refl) (fun a ex => eq_refl))
    as (s3 & E3 & Ent3 & W3 & L3 & V3).
  destruct (set_api_spec s3 lm la (fun a => api_with_path a (Some p))
              (fun a => mkFragment (api_method a) (Some p) (api_pathParams a) (api_queryParams a)
                          (api_headers a) (api_body a) (api_expect a)) _ W3 L3 V3 (fun a => eq_refl) (fun a ex => eq_refl))
    as (s4 & E4 & Ent4 & W4 & L4 & V4).
  rewrite (sbind_eq _ _ _ _ _ E3), (sbind_eq _ _ _ _ _ E4).
  clear E1 E2 E3 E4 V1 V2 V3 L2 L3 L4 W1 W2 W3.
  destruct s4 as [es4 h4]; simpl in *. subst es4.
  assert (Am : at_meta h4 lm) by (eapply view_meta_at; eauto).
  rewrite !sbind_mstore. cbn [entries hp].
  set (es5 := map_set (map_set (entries s3) (fn x) lm) (fn x) lm).
  assert (W5 : wf (mkSt es5 h4)) by (unfold es5; repeat apply wf_store; auto).
  destruct (pkey_truthy (key x)) eqn:T; unfold when.
  - destruct (fresh_api_record_spec (api_with_path (api_with_method empty_api (Some m)) (Some p))
                empty_opts MTest (pkey_string (key x)) (pkey_token (key x))
                (mkSt (map_set es5 (fn x) lm) h4) (wf_store _ _ _ _ W5 Am) eq_refl)
      as (km & s6 & E6 & W6 & Ent6 & (ext6 & H6) & V6).
    rewrite (sbind_eq _ _ _ tt s6) by (rewrite sbind_mstore; exact E6).
    destruct (fresh_record_spec (mkOptsObj None None None None None None None None (Some true))
                MSuite (cls_name x) (cls x) s6 W6 eq_refl)
      as (cm & s7 & E7 & W7 & Ent7 & (ext7 & H7) & V7).
    rewrite E7. eexists; split; [reflexivity|].
    split; [exact W7|]. split; [|split; [|split]].
    + unfold rec_view. rewrite Ent7, map_get_set, Ent6, map_get_set. simpl. rewrite map_get_set.
      tokeqs. rewrite H7, H6, <- app_assoc. cbn [hp]. apply view_meta_app. rewrite V4. reflexivity.
    + rewrite Ent7, Ent6. simpl. unfold es5. rewrite Ent3, Ent2, Ent1. unfold stored_tokens. solve_touches.
    + rewrite Ent3, Ent2, Ent1 in *. eapply fn_kept; [exact Hl1|].
      rewrite Ent7, map_get_set, Ent6, map_get_set. simpl. unfold es5. rewrite !map_get_set. tokeqs. reflexivity.
    + intros _. unfold rec_view. rewrite Ent7, map_get_set, Ent6, map_get_set. tokeqs.
      rewrite H7. apply view_meta_app. rewrite V6. reflexivity.
  - unfold sret. rewrite (sbind_eq _ _ _ tt (mkSt es5 h4)) by reflexivity.
    destruct (fresh_record_spec (mkOptsObj None None None None None None None None (Some true))
                MSuite (cls_name x) (cls x) (mkSt es5 h4) W5 eq_refl)
      as (cm & s7 & E7 & W7 & Ent7 & (ext7 & H7) & V7).
    rewrite E7. eexists; split; [reflexivity|].
    split; [exact W7|]. split; [|split; [|split]].
    + unfold rec_view. rewrite Ent7, map_get_set. simpl. unfold es5. rewrite !map_get_set.
      tokeqs. rewrite H7. cbn [hp]. apply view_meta_app. rewrite V4. reflexivity.
    + rewrite Ent7. simpl. unfold es5. rewrite Ent3, Ent2, Ent1. unfold stored_tokens. solve_touches.
    + eapply fn_kept; [exact Hl1|].
      rewrite Ent7, map_get_set. simpl. unfold es5. rewrite !map_get_set. tokeqs. reflexivity.
    + intro H; simpl in H; congruence.
Qed.

Lemma ApiEndpoint_2_post m p x s :
  wf s -> exists s', ApiEndpoint_2 m p x s = Some (tt, s') /\ dec_post (DApiEndpoint_2 m p) x s s'.
Proof.
  intros W. unfold ApiEndpoint_2. prefix W (fn x) (pkey_string (key x)).
  fold (base_record s x) in V1, V2.
  destruct (set_api_spec s2 lm la (fun a => api_with_method a (Some m))
              (fun a => mkFragment (Some m) (api_path a) (api_pathParams a) (api_queryParams a)
                          (api_headers a) (api_body a) (api_expect a)) _ W2 L2 V2 (fun a => eq_refl) (fun a ex => eq_refl))
    as (s3 & E3 & Ent3 & W3 & L3 & V3).
  destruct (set_api_spec s3 lm la (fun a => api_with_path a (Some p))
              (fun a => mkFragment (api_method a) (Some p) (api_pathParams a) (api_queryParams a)
                          (api_headers a) (api_body a) (api_expect a)) _ W3 L3 V3 (fun a => eq_refl) (fun a ex => eq_refl))
    as (s4 & E4 & Ent4 & W4 & L4 & V4).
  rewrite (sbind_eq _ _ _ _ _ E3), (sbind_eq _ _ _ _ _ E4).
  clear E1 E2 E3 E4 V1 V2 V3 L2 L3 L4 W1 W2 W3.
  destruct s4 as [es4 h4]; simpl in *. subst es4.
  assert (Am : at_meta h4 lm) by (eapply view_meta_at; eauto).
  rewrite !sbind_mstore. cbn [entries hp].
  set (es5 := if pkey_truthy (key x) then map_set (map_set (entries s3) (fn x) lm) (fn x) lm
              else map_set (entries s3) (fn x) lm).
  assert (W5 : wf (mkSt es5 h4)) by (unfold es5; destruct (pkey_truthy (key x)); repeat apply wf_store; auto).
  rewrite (sbind_eq _ _ _ tt (mkSt es5 h4))
    by (unfold es5, when; destruct (pkey_truthy (key x)); reflexivity).
  destruct (fresh_record_spec (mkOptsObj None None None None None None None None (Some true))
              MSuite (cls_name x) (proto x) (mkSt es5 h4) W5 eq_refl)
    as (cm & s7 & E7 & W7 & Ent7 & (ext7 & H7) & V7).
  rewrite E7. eexists; split; [reflexivity|].
  split; [exact W7|]. split; [|split; [|split]].
  - unfold rec_view. rewrite Ent7, map_get_set. simpl. unfold es5.
    destruct (pkey_truthy (key x)); rewrite !map_get_set;
      tokeqs; rewrite H7; cbn [hp]; apply view_meta_app; rewrite V4; reflexivity.
  - rewrite Ent7. simpl. unfold es5. rewrite Ent3, Ent2, Ent1. unfold stored_tokens.
    destruct (pkey_truthy (key x)); solve_touches.
  - eapply fn_kept; [exact Hl1|].
    rewrite Ent7, map_get_set. simpl. unfold es5.
    destruct (pkey_truthy (key x)); rewrite !map_get_set; tokeqs; reflexivity.
  - exact I.
Qed.

Lemma QueryParams_post qs x s :
  wf s -> exists s', QueryParams qs x s = Some (tt, s') /\ dec_post (DQueryParams qs) x s s'.
Proof.
  intros W. unfold QueryParams. prefix W (fn x) (pkey_string (key x)).
  destruct (set_api_spec s2 lm la (fun a => api_with_queryParams a (Some qs))
              (dec_effect (DQueryParams qs)) _ W2 L2 V2 (fun a => eq_refl) (fun a ex => eq_refl))
    as (s3 & E3 & Ent3 & W3 & L3 & V3).
  rewrite (sbind_eq _ _ _ _ _ E3). rewrite mstore_eq. eexists. split; [reflexivity|].
  destruct s3 as [es3 h3]; simpl in *. subst es3.
  split; [|split; [|split; [|split]]].
  - apply wf_store; auto. eapply view_meta_at; eauto.
  - rewrite rec_view_store, RegistryFacts.token_eqb_refl. rewrite V3. reflexivity.
  - rewrite Ent2, Ent1. apply touches_set. simpl; auto.
  - rewrite Ent2, Ent1 in *. eapply fn_kept; [exact Hl1|]. simpl. rewrite map_get_set, RegistryFacts.token_eqb_refl. reflexivity.
  - exact I.
Qed.

Lemma RequestBody_post b x s :
  wf s -> exists s', RequestBody b x s = Some (tt, s') /\ dec_post (DRequestBody b) x s s'.
Proof.
  intros W. unfold RequestBody. prefix W (fn x) (pkey_string (key x)).
  destruct (set_api_spec s2 lm la (fun a => api_with_body a (Some b))
              (dec_effect (DRequestBody b)) _ W2 L2 V2 (fun a => eq_refl) (fun a ex => eq_refl))
    as (s3 & E3 & Ent3 & W3 & L3 & V3).
  rewrite (sbind_eq _ _ _ _ _ E3).
  destruct s3 as [es3 h3]; simpl in *. subst es3.
  assert (Am : at_meta h3 lm) by (eapply view_meta_at; eauto).
  unfold sbind, when, mstore, sret; cbn [entries hp].
  destruct (pkey_truthy (key x)) eqn:T; (eexists; split; [reflexivity|]);
    (split; [|split; [|split; [|split]]]).
  all: try (repeat apply wf_store; auto; fail).
  all: try (unfold rec_view; simpl; rewrite !map_get_set; tokeqs; rewrite V3; reflexivity).
  all: try (rewrite Ent2, Ent1; unfold stored_tokens; solve_touches).
  all: try (rewrite Ent2, Ent1 in *; eapply fn_kept; [exact Hl1|]; simpl; rewrite !map_get_set; tokeqs; reflexivity).
  all: simpl; intros; rewrite !map_get_set; tokeqs; try reflexivity; congruence.
Qed.

Lemma ExpectStatus_post z x s :
  wf s -> exists s', ExpectStatus z x s = Some (tt, s') /\ dec_post (DExpectStatus z) x s s'.
Proof.
  intros W. unfold ExpectStatus. prefix W (fn x) (pkey_string (key x)).
  destruct (ensure_expect_spec s2 lm la _ W2 L2 V2) as (le & s3 & E3 & Ent3 & W3 & L3 & V3).
  rewrite (sbind_eq _ _ _ _ _ E3).
  destruct (exp_write_spec s3 lm le _ (fun e => mkExpObj (Some z) (e_body e) (e_schema e))
              (fun e => mkExpect (Some z) (exp_body e) (exp_schema e)) (mstore (fn x) lm)
              W3 L3 V3 (fun e => eq_refl) (fun e bo => eq_refl))
    as (s4 & E4 & Ent4 & W4 & L4 & V4).
  rewrite E4, mstore_eq. eexists. split; [reflexivity|].
  destruct s4 as [es4 h4]; simpl in *. subst es4.
  split; [|split; [|split; [|split]]].
  - apply wf_store; auto. eapply view_meta_at; eauto.
  - rewrite rec_view_store, RegistryFacts.token_eqb_refl. rewrite V4. reflexivity.
  - rewrite Ent3, Ent2, Ent1. apply touches_set. simpl; auto.
  - rewrite Ent3, Ent2, Ent1 in *. eapply fn_kept; [exact Hl1|]. simpl. rewrite map_get_set, RegistryFacts.token_eqb_refl. reflexivity.
  - exact I.
Qed.

Lemma ExpectBody_post path ba x s :
  wf s -> exists s', ExpectBody_set path ba x s = Some (tt, s') /\ dec_post (DExpectBody path ba) x s s'.
Proof.
  intros W. unfold ExpectBody_set. prefix W (fn x) (pkey_string (key x)).
  destruct (ensure_expect_spec s2 lm la _ W2 L2 V2) as (le & s3 & E3 & Ent3 & W3 & L3 & V3).
  destruct (ensure_body_spec s3 lm le _ W3 L3 V3) as (lb & s4 & E4 & Ent4 & W4 & L4 & V4).
  rewrite (sbind_eq _ _ _ _ _ E3), (sbind_eq _ _ _ _ _ E4).
  destruct (body_write_spec s4 lm lb _ (fun b => obj_set b path ba) (mstore (fn x) lm) W4 L4 V4)
    as (s5 & E5 & Ent5 & W5 & L5 & V5).
  rewrite E5, mstore_eq. eexists. split; [reflexivity|].
  destruct s5 as [es5 h5]; simpl in *. subst es5.
  split; [|split; [|split; [|split]]].
  - apply wf_store; auto. eapply view_meta_at; eauto.
  - rewrite rec_view_store, RegistryFacts.token_eqb_refl. rewrite V5. reflexivity.
  - rewrite Ent4, Ent3, Ent2, Ent1. apply touches_set. simpl; auto.
  - rewrite Ent4, Ent3, Ent2, Ent1 in *. eapply fn_kept; [exact Hl1|]. simpl. rewrite map_get_set, RegistryFacts.token_eqb_refl. reflexivity.
  - exact I.
Qed.

Lemma schema_tail es h lm m o a e sch t ve :
  wf (mkSt es h) -> nth_error h lm = Some (OMeta m) -> nth_error h (m_options m) = Some (OOpts o) ->
  obj_wf h (OExp e) -> view_exp_obj h e = Some ve ->
  exists h3, (le' <~ alloc (OExp (mkExpObj (e_status e) (e_body e) (Some sch))) ;;
              la' <~ alloc (OApi (api_with_expect a (Some le'))) ;;
              _ <~ write (m_options m) (OOpts (opts_with_api o (Some la'))) ;;
              mstore t lm) (mkSt es h) = Some (tt, mkSt (map_set es t lm) h3) /\
    wf (mkSt (map_set es t lm) h3) /\
    view_meta h3 lm =
      Some (mkMetadata (m_type m) (m_name m)
              (options_of o (Some (frag_of a (Some (mkExpect (exp_status ve) (exp_body ve) (Some sch))))))).
Proof.
  intros W Em Eo He Ve.
  remember (mkExpObj (e_status e) (e_body e) (Some sch)) as e' eqn:He'.
  unfold sbind, alloc, write, mstore; cbn [hp entries].
  remember (h ++ [OExp e'])%list as h1 eqn:Hh1.
  match goal with |- context [(h1 ++ [OApi ?A'])%list] => remember A' as a' eqn:Ha' end.
  remember (h1 ++ [OApi a'])%list as h2 eqn:Hh2.
  assert (Eo2 : nth_error h2 (m_options m) = Some (OOpts o)) by (subst h2 h1; now do 2 apply nth_app_some).
  rewrite Eo2. eexists. split; [reflexivity|].
  assert (Hlo : m_options m < List.length h) by (eapply nth_error_some_lt; eauto).
  assert (Hl1 : List.length h1 = S (List.length h)) by (subst h1; rewrite length_app; simpl; lia).
  assert (Nmo : m_options m <> lm) by neq_kind.
  assert (N1 : m_options m <> List.length h1) by lia.
  assert (N2 : m_options m <> List.length h) by lia.
  assert (Ee' : nth_error h2 (List.length h) = Some (OExp e')) by (subst h2 h1; apply nth_app_some, nth_error_last).
  assert (Ea' : nth_error h2 (List.length h1) = Some (OApi a')) by (subst h2; apply nth_error_last).
  assert (W2 : wf (mkSt es h2)).
  { subst h2. apply wf_alloc; [subst h1; apply wf_alloc; [exact W|] |].
    - subst e'. simpl. simpl in He. exact He.
    - subst a'. simpl. unfold at_exp. subst h1. now rewrite nth_error_last. }
  assert (W3 : wf (mkSt es (upd h2 (m_options m) (OOpts (opts_with_api o (Some (List.length h1))))))).
  { eapply wf_write; [exact W2 | exact Eo2 | reflexivity |]. simpl. unfold at_api. now rewrite Ea'. }
  assert (Em2 : nth_error h2 lm = Some (OMeta m)) by (subst h2 h1; now do 2 apply nth_app_some).
  cbn [hp]. split.
  - apply wf_store; [exact W3|]. unfold at_meta. rewrite nth_upd_other by auto. now rewrite Em2.
  - unfold view_meta. rewrite nth_upd_other by auto. rewrite Em2.
    unfold view_meta_obj, view_opts. rewrite (nth_upd_same _ _ _ _ Eo2).
    unfold view_opts_obj. simpl. unfold view_api. rewrite nth_upd_other by auto. rewrite Ea'.
    unfold view_api_obj. subst a'. simpl. unfold view_exp. rewrite nth_upd_other by auto. rewrite Ee'.
    rewrite view_exp_obj_upd by (exists (OOpts o); repeat split; auto).
    assert (Ve' : view_exp_obj h e' = Some (mkExpect (exp_status ve) (exp_body ve) (Some sch))).
    { subst e'. unfold view_exp_obj in *. simpl. destruct (e_body e) as [lb|].
      - destruct (nth_error h lb) as [[| | | |b]|]; try discriminate. inversion Ve; subst. reflexivity.
      - inversion Ve; subst. reflexivity. }
    subst h2 h1. rewrite (view_exp_obj_app _ _ _ _ (view_exp_obj_app _ _ _ _ Ve')). reflexivity.
Qed.

Lemma ExpectSchema_post sch x s :
  wf s -> exists s', ExpectSchema sch x s = Some (tt, s') /\ dec_post (DExpectSchema sch) x s s'.
Proof.
  intros W. unfold ExpectSchema.
  destruct (get_or_new_spec _ (fn x) (pkey_string (key x)) W) as (lm & s1 & E1 & Ent1 & W1 & V1 & _ & Hl1).
  fold (base_record s x) in V1.
  rewrite (sbind_eq _ _ _ _ _ E1).
  destruct s1 as [es h]; simpl in Ent1, V1. subst es.
  destruct (view_meta_inv _ _ _ V1) as (m & o & v & Em & Eo & Vo & Hrb).
  rewrite (sbind_eq _ _ _ m (mkSt (entries s) h)) by (unfold read_meta; cbn [hp]; now rewrite Em).
  cbv beta.
  rewrite (sbind_eq _ _ _ o (mkSt (entries s) h)) by (unfold read_opts; cbn [hp]; now rewrite Eo).
  cbv beta.
  pose proof W1 as [Hh _]; simpl in Hh.
  assert (Post : forall h3 a ve,
            wf (mkSt (map_set (entries s) (fn x) lm) h3) ->
            view_meta h3 lm = Some (mkMetadata (m_type m) (m_name m)
              (options_of o (Some (frag_of a (Some (mkExpect (exp_status ve) (exp_body ve) (Some sch))))))) ->
            with_effect (DExpectSchema sch) (base_record s x) =
              mkMetadata (m_type m) (m_name m)
                (options_of o (Some (frag_of a (Some (mkExpect (exp_status ve) (exp_body ve) (Some sch)))))) ->
            dec_post (DExpectSchema sch) x s (mkSt (map_set (entries s) (fn x) lm) h3)).
  { intros h3 a ve W3 V3 Eq. split; [exact W3|]. split; [|split; [|split]].
    - unfold rec_view. simpl. rewrite map_get_set, RegistryFacts.token_eqb_refl, V3, Eq. reflexivity.
    - apply touches_set. simpl; auto.
    - eapply fn_kept; [exact Hl1|]. simpl. rewrite map_get_set, RegistryFacts.token_eqb_refl. reflexivity.
    - exact I. }
  destruct (view_opts_obj_inv _ _ _ Vo) as [[Ea ->] | (la & fa & Ea & Va & ->)]; rewrite Ea.
  - rewrite (sbind_eq _ _ _ empty_api (mkSt (entries s) h)) by reflexivity. cbv beta. cbn [a_expect empty_api].
    rewrite (sbind_eq _ _ _ empty_exp (mkSt (entries s) h)) by reflexivity. cbv beta.
    destruct (schema_tail (entries s) h lm m o empty_api empty_exp sch (fn x) (mkExpect None None None)
                W1 Em Eo I eq_refl) as (h3 & Et & Wt & Vt).
    exists (mkSt (map_set (entries s) (fn x) lm) h3). split; [exact Et|].
    apply (Post h3 empty_api (mkExpect None None None)); auto. rewrite Hrb. reflexivity.
  - destruct (view_api_inv _ _ _ Va) as (a & Eaa & Vaa).
    rewrite (sbind_eq _ _ _ a (mkSt (entries s) h)) by (unfold read_api; cbn [hp]; now rewrite Eaa).
    cbv beta.
    destruct (view_api_obj_inv _ _ _ Vaa) as [[Ee ->] | (le & ve & Ee & Ve & ->)]; rewrite Ee.
    + rewrite (sbind_eq _ _ _ empty_exp (mkSt (entries s) h)) by reflexivity. cbv beta.
      destruct (schema_tail (entries s) h lm m o a empty_exp sch (fn x) (mkExpect None None None)
                  W1 Em Eo I eq_refl) as (h3 & Et & Wt & Vt).
      exists (mkSt (map_set (entries s) (fn x) lm) h3). split; [exact Et|].
      apply (Post h3 a (mkExpect None None None)); auto. rewrite Hrb. reflexivity.
    + destruct (view_exp_inv _ _ _ Ve) as (eo & Eeo & Veo).
      rewrite (sbind_eq _ _ _ eo (mkSt (entries s) h)) by (unfold read_exp; cbn [hp]; now rewrite Eeo).
      cbv beta.
      destruct (schema_tail (entries s) h lm m o a eo sch (fn x) ve
                  W1 Em Eo (heap_wf_nth _ _ _ Hh Eeo) Veo) as (h3 & Et & Wt & Vt).
      exists (mkSt (map_set (entries s) (fn x) lm) h3). split; [exact Et|].
      apply (Post h3 a ve); auto. rewrite Hrb. reflexivity.
Qed.

Lemma apply_dec_post d x s :
  wf s -> fn x <> cls x -> exists s', apply_dec d x s = Some (tt, s') /\ dec_post d x s s'.
Proof.
  intros W N. destruct d; simpl.
  - now apply ApiEndpoint_post.
  - now apply ApiEndpoint_2_post.
  - now apply PathParams_post.
  - now apply QueryParams_post.
  - now apply Headers_post.
  - now apply RequestBody_post.
  - now apply ExpectStatus_post.
  - now apply ExpectBody_post.
  - now apply ExpectSchema_post.
Qed.

Lemma touches_incl es es' ts ts' : touches es es' ts -> incl ts ts' -> touches es es' ts'.
Proof.
  intros (A & B & C) I. split; [|split].
  - intros t N. apply A. intro H. apply N, I, H.
  - intros t l H. destruct (B t l H) as [H'|H']; [left; exact H' | right; apply I, H'].
  - exact C.
Qed.

Lemma apply_decs_post ds x s :
  wf s -> fn x <> cls x -> ds <> [] ->
  exists s', apply_decs ds x s = Some (tt, s') /\ wf s' /\
    rec_view s' (fn x) = Some (stack_record ds (base_record s x)) /\
    touches (entries s) (entries s') (stack_tokens ds x) /\
    (forall l, map_get (entries s) (fn x) = Some l -> map_get (entries s') (fn x) = Some l).
Proof.
  revert s. induction ds as [|d ds IH]; intros s W N Ne; [congruence|].
  destruct (apply_dec_post d x s W N) as (s1 & E1 & W1 & V1 & T1 & K1 & _).
  simpl. rewrite (sbind_eq _ _ _ _ _ E1).
  destruct ds as [|d2 ds2].
  - exists s1. simpl. split; [reflexivity|]. split; [exact W1|]. split; [exact V1|].
    split; [|exact K1]. eapply touches_incl; [exact T1|]. intros t Ht. simpl. rewrite app_nil_r. exact Ht.
  - destruct (IH s1 W1 N ltac:(discriminate)) as (s' & E' & W' & V' & T' & K').
    exists s'. split; [exact E'|]. split; [exact W'|]. split.
    + rewrite V'. unfold base_record at 1. rewrite V1. reflexivity.
    + split.
      * apply touches_trans with (entries s1).
        -- eapply touches_incl; [exact T1|]. intros t Ht. unfold stack_tokens. simpl. apply in_or_app. left. exact Ht.
        -- eapply touches_incl; [exact T'|]. intros t Ht. unfold stack_tokens in *. simpl. apply in_or_app. right. exact Ht.
      * intros l Hl. apply K', K1, Hl.
Qed.

Lemma view_entries_get h es v t :
  view_entries h es = Some v ->
  get v t = match map_get es t with Some l => view_meta h l | None => None end.
Proof.
  revert v. induction es as [|[t' l] r IH]; intros v E; simpl in E.
  - inversion E; reflexivity.
  - destruct (view_meta h l) as [m|] eqn:Em; [|discriminate].
    destruct (view_entries h r) as [vs|] eqn:Er; [|discriminate].
    inversion E; subst. simpl. destruct (token_eqb t t'); [congruence|]. apply IH; reflexivity.
Qed.

Lemma view_get s v t : view s = Some v -> get v t = rec_view s t.
Proof. apply view_entries_get. Qed.

Lemma wf_view s : wf s -> exists v, view s = Some v.
Proof.
  destruct s as [es h]. intros [Hh He]. unfold view; simpl in *.
  induction es as [|[t l] r IH]; simpl; [eauto|].
  inversion He; subst.
  destruct (wf_view_meta h l Hh H1) as (m & ->).
  destruct (IH H2) as (vs & ->). eauto.
Qed.

Lemma view_entries_in h es v t m :
  view_entries h es = Some v -> In (t, m) v -> exists l, In (t, l) es /\ view_meta h l = Some m.
Proof.
  revert v. induction es as [|[t' l] r IH]; intros v E Hin; simpl in E.
  - inversion E; subst; contradiction.
  - destruct (view_meta h l) as [m'|] eqn:Em; [|discriminate].
    destruct (view_entries h r) as [vs|] eqn:Er; [|discriminate].
    inversion E; subst. destruct Hin as [Hin|Hin].
    + inversion Hin; subst. exists l. simpl. auto.
    + destruct (IH vs eq_refl Hin) as (l' & H1 & H2). exists l'. simpl. auto.
Qed.

Lemma apply_decs_run ds x s :
  wf s -> fn x <> cls x ->
  exists s', apply_decs ds x s = Some (tt, s') /\ wf s' /\
    touches (entries s) (entries s') (stack_tokens ds x) /\
    (forall l, map_get (entries s) (fn x) = Some l -> map_get (entries s') (fn x) = Some l).
Proof.
  intros W N. destruct ds as [|d ds].
  - exists s. simpl. split; [reflexivity|]. split; [exact W|]. split; [apply touches_refl | auto].
  - destruct (apply_decs_post (d :: ds) x s W N ltac:(discriminate)) as (s' & E & W' & _ & T & K).
    eauto.
Qed.

Lemma apply_decs_app ds1 ds2 x s :
  apply_decs (ds1 ++ ds2) x s = (_ <~ apply_decs ds1 x ;; apply_decs ds2 x) s.
Proof.
  revert s. induction ds1 as [|d r IH]; intro s; simpl; [reflexivity|].
  unfold sbind in *. destruct (apply_dec d x s) as [[[] s1]|]; [|reflexivity].
  apply IH.
Qed.

Lemma rec_view_other es h ext t t' l :
  wf (mkSt es h) -> t' <> t ->
  rec_view (mkSt (map_set es t l) (h ++ ext)%list) t' = rec_view (mkSt es h) t'.
Proof.
  intros W N. unfold rec_view. cbn [entries hp]. rewrite map_get_set, token_eqb_neq by exact N.
  destruct (map_get es t') as [l'|] eqn:E; [|reflexivity].
  pose proof (wf_entry _ _ _ W E) as A. destruct W as [Hh _].
  destruct (wf_view_meta h l' Hh A) as (v & V). rewrite V. apply view_meta_app, V.
Qed.

Lemma test_default_spec x s :
  wf s ->
  exists s', test_default x s = Some (tt, s') /\ wf s' /\
    rec_view s' (fn x) = Some (test_record x) /\
    touches (entries s) (entries s') [fn x] /\
    (forall t, t <> fn x -> rec_view s' t = rec_view s t).
Proof.
  intro W.
  assert (Eq : test_default x s =
    (lo <~ alloc (OOpts empty_opts) ;; lm <~ alloc (OMeta (mkMetaObj MTest (pkey_string (key x)) lo)) ;;
     mstore (fn x) lm) s).
  { unfold test_default, test, sbind, alloc, read_opts. cbn [hp entries]. rewrite nth_error_last. reflexivity. }
  destruct (fresh_record_spec empty_opts MTest (pkey_string (key x)) (fn x) s W eq_refl)
    as (lm & s' & E & W' & Ent & (ext & Hh) & V).
  exists s'. rewrite Eq, E. split; [reflexivity|]. split; [exact W'|]. split; [|split].
  - unfold rec_view. rewrite Ent, map_get_set, RegistryFacts.token_eqb_refl, V. reflexivity.
  - rewrite Ent. apply touches_set. simpl; auto.
  - intros t N. destruct s as [es h], s' as [es' h']. cbn [entries hp] in *. subst. 
    apply rec_view_other; assumption.
Qed.

Lemma find_by_key_get v k m a :
  (forall t m', In (t, m') v -> key_string t = Some k -> t = TStr k) ->
  get v (TStr k) = Some m -> api (moptions m) = Some a -> find_by_key v k = Some a.
Proof.
  induction v as [|[t m0] r IH]; intros Hk G A; simpl in *; [discriminate|].
  destruct (token_eqb (TStr k) t) eqn:E.
  - apply RegistryFacts.token_eqb_true in E. subst. inversion G; subst. simpl. rewrite A, String.eqb_refl. reflexivity.
  - assert (Hr : find_by_key r k = Some a) by (apply IH; [intros t0 m1 H1 H2; apply (Hk t0 m1 (or_intror H1) H2) | exact G | exact A]).
    destruct (key_string t) as [k'|] eqn:Ek; [|destruct (api (moptions m0)); exact Hr].
    destruct (api (moptions m0)); [|exact Hr].
    destruct (String.eqb_spec k' k); [|exact Hr].
    subst. rewrite (Hk t m0 (or_introl eq_refl) Ek), RegistryFacts.token_eqb_refl in E. discriminate.
Qed.

Lemma find_by_key_none v k :
  (forall t m', In (t, m') v -> key_string t = Some k -> api (moptions m') = None) ->
  find_by_key v k = None.
Proof.
  induction v as [|[t m0] r IH]; intros Hk; simpl; [reflexivity|].
  assert (Hr : find_by_key r k = None) by (apply IH; intros t0 m1 H1 H2; apply (Hk t0 m1 (or_intror H1) H2)).
  destruct (key_string t) as [k'|] eqn:Ek; [|destruct (api (moptions m0)); exact Hr].
  destruct (api (moptions m0)) eqn:Ea; [|exact Hr].
  destruct (String.eqb_spec k' k); [|exact Hr].
  subst. rewrite (Hk t m0 (or_introl eq_refl) Ek) in Ea. discriminate.
Qed.

Lemma find_by_function_name_none v k :
  (forall id m', In (TFun id k, m') v -> api (moptions m') = None) ->
  (forall id m', In (TObj id (Some k), m') v -> api (moptions m') = None) ->
  find_by_function_name v k = None.
Proof.
  induction v as [|[t m0] r IH]; intros Hk Ho; simpl; [reflexivity|].
  assert (Hr : find_by_function_name r k = None)
    by (apply IH; intros i m1 H1; [apply (Hk i m1 (or_intror H1)) | apply (Ho i m1 (or_intror H1))]).
  destruct t as [id n| | |id [n|]]; try (destruct (api (moptions m0)); exact Hr).
  - destruct (api (moptions m0)) eqn:Ea; [|exact Hr].
    destruct (String.eqb_spec n k); [|exact Hr].
    subst. rewrite (Hk id m0 (or_introl eq_refl)) in Ea. discriminate.
  - destruct (api (moptions m0)) eqn:Ea; [|exact Hr].
    destruct (String.eqb_spec n k); [|exact Hr].
    subst. rewrite (Ho id m0 (or_introl eq_refl)) in Ea. discriminate.
Qed.

(** The tokens a decorator writes are the method, the class, the
    prototype and the property key. *)
Lemma stored_key_string d x t : In t (stored_tokens d x) -> key_string t = None \/ t = pkey_token (key x).
Proof.
  unfold stored_tokens, truthy_key.
  destruct d; simpl; destruct (pkey_truthy (key x)); simpl; intuition (subst; auto).
Qed.

Lemma stack_key_string ds x t : In t (stack_tokens ds x) -> key_string t = None \/ t = pkey_token (key x).
Proof.
  unfold stack_tokens. intro H. apply in_flat_map in H as (d & _ & H). eapply stored_key_string; eauto.
Qed.

Lemma touches_tokens (P : token -> Prop) es es' ts :
  touches es es' ts -> (forall t l, In (t, l) es -> P t) -> (forall t, In t ts -> P t) ->
  forall t l, In (t, l) es' -> P t.
Proof.
  intros (_ & B & _) H1 H2 t l H. destruct (B t l H) as [(l' & H')|H']; eauto.
Qed.

Lemma nodup_in_map_get es t l : NoDup (map fst es) -> In (t, l) es -> map_get es t = Some l.
Proof.
  induction es as [|[t' l'] r IH]; intros N H; simpl in *; [contradiction|].
  inversion N; subst. destruct H as [H|H].
  - inversion H; subst. now rewrite RegistryFacts.token_eqb_refl.
  - destruct (token_eqb t t') eqn:E; [|auto].
    apply RegistryFacts.token_eqb_true in E. subst.
    exfalso. apply H2. apply in_map_iff. exists (t', l). auto.
Qed.

Lemma key_tokens_after ds d x s s1 s2 s3 k :
  key x = PStr k ->
  (forall t l, In (t, l) (entries s) -> key_string t = Some k -> t = TStr k) ->
  touches (entries s) (entries s1) (stack_tokens ds x) ->
  touches (entries s1) (entries s2) (stored_tokens d x) ->
  touches (entries s2) (entries s3) [fn x] ->
  forall t l, In (t, l) (entries s3) -> key_string t = Some k -> t = TStr k.
Proof.
  intros Kx H0 T1 T2 T3.
  set (P := fun t => key_string t = Some k -> t = TStr k).
  assert (Hk : forall t, key_string t = None \/ t = pkey_token (key x) -> P t).
  { intros t [Ht|Ht] Hs; [congruence|]. rewrite Ht, Kx. reflexivity. }
  apply (touches_tokens P _ _ _ T3).
  - apply (touches_tokens P _ _ _ T2).
    + apply (touches_tokens P _ _ _ T1); [exact H0|]. intros t Ht. apply Hk, (stack_key_string ds x t Ht).
    + intros t Ht. apply Hk, (stored_key_string d x t Ht).
  - intros t [<-|[]]. apply Hk. left. reflexivity.
Qed.

Lemma run_stack_test ds d x s s1 s2 s3 :
  apply_decs ds x s = Some (tt, s1) -> apply_dec d x s1 = Some (tt, s2) -> test_default x s2 = Some (tt, s3) ->
  (_ <~ apply_decs (ds ++ [d]) x ;; test_default x) s = Some (tt, s3).
Proof.
  intros E1 E2 E3. unfold sbind at 1. rewrite apply_decs_app. unfold sbind at 1.
  rewrite E1. simpl. unfold sbind. rewrite E2. simpl. exact E3.
Qed.

(** X8: with [ApiEndpoint] (first form) as the topmost API decorator and
    [@test()] above it, the suite registers a regular test whose request has
    only the method and path: the other decorators' fields are lost. *)
Theorem endpoint_v1_stack_request ds m p k x s :
  wf s -> fn x <> cls x -> key x = PStr k -> k <> "" ->
  (forall t l, In (t, l) (entries s) -> key_string t = Some k -> t = TStr k) ->
  exists s' v,
    (_ <~ apply_decs (ds ++ [DApiEndpoint m p]) x ;; test_default x) s = Some (tt, s') /\
    view s' = Some v /\
    register_test v k (fn x) =
      Some (TestRegular, api_request (mkFragment (Some m) (Some p) None None None None None)).
Proof.
  intros W N Kx Kne H0.
  destruct (apply_decs_run ds x s W N) as (s1 & E1 & W1 & T1 & _).
  destruct (apply_dec_post (DApiEndpoint m p) x s1 W1 N) as (s2 & E2 & W2 & V2 & T2 & _ & KP2).
  destruct (test_default_spec x s2 W2) as (s3 & E3 & W3 & V3 & T3 & O3).
  destruct (wf_view s3 W3) as (v & Ev).
  exists s3, v. split; [exact (run_stack_test _ _ _ _ _ _ _ E1 E2 E3)|]. split; [exact Ev|].
  assert (Tr : pkey_truthy (key x) = true).
  { rewrite Kx. simpl. destruct (String.eqb_spec k ""); [contradiction | reflexivity]. }
  assert (G : get v (TStr k) = Some (endpoint_record x m p)).
  { rewrite (view_get _ _ _ Ev), O3 by (unfold fn; discriminate).
    simpl in KP2. rewrite Kx in KP2. apply KP2. rewrite <- Kx. exact Tr. }
  assert (Hk : forall t m', In (t, m') v -> key_string t = Some k -> t = TStr k).
  { intros t m' Hin. destruct (view_entries_in _ _ _ _ _ Ev Hin) as (l & Hl & _).
    exact (key_tokens_after ds _ x s s1 s2 s3 k Kx H0 T1 T2 T3 t l Hl). }
  unfold register_test. rewrite (view_get _ _ _ Ev), V3. simpl.
  unfold resolve_api, api_of. rewrite (view_get _ _ _ Ev), V3. simpl.
  unfold getAll. rewrite (find_by_key_get v k _ _ Hk G eq_refl). reflexivity.
Qed.

Lemma stored_tokens_plain d x t :
  writes_key d = false -> In t (stored_tokens d x) -> t = fn x \/ t = proto x.
Proof. destruct d; simpl; try discriminate; intros _ H; intuition. Qed.

Lemma stack_tokens_plain ds x t :
  (forall d, In d ds -> writes_key d = false) -> In t (stack_tokens ds x) -> t = fn x \/ t = proto x.
Proof.
  unfold stack_tokens. intros Hd H. apply in_flat_map in H as (d & Hd' & H).
  exact (stored_tokens_plain d x t (Hd d Hd') H).
Qed.

(** X9: with [ApiEndpoint_2] and no [Headers], [RequestBody] or
    [ApiEndpoint] (first form) under [@test()], on a registry with distinct
    keys and no key that reads as the method name (a string or symbol key
    with that [String(key)], a function or an object with that [name]), the
    suite registers a regular test that makes no request. *)
Theorem endpoint_v2_stack_no_request ds m p k x s :
  wf s -> fn x <> cls x -> NoDup (map fst (entries s)) ->
  (forall t l, In (t, l) (entries s) ->
     key_string t <> Some k /\ (forall id, t <> TFun id k) /\ (forall id, t <> TObj id (Some k))) ->
  In (DApiEndpoint_2 m p) ds -> (forall d, In d ds -> writes_key d = false) ->
  exists s' v,
    (_ <~ apply_decs ds x ;; test_default x) s = Some (tt, s') /\
    view s' = Some v /\
    register_test v k (fn x) = Some (TestRegular, None).
Proof.
  intros W N Nd H0 _ Hd.
  destruct (apply_decs_run ds x s W N) as (s1 & E1 & W1 & T1 & _).
  destruct (test_default_spec x s1 W1) as (s3 & E3 & W3 & V3 & T3 & _).
  destruct (wf_view s3 W3) as (v & Ev).
  exists s3, v. split; [unfold sbind; rewrite E1; exact E3|]. split; [exact Ev|].
  set (P := fun t => t = fn x \/ t = proto x \/
                     (key_string t <> Some k /\ (forall id, t <> TFun id k) /\
                      (forall id, t <> TObj id (Some k)))).
  assert (HP : forall t l, In (t, l) (entries s3) -> P t).
  { apply (touches_tokens P _ _ _ T3).
    - apply (touches_tokens P _ _ _ T1).
      + intros t l H. right; right. exact (H0 t l H).
      + intros t Ht. destruct (stack_tokens_plain ds x t Hd Ht); unfold P; auto.
    - intros t [<-|[]]. left. reflexivity. }
  assert (Nd3 : NoDup (map fst (entries s3))) by (apply T3, T1, Nd).
  unfold register_test. rewrite (view_get _ _ _ Ev), V3. simpl.
  unfold resolve_api, api_of. rewrite (view_get _ _ _ Ev), V3. simpl.
  unfold getAll. rewrite find_by_key_none, find_by_function_name_none; [reflexivity| | |].
  - intros id m' Hin. destruct (view_entries_in _ _ _ _ _ Ev Hin) as (l & Hl & Vl).
    destruct (HP _ _ Hl) as [He|[He|(_ & He & _)]].
    + rewrite He in Hl. apply (nodup_in_map_get _ _ _ Nd3) in Hl.
      unfold rec_view in V3. rewrite Hl, Vl in V3. inversion V3. reflexivity.
    + unfold proto in He. discriminate.
    + exfalso. exact (He id eq_refl).
  - intros id m' Hin. destruct (view_entries_in _ _ _ _ _ Ev Hin) as (l & Hl & _).
    destruct (HP _ _ Hl) as [He|[He|(_ & _ & He)]].
    + unfold fn in He. discriminate.
    + unfold proto in He. discriminate.
    + exfalso. exact (He id eq_refl).
  - intros t m' Hin Hs. destruct (view_entries_in _ _ _ _ _ Ev Hin) as (l & Hl & _).
    destruct (HP _ _ Hl) as [He|[He|(He & _)]].
    + subst. unfold fn in Hs. discriminate.
    + subst. unfold proto in Hs. discriminate.
    + contradiction.
Qed.

Lemma alias_step d x s s' :
  dec_post d x s s' -> (forall m p, d <> DApiEndpoint m p) -> pkey_truthy (key x) = true ->
  aliased (entries s) x -> aliased (entries s') x.
Proof.
  intros (W' & V' & (A & _ & _) & K & KP) Nv Tr (l & Hk & Hf).
  destruct d as [m p|m p|ps|qs|hs|b|z|path ba|sch]; try (exfalso; exact (Nv m p eq_refl));
    try (simpl in KP; exists l; split; [rewrite (KP Tr); apply K, Hf | apply K, Hf]).
  all: exists l; split; [|apply K, Hf]; rewrite A; [exact Hk|].
  all: intro H; apply stored_tokens_plain in H as [E|E]; [| |reflexivity];
       [exact (fn_not_key x (eq_sym E)) | unfold proto in E; destruct (key x); discriminate].
Qed.

Lemma apply_decs_alias ds x s :
  wf s -> fn x <> cls x -> (forall m p, ~ In (DApiEndpoint m p) ds) -> pkey_truthy (key x) = true ->
  aliased (entries s) x ->
  exists s', apply_decs ds x s = Some (tt, s') /\ aliased (entries s') x.
Proof.
  revert s. induction ds as [|d r IH]; intros s W N Nv Tr Al; simpl.
  - exists s. auto.
  - destruct (apply_dec_post d x s W N) as (s1 & E1 & P1).
    rewrite (sbind_eq _ _ _ _ _ E1).
    apply IH; [exact (proj1 P1) | exact N | intros m p H; apply (Nv m p); right; exact H | exact Tr |].
    apply (alias_step d x s s1 P1); [intros m p ->; apply (Nv m p); left; reflexivity | exact Tr | exact Al].
Qed.

Lemma aliased_after_headers d x s s' :
  dec_post d x s s' -> (forall m p, d <> DApiEndpoint m p) -> writes_key d = true ->
  pkey_truthy (key x) = true -> aliased (entries s') x.
Proof.
  intros (W' & V' & _ & _ & KP) Nv Wk Tr.
  unfold rec_view in V'. destruct (map_get (entries s') (fn x)) as [l|] eqn:E; [|discriminate].
  exists l. split; [|exact E].
  destruct d; try discriminate; try (exfalso; eapply Nv; reflexivity); simpl in KP; rewrite (KP Tr); exact E.
Qed.

Lemma apply_decs_det ds x s s1 s2 :
  apply_decs ds x s = Some (tt, s1) -> apply_decs ds x s = Some (tt, s2) -> s1 = s2.
Proof. intros E1 E2. rewrite E1 in E2. congruence. Qed.

Lemma stack_record_api ds r :
  (exists a, api (moptions r) = Some a) -> exists a, api (moptions (stack_record ds r)) = Some a.
Proof.
  revert r. induction ds as [|d ds IH]; intros r H; simpl; [exact H|].
  apply IH. simpl. eauto.
Qed.

(** X10: with [Headers] or [RequestBody] in the stack and no [ApiEndpoint]
    (first form) above it, under [@test()], the suite's regular test makes
    the request of the whole stack's accumulated [options.api]. *)
Theorem key_writer_stack_request ds1 d ds2 k x s :
  wf s -> fn x <> cls x -> key x = PStr k -> k <> "" ->
  (forall t l, In (t, l) (entries s) -> key_string t = Some k -> t = TStr k) ->
  writes_key d = true -> (forall m p, d <> DApiEndpoint m p) ->
  (forall m p, ~ In (DApiEndpoint m p) ds2) ->
  exists s' v,
    (_ <~ apply_decs (ds1 ++ d :: ds2) x ;; test_default x) s = Some (tt, s') /\
    view s' = Some v /\
    register_test v k (fn x) =
      Some (TestRegular, api_call (api (moptions (stack_record (ds1 ++ d :: ds2) (base_record s x))))).
Proof.
  intros W N Kx Kne H0 Wk Nv Nv2.
  assert (Tr : pkey_truthy (key x) = true).
  { rewrite Kx. simpl. destruct (String.eqb_spec k ""); [contradiction | reflexivity]. }
  set (ds := (ds1 ++ d :: ds2)%list).
  destruct (apply_decs_post ds x s W N) as (s3 & E3 & W3 & V3 & T3 & _).
  { unfold ds. destruct ds1; discriminate. }
  destruct (apply_decs_run ds1 x s W N) as (s1 & E1 & W1 & _ & _).
  destruct (apply_dec_post d x s1 W1 N) as (s2 & E2 & P2).
  destruct (apply_decs_alias ds2 x s2 (proj1 P2) N Nv2 Tr (aliased_after_headers d x s1 s2 P2 Nv Wk Tr))
    as (s3' & E3' & (l & Hk & Hf)).
  assert (Eq : apply_decs ds x s = Some (tt, s3')).
  { unfold ds. rewrite apply_decs_app. unfold sbind. rewrite E1. simpl. unfold sbind. rewrite E2. exact E3'. }
  rewrite (apply_decs_det _ _ _ _ _ E3 Eq) in *. clear E3 s3.
  destruct (test_default_spec x s3' W3) as (s4 & E4 & W4 & V4 & T4 & O4).
  destruct (wf_view s4 W4) as (v & Ev).
  exists s4, v. split; [unfold sbind; rewrite Eq; exact E4|]. split; [exact Ev|].
  assert (G : get v (TStr k) = Some (stack_record ds (base_record s x))).
  { rewrite (view_get _ _ _ Ev), O4 by (unfold fn; discriminate).
    unfold rec_view in *. replace (TStr k) with (pkey_token (key x)) by (rewrite Kx; reflexivity). rewrite Hk. rewrite Hf in V3. exact V3. }
  assert (Hk' : forall t m', In (t, m') v -> key_string t = Some k -> t = TStr k).
  { intros t m' Hin. destruct (view_entries_in _ _ _ _ _ Ev Hin) as (l' & Hl & _).
    exact (key_tokens_after ds (DPathParams []) x s s3' s3' s4 k Kx H0 T3 (touches_refl _ _) T4 t l' Hl). }
  unfold register_test. rewrite (view_get _ _ _ Ev), V4. simpl.
  unfold resolve_api, api_of. rewrite (view_get _ _ _ Ev), V4. simpl.
  unfold getAll. destruct (api (moptions (stack_record ds (base_record s x)))) as [a|] eqn:A.
  - rewrite (find_by_key_get v k _ _ Hk' G A). reflexivity.
  - exfalso. unfold ds, stack_record in A. rewrite fold_left_app in A. simpl in A.
    destruct (stack_record_api ds2 (with_effect d (stack_record ds1 (base_record s x)))) as (a & Ea).
    + simpl. eauto.
    + unfold stack_record in Ea. congruence.
Qed.

Lemma spread_options_spec f (g : options -> options) x s :
  wf s -> (forall o, o_api (f o) = o_api o) -> (forall o a, options_of (f o) a = g (options_of o a)) ->
  exists s', spread_options f x s = Some (tt, s') /\ wf s' /\
    rec_view s' (fn x) =
      Some (mkMetadata (type (base_record s x)) (name (base_record s x)) (g (moptions (base_record s x)))) /\
    touches (entries s) (entries s') [fn x].
Proof.
  intros W Fa Fg. destruct s as [es h]. unfold spread_options, base_record, rec_view. cbn [entries hp].
  unfold sbind at 1, mget. cbn [entries hp].
  destruct (map_get es (fn x)) as [lm|] eqn:Elm.
  - pose proof (wf_entry _ _ _ W Elm) as Am. pose proof W as [Hh _]. simpl in Hh.
    destruct (wf_view_meta h lm Hh Am) as (r & Vr). rewrite Vr.
    destruct (view_meta_inv _ _ _ Vr) as (m & o & v & Em & Eo & Vo & ->).
    rewrite (sbind_eq _ _ _ m (mkSt es h)) by (unfold read_meta; cbn [hp]; now rewrite Em). cbv beta.
    rewrite (sbind_eq _ _ _ o (mkSt es h)) by (unfold read_opts; cbn [hp]; now rewrite Eo). cbv beta.
    set (h1 := (h ++ [OOpts (f o)])%list).
    rewrite (sbind_eq _ _ _ (List.length h) (mkSt es h1)) by reflexivity. cbv beta.
    assert (Em1 : nth_error h1 lm = Some (OMeta m)) by (apply nth_app_some, Em).
    set (h2 := upd h1 lm (OMeta (mkMetaObj (m_type m) (m_name m) (List.length h)))).
    rewrite (sbind_eq _ _ _ tt (mkSt es h2)) by (unfold write; cbn [hp entries]; now rewrite Em1).
    cbv beta. rewrite mstore_eq. cbn [entries hp]. eexists. split; [reflexivity|].
    assert (Lo : nth_error h2 (List.length h) = Some (OOpts (f o))).
    { unfold h2. rewrite nth_upd_other; [apply nth_error_last|].
      apply nth_error_some_lt in Em. lia. }
    assert (W1 : wf (mkSt es h1)).
    { apply wf_alloc; [exact W|]. simpl. rewrite Fa.
      pose proof (heap_wf_nth _ _ _ Hh Eo) as Ho. exact Ho. }
    assert (W2 : wf (mkSt es h2)).
    { apply (wf_write es h1 lm (OMeta (mkMetaObj (m_type m) (m_name m) (List.length h))) (OMeta m) W1 Em1 eq_refl). simpl. unfold at_opts.
      unfold h1. now rewrite nth_error_last. }
    split; [|split].
    + apply wf_store; [exact W2|]. unfold at_meta, h2. now rewrite (nth_upd_same _ _ _ _ Em1).
    + cbn [entries hp]. rewrite map_get_set, RegistryFacts.token_eqb_refl. unfold view_meta.
      unfold h2 at 1. rewrite (nth_upd_same _ _ _ _ Em1). unfold view_meta_obj, view_opts. cbn [m_options m_type m_name].
      rewrite Lo. unfold view_opts_obj. rewrite Fa.
      destruct (view_opts_obj_inv _ _ _ Vo) as [[Ea ->] | (la & a & Ea & Va & ->)]; rewrite Ea.
      * simpl. now rewrite Fg.
      * unfold h2. rewrite view_api_upd.
        -- unfold h1. rewrite (view_api_app _ _ _ _ Va). simpl. now rewrite Fg.
        -- exists (OMeta m). split; [exact Em1 | split; [reflexivity | simpl; lia]].
    + apply touches_set. simpl; auto.
  - destruct (fresh_record_spec (f empty_opts) MTest (pkey_string (key x)) (fn x) (mkSt es h) W
                ltac:(rewrite Fa; reflexivity)) as (lm & s' & E & W' & Ent & _ & V).
    exists s'. split; [exact E|]. split; [exact W'|]. split.
    + unfold rec_view. rewrite Ent. simpl. rewrite map_get_set, RegistryFacts.token_eqb_refl, V.
      simpl. now rewrite Fg.
    + rewrite Ent. apply touches_set. simpl; auto.
Qed.

Lemma only_spec x s :
  wf s ->
  exists s', only x s = Some (tt, s') /\ wf s' /\
    rec_view s' (fn x) = Some (meta_map_options options_set_only (base_record s x)) /\
    touches (entries s) (entries s') [fn x].
Proof. intro W. apply (spread_options_spec _ options_set_only x s W); intros; reflexivity. Qed.

(** X7: [only], [tag] and [slow] store under the method a new record with
    the method's type, name and options, plus [only: true], the tags, or
    [slow: true]; they write only the method's key. *)
Theorem flag_decorators_keep_record x s ts reason :
  wf s ->
  (exists s', only x s = Some (tt, s') /\ wf s' /\
     rec_view s' (fn x) = Some (meta_map_options options_set_only (base_record s x)) /\
     touches (entries s) (entries s') [fn x]) /\
  (exists s', tag ts x s = Some (tt, s') /\ wf s' /\
     rec_view s' (fn x) = Some (meta_map_options (options_set_tags ts) (base_record s x)) /\
     touches (entries s) (entries s') [fn x]) /\
  (exists s', slow reason x s = Some (tt, s') /\ wf s' /\
     rec_view s' (fn x) = Some (meta_map_options options_set_slow (base_record s x)) /\
     touches (entries s) (entries s') [fn x]).
Proof.
  intro W. split; [|split].
  - exact (only_spec x s W).
  - apply (spread_options_spec _ (options_set_tags ts) x s W); intros; reflexivity.
  - apply (spread_options_spec _ options_set_slow x s W); intros; reflexivity.
Qed.

(** X11: [@only()] above [@test()] above any API decorators registers a
    [test.only] that makes no request. *)
Theorem only_above_test_no_request ds k x s :
  wf s -> fn x <> cls x ->
  exists s' v,
    (_ <~ apply_decs ds x ;; _ <~ test_default x ;; only x) s = Some (tt, s') /\
    view s' = Some v /\
    register_test v k (fn x) = Some (TestOnly, None).
Proof.
  intros W N.
  destruct (apply_decs_run ds x s W N) as (s1 & E1 & W1 & _ & _).
  destruct (test_default_spec x s1 W1) as (s2 & E2 & W2 & V2 & _ & _).
  destruct (only_spec x s2 W2) as (s3 & E3 & W3 & V3 & _).
  destruct (wf_view s3 W3) as (v & Ev).
  exists s3, v. split; [|split; [exact Ev|]].
  - unfold sbind. rewrite E1, E2. exact E3.
  - unfold register_test. rewrite (view_get _ _ _ Ev), V3.
    unfold base_record. rewrite V2. reflexivity.
Qed.

Lemma with_effect_comm d1 d2 r :
  dec_field d1 <> dec_field d2 -> with_effect d1 (with_effect d2 r) = with_effect d2 (with_effect d1 r).
Proof.
  intro H. destruct r as [ty nm [oa o sk sl tg]].
  destruct oa as [[am ap app aq ah ab [[es eb esch]|]]|];
  destruct d1, d2; simpl in H; try congruence; reflexivity.
Qed.

(** X4: two API decorators that set different fields give the method the
    same record in either order. *)
Theorem api_decorators_commute d1 d2 x s :
  wf s -> fn x <> cls x -> dec_field d1 <> dec_field d2 ->
  exists s1 s2, apply_decs [d1; d2] x s = Some (tt, s1) /\ apply_decs [d2; d1] x s = Some (tt, s2) /\
    rec_view s1 (fn x) = rec_view s2 (fn x).
Proof.
  intros W N F.
  destruct (apply_decs_post [d1; d2] x s W N ltac:(discriminate)) as (s1 & E1 & _ & V1 & _).
  destruct (apply_decs_post [d2; d1] x s W N ltac:(discriminate)) as (s2 & E2 & _ & V2 & _).
  exists s1, s2. split; [exact E1|]. split; [exact E2|].
  rewrite V1, V2. unfold stack_record. simpl. f_equal. apply with_effect_comm. intro E. apply F. symmetry. exact E.
Qed.

Lemma map_get_not_in es t : (forall l, ~ In (t, l) es) -> map_get es t = None.
Proof.
  intro H. destruct (map_get es t) as [l|] eqn:E; [|reflexivity].
  exfalso. exact (H l (map_get_in _ _ _ E)).
Qed.

(** X12: with [@step()] above [@test()], the suite finds no test record
    for the method it sees, the wrapper [step] installs, and registers no
    test. *)
Theorem step_above_test_unregistered ds w k x s :
  wf s -> fn x <> cls x -> w <> fn_id x -> w <> cls_id x ->
  (forall t l, In (t, l) (entries s) -> t <> TFun w "") ->
  exists s' v,
    (_ <~ apply_decs ds x ;; test_default x) s = Some (tt, s') /\
    view s' = Some v /\
    register_test v k (fn (step w x)) = None.
Proof.
  intros W N Hf Hc H0.
  destruct (apply_decs_run ds x s W N) as (s1 & E1 & W1 & T1 & _).
  destruct (test_default_spec x s1 W1) as (s2 & E2 & W2 & _ & T2 & _).
  destruct (wf_view s2 W2) as (v & Ev).
  exists s2, v. split; [unfold sbind; rewrite E1; exact E2|]. split; [exact Ev|].
  set (P := fun t => t <> TFun w "").
  assert (Hk : forall t, key_string t = None \/ t = pkey_token (key x) -> In t (stack_tokens ds x) -> P t).
  { intros t _ Ht. unfold stack_tokens in Ht. apply in_flat_map in Ht as (d & _ & Ht).
    unfold P. destruct d; unfold stored_tokens, truthy_key in Ht;
    destruct (pkey_truthy (key x)); simpl in Ht;
    repeat (destruct Ht as [Ht|Ht]; [subst t; unfold fn, cls, proto; destruct (key x); simpl;
                                     intro E; inversion E; congruence|]); contradiction. }
  assert (HP : forall t l, In (t, l) (entries s2) -> P t).
  { apply (touches_tokens P _ _ _ T2).
    - apply (touches_tokens P _ _ _ T1); [exact H0|].
      intros t Ht. apply Hk; [apply (stack_key_string ds x t Ht) | exact Ht].
    - intros t [<-|[]]. unfold P, fn. intro E; inversion E; congruence. }
  unfold register_test. rewrite (view_get _ _ _ Ev). unfold rec_view.
  rewrite map_get_not_in; [reflexivity|]. intros l Hin. exact (HP _ _ Hin eq_refl).
Qed.

Lemma insert_index_split ps k n v :
  exists l1 l2, ps = (l1 ++ l2)%list /\ insert_index ps k n v = (l1 ++ (k, v) :: l2)%list.
Proof.
  induction ps as [|[k' v'] r IH]; simpl.
  - exists [], []. auto.
  - destruct (array_index k') as [n'|].
    + destruct (n <? n')%Z.
      * exists [], ((k', v') :: r). auto.
      * destruct IH as (l1 & l2 & E1 & E2). exists ((k', v') :: l1), l2. rewrite E2, E1. auto.
    + exists [], ((k', v') :: r). auto.
Qed.

Lemma assoc_app {A} k (l1 l2 : list (string * A)) :
  assoc k (l1 ++ l2)%list = match assoc k l1 with Some a => Some a | None => assoc k l2 end.
Proof. induction l1 as [|[k' a'] r IH]; simpl; [reflexivity|]. destruct (k =? k'); auto. Qed.

Lemma assoc_none {A} k (ps : list (string * A)) : existsb (fun kv => fst kv =? k) ps = false -> assoc k ps = None.
Proof.
  induction ps as [|[k' a] r IH]; simpl; [reflexivity|]. intro H. apply orb_false_iff in H as [H1 H2].
  rewrite String.eqb_sym, H1. auto.
Qed.

Lemma assoc_insert {A} k k' v (l1 l2 : list (string * A)) :
  existsb (fun kv => fst kv =? k) (l1 ++ l2)%list = false ->
  assoc k' (l1 ++ (k, v) :: l2)%list = if k' =? k then Some v else assoc k' (l1 ++ l2)%list.
Proof.
  intro H. rewrite !assoc_app. simpl.
  rewrite existsb_app in H. apply orb_false_iff in H as [H1 _].
  destruct (String.eqb_spec k' k).
  - subst. now rewrite (assoc_none _ _ H1).
  - destruct (assoc k' l1); reflexivity.
Qed.

Lemma assoc_map_other {A} k k' v (ps : list (string * A)) :
  k' <> k -> assoc k' (map (fun kv => if fst kv =? k then (k, v) else kv) ps) = assoc k' ps.
Proof.
  intro N. induction ps as [|[k0 a] r IH]; simpl; [reflexivity|].
  destruct (String.eqb_spec k0 k) as [->|N0]; simpl.
  - rewrite (proj2 (String.eqb_neq k' k) N). exact IH.
  - rewrite IH. reflexivity.
Qed.

Lemma assoc_map_same {A} k v (ps : list (string * A)) :
  existsb (fun kv => fst kv =? k) ps = true ->
  assoc k (map (fun kv => if fst kv =? k then (k, v) else kv) ps) = Some v.
Proof.
  induction ps as [|[k0 a] r IH]; simpl; [discriminate|]. intro H.
  destruct (String.eqb_spec k0 k) as [->|N]; simpl.
  - now rewrite String.eqb_refl.
  - rewrite (proj2 (String.eqb_neq k k0)) by congruence. apply IH. exact H.
Qed.

Lemma keys_map_replace {A} k v (ps : list (string * A)) :
  map fst (map (fun kv => if fst kv =? k then (k, v) else kv) ps) = map fst ps.
Proof.
  induction ps as [|[k0 a] r IH]; simpl; [reflexivity|].
  destruct (String.eqb_spec k0 k); simpl; subst; f_equal; exact IH.
Qed.

Lemma nodup_insert {A} k v (l1 l2 : list (string * A)) :
  existsb (fun kv => fst kv =? k) (l1 ++ l2)%list = false ->
  NoDup (map fst (l1 ++ l2)%list) -> NoDup (map fst (l1 ++ (k, v) :: l2)%list).
Proof.
  intros H N. rewrite map_app in *. simpl. apply (proj2 (NoDup_Add (Add_app k (map fst l1) (map fst l2)))). split; [exact N|].
  rewrite <- map_app. intro Hin. apply in_map_iff in Hin as ([k0 a] & E & Hin). simpl in E. subst k0.
  assert (T : existsb (fun kv => fst kv =? k) (l1 ++ l2)%list = true).
  { apply existsb_exists. exists (k, a). split; [exact Hin | apply String.eqb_refl]. }
  congruence.
Qed.

(** X13: the assignment [body[path] = assertion] of [ExpectBody] ignores the
    path [__proto__]; for any other path it sets that path, keeps the other
    paths and keeps the paths distinct. *)
Theorem expect_body_assignment ps k v :
  (k = "__proto__" -> obj_set ps k v = ps) /\
  (k <> "__proto__" ->
     assoc k (obj_set ps k v) = Some v /\
     (forall k', k' <> k -> assoc k' (obj_set ps k v) = assoc k' ps) /\
     (NoDup (map fst ps) -> NoDup (map fst (obj_set ps k v)))).
Proof.
  unfold obj_set. split.
  - intros ->. reflexivity.
  - intro Np. rewrite (proj2 (String.eqb_neq k "__proto__") Np).
    destruct (existsb (fun kv => fst kv =? k) ps) eqn:Ex.
    + split; [apply assoc_map_same, Ex|]. split.
      * intros k' N. apply assoc_map_other, N.
      * rewrite keys_map_replace. auto.
    + assert (G : forall l1 l2, ps = (l1 ++ l2)%list ->
                assoc k (l1 ++ (k, v) :: l2)%list = Some v /\
                (forall k', k' <> k -> assoc k' (l1 ++ (k, v) :: l2)%list = assoc k' ps) /\
                (NoDup (map fst ps) -> NoDup (map fst (l1 ++ (k, v) :: l2)%list))).
      { intros l1 l2 ->. split; [|split].
        - rewrite assoc_insert by exact Ex. now rewrite String.eqb_refl.
        - intros k' N. rewrite assoc_insert by exact Ex. now rewrite (proj2 (String.eqb_neq k' k) N).
        - apply nodup_insert, Ex. }
      destruct (array_index k) as [n|].
      * destruct (insert_index_split ps k n v) as (l1 & l2 & E1 & E2). rewrite E2. apply G, E1.
      * apply G. symmetry. apply app_nil_r.
Qed.

Lemma wf_empty : wf empty_st.
Proof. split; constructor. Qed.

(** X2: on a well-formed registry, each API decorator applied to a method
    succeeds and satisfies [dec_post]: the method's record gets exactly the
    decorator's field set, only the keys of [stored_tokens] are written, and
    [ApiEndpoint], [Headers] and [RequestBody] act on the property key as
    [key_post] says. *)
Theorem api_decorator_sets_its_field d x s :
  wf s -> fn x <> cls x -> exists s', apply_dec d x s = Some (tt, s') /\ dec_post d x s s'.
Proof. intros W N. exact (apply_dec_post d x s W N). Qed.

Lemma api_decorator_sets_its_field_witness :
  exists s', apply_dec (DExpectStatus 200) example_site empty_st = Some (tt, s') /\
             dec_post (DExpectStatus 200) example_site empty_st s'.
Proof. apply api_decorator_sets_its_field; [exact wf_empty | discriminate]. Defined.

(** X3: a non-empty stack of API decorators succeeds on a well-formed
    registry and leaves on the method the record with every decorator's
    field set in turn, writing only the keys of [stack_tokens]. *)
Theorem api_decorator_stack_accumulates ds x s :
  wf s -> fn x <> cls x -> ds <> [] ->
  exists s', apply_decs ds x s = Some (tt, s') /\ wf s' /\
    rec_view s' (fn x) = Some (stack_record ds (base_record s x)) /\
    touches (entries s) (entries s') (stack_tokens ds x) /\
    (forall l, map_get (entries s) (fn x) = Some l -> map_get (entries s') (fn x) = Some l).
Proof. intros W N Ne. exact (apply_decs_post ds x s W N Ne). Qed.

Lemma api_decorator_stack_accumulates_witness :
  exists s', apply_decs [DExpectStatus 200; DPathParams [("id", JStr "1")]] example_site empty_st = Some (tt, s') /\
    wf s' /\
    rec_view s' (fn example_site) =
      Some (stack_record [DExpectStatus 200; DPathParams [("id", JStr "1")]] (base_record empty_st example_site)) /\
    touches (entries empty_st) (entries s') (stack_tokens [DExpectStatus 200; DPathParams [("id", JStr "1")]] example_site) /\
    (forall l, map_get (entries empty_st) (fn example_site) = Some l -> map_get (entries s') (fn example_site) = Some l).
Proof. apply api_decorator_stack_accumulates; [exact wf_empty | discriminate | discriminate]. Defined.

Lemma api_decorators_commute_witness :
  exists s1 s2, apply_decs [DExpectStatus 200; DHeaders [("Accept", "application/json")]] example_site empty_st = Some (tt, s1) /\
    apply_decs [DHeaders [("Accept", "application/json")]; DExpectStatus 200] example_site empty_st = Some (tt, s2) /\
    rec_view s1 (fn example_site) = rec_view s2 (fn example_site).
Proof. apply api_decorators_commute; [exact wf_empty | discriminate | discriminate]. Defined.

(** X5: after a stack with [Headers] or [RequestBody] on a method with a
    truthy property key, and no [ApiEndpoint] (first form) above it, the
    property key and the method share one record reference. *)
Theorem key_writer_aliases_method ds1 d ds2 x s :
  wf s -> fn x <> cls x -> pkey_truthy (key x) = true ->
  writes_key d = true -> (forall m p, d <> DApiEndpoint m p) -> (forall m p, ~ In (DApiEndpoint m p) ds2) ->
  exists s', apply_decs (ds1 ++ d :: ds2) x s = Some (tt, s') /\ aliased (entries s') x.
Proof.
  intros W N Tr Wk Nv Nv2.
  destruct (apply_decs_run ds1 x s W N) as (s1 & E1 & W1 & _ & _).
  destruct (apply_dec_post d x s1 W1 N) as (s2 & E2 & P2).
  destruct (apply_decs_alias ds2 x s2 (proj1 P2) N Nv2 Tr (aliased_after_headers d x s1 s2 P2 Nv Wk Tr))
    as (s3 & E3 & Al).
  exists s3. split; [|exact Al].
  rewrite apply_decs_app. unfold sbind. rewrite E1. simpl. unfold sbind. rewrite E2. exact E3.
Qed.

Lemma key_writer_aliases_method_witness :
  exists s', apply_decs ([] ++ DHeaders [("Accept", "application/json")] :: [DExpectStatus 200]) example_site empty_st
             = Some (tt, s') /\ aliased (entries s') example_site.
Proof.
  apply key_writer_aliases_method;
    [exact wf_empty | discriminate | reflexivity | reflexivity | discriminate |].
  intros m p [H|[]]; discriminate.
Defined.

(** X6: [@test()] stores a new record [test_record] under the method,
    dropping what the decorators below stored there; it writes only the
    method's key and leaves every other record as it was. *)
Theorem test_replaces_record x s :
  wf s ->
  exists s', test_default x s = Some (tt, s') /\ wf s' /\
    rec_view s' (fn x) = Some (test_record x) /\
    touches (entries s) (entries s') [fn x] /\
    (forall t, t <> fn x -> rec_view s' t = rec_view s t).
Proof. intro W. exact (test_default_spec x s W). Qed.

Lemma test_replaces_record_witness :
  exists s', test_default example_site empty_st = Some (tt, s') /\ wf s' /\
    rec_view s' (fn example_site) = Some (test_record example_site) /\
    touches (entries empty_st) (entries s') [fn example_site] /\
    (forall t, t <> fn example_site -> rec_view s' t = rec_view empty_st t).
Proof. apply test_replaces_record. exact wf_empty. Defined.

Lemma flag_decorators_keep_record_witness :
  (exists s', only example_site empty_st = Some (tt, s') /\ wf s' /\
     rec_view s' (fn example_site) = Some (meta_map_options options_set_only (base_record empty_st example_site)) /\
     touches (entries empty_st) (entries s') [fn example_site]) /\
  (exists s', tag ["smoke"] example_site empty_st = Some (tt, s') /\ wf s' /\
     rec_view s' (fn example_site) =
       Some (meta_map_options (options_set_tags ["smoke"]) (base_record empty_st example_site)) /\
     touches (entries empty_st) (entries s') [fn example_site]) /\
  (exists s', slow None example_site empty_st = Some (tt, s') /\ wf s' /\
     rec_view s' (fn example_site) = Some (meta_map_options options_set_slow (base_record empty_st example_site)) /\
     touches (entries empty_st) (entries s') [fn example_site]).
Proof. apply flag_decorators_keep_record. exact wf_empty. Defined.

Lemma endpoint_v1_stack_request_witness :
  exists s' v,
    (_ <~ apply_decs ([DExpectStatus 200; DHeaders [("Accept", "application/json")]] ++ [DApiEndpoint "GET" "/users/1"])
            example_site ;; test_default example_site) empty_st = Some (tt, s') /\
    view s' = Some v /\
    register_test v "getUserTest" (fn example_site) =
      Some (TestRegular, api_request (mkFragment (Some "GET") (Some "/users/1") None None None None None)).
Proof.
  apply endpoint_v1_stack_request;
    [exact wf_empty | discriminate | reflexivity | discriminate | intros t l []].
Defined.

Lemma endpoint_v2_stack_no_request_witness :
  exists s' v,
    (_ <~ apply_decs [DExpectStatus 200; DApiEndpoint_2 "GET" "/users/1"] example_site ;;
     test_default example_site) empty_st = Some (tt, s') /\
    view s' = Some v /\
    register_test v "getUserTest" (fn example_site) = Some (TestRegular, None).
Proof.
  apply (endpoint_v2_stack_no_request _ "GET" "/users/1");
    [exact wf_empty | discriminate | constructor | intros t l [] | simpl; auto |].
  intros d [<-|[<-|[]]]; reflexivity.
Defined.

Lemma key_writer_stack_request_witness :
  exists s' v,
    (_ <~ apply_decs ([] ++ DHeaders [("Accept", "application/json")] :: [DApiEndpoint_2 "GET" "/users/1"])
            example_site ;; test_default example_site) empty_st = Some (tt, s') /\
    view s' = Some v /\
    register_test v "getUserTest" (fn example_site) =
      Some (TestRegular, api_call (api (moptions
        (stack_record ([] ++ DHeaders [("Accept", "application/json")] :: [DApiEndpoint_2 "GET" "/users/1"])
                      (base_record empty_st example_site))))).
Proof.
  apply key_writer_stack_request;
    [exact wf_empty | discriminate | reflexivity | discriminate | intros t l [] | reflexivity | discriminate |].
  intros m p [H|[]]; discriminate.
Defined.

Lemma only_above_test_no_request_witness :
  exists s' v,
    (_ <~ apply_decs [DExpectStatus 200; DApiEndpoint "GET" "/users/1"] example_site ;;
     _ <~ test_default example_site ;; only example_site) empty_st = Some (tt, s') /\
    view s' = Some v /\
    register_test v "getUserTest" (fn example_site) = Some (TestOnly, None).
Proof. apply only_above_test_no_request; [exact wf_empty | discriminate]. Defined.

Lemma step_above_test_unregistered_witness :
  exists s' v,
    (_ <~ apply_decs [DApiEndpoint "GET" "/users/1"] example_site ;; test_default example_site) empty_st
      = Some (tt, s') /\
    view s' = Some v /\
    register_test v "getUserTest" (fn (step 7 example_site)) = None.
Proof.
  apply step_above_test_unregistered; [exact wf_empty | discriminate | discriminate | discriminate | intros t l []].
Defined.

Lemma expect_body_assignment_witness :
  obj_set [("name", mkAssertion "toBeDefined" JUndefined)] "__proto__" (mkAssertion "toEqual" (JNum 1))
    = [("name", mkAssertion "toBeDefined" JUndefined)] /\
  assoc "name" (obj_set [("name", mkAssertion "toBeDefined" JUndefined)] "name" (mkAssertion "toEqual" (JNum 1)))
    = Some (mkAssertion "toEqual" (JNum 1)).
Proof.
  destruct (expect_body_assignment [("name", mkAssertion "toBeDefined" JUndefined)] "__proto__"
              (mkAssertion "toEqual" (JNum 1))) as [H1 _].
  destruct (expect_body_assignment [("name", mkAssertion "toBeDefined" JUndefined)] "name"
              (mkAssertion "toEqual" (JNum 1))) as [_ H2].
  split; [exact (H1 eq_refl) | exact (proj1 (H2 ltac:(discriminate)))].
Defined.

End DecoratorFacts.
